(** * Greek Scrabble: the letter bag, the computer's word search and the turn loop

    A shallow embedding of [classes.py] (classes SakClass, Player, Human,
    Computer and Game) and the properties of its specification.

    Conventions of the embedding.
    - Python has no character type: a letter is a one-character [str].  A
      letter is modelled by its Unicode code point ([char]) and a [str] by the
      list of its code points, so that [''.join(perm)] of a tuple of letters is
      the tuple itself, [for l in w] visits the elements of [w] and comparison
      of strings is the lexicographic order on code points.
    - A Python exception is a value of [exn]; code that can raise lives in the
      error monad [result].
    - [random.shuffle] takes its random draws from an explicit list.
    - [print] appends to an output log of the turn loop. *)

From stdpp Require Import base list gmap sets strings sorting.
From Stdlib Require Import ZArith Lia.

Open Scope Z_scope.
Open Scope nat_scope.

(** ** Python values *)

Definition char := N.
Definition str := list char.

(** The code points of an ASCII literal. *)
Definition lit (s : string) : str :=
  map Ascii.N_of_ascii (String.list_ascii_of_string s).

Inductive exn := KeyError | ValueError | IndexError | StopIteration.

Inductive result (A : Type) :=
| Ok (a : A)
| Raise (e : exn).
Arguments Ok {A} a.
Arguments Raise {A} e.

#[global] Instance result_bind : MBind result := fun A B f m =>
  match m with
  | Ok a => f a
  | Raise e => Raise e
  end.

(** A [for] loop whose body may raise: the accumulator is threaded through
    the elements from left to right and the first exception ends the loop. *)
Fixpoint for_each {A S} (body : S -> A -> result S) (xs : list A) (s : S) : result S :=
  match xs with
  | [] => Ok s
  | x :: xs' => s' ← body s x; for_each body xs' s'
  end.

(** [list.pop()]: the last element, [IndexError] on the empty list. *)
Fixpoint pop {A} (l : list A) : result (A * list A) :=
  match l with
  | [] => Raise IndexError
  | [x] => Ok (x, [])
  | y :: l' => '(x, r) ← pop l'; Ok (x, y :: r)
  end.

(** [list.remove(x)]: drops the first occurrence, [ValueError] when absent. *)
Fixpoint remove {A} `{EqDecision A} (x : A) (l : list A) : result (list A) :=
  match l with
  | [] => Raise ValueError
  | y :: l' => if decide (y = x) then Ok l' else r ← remove x l'; Ok (y :: r)
  end.

(** [list.count(x)] and, on a one-character argument, [str.count(x)]. *)
Definition count {A} `{EqDecision A} (x : A) (l : list A) : nat :=
  length (filter (fun y => y = x) l).

(** [x[i], x[j] = x[j], x[i]] for indices inside the list. *)
Definition swap {A} (i j : nat) (x : list A) : list A :=
  match x !! i, x !! j with
  | Some a, Some b => <[j:=a]> (<[i:=b]> x)
  | _, _ => x
  end.

(** ** random.shuffle

    The standard library's in-place Fisher-Yates:
    [for i in reversed(range(1, len(x))): j = randbelow(i + 1); swap x[i], x[j]].
    The raw draws of the random source are an argument; [randbelow n] reduces
    the next one modulo [n]. *)
Definition randbelow (n : nat) (rnd : list nat) : nat * list nat :=
  match rnd with
  | [] => (0, [])
  | r :: rnd' => (r mod n, rnd')
  end.

Fixpoint shuffle_from {A} (i : nat) (rnd : list nat) (x : list A) : list A :=
  match i with
  | 0 => x
  | S i' => let '(j, rnd') := randbelow (S i) rnd in
            shuffle_from i' rnd' (swap i j x)
  end.

Definition shuffle {A} (rnd : list nat) (x : list A) : list A :=
  shuffle_from (length x - 1) rnd x.

(** ** itertools.permutations

    [permutations hand r]: the ordered arrangements of [r] elements taken
    from distinct positions of [hand], in lexicographic order of the
    positions.  [picks l] pairs every element with the others, by position. *)
Fixpoint picks {A} (l : list A) : list (A * list A) :=
  match l with
  | [] => []
  | x :: t => (x, t) :: map (fun '(y, rest) => (y, x :: rest)) (picks t)
  end.

Fixpoint permutations {A} (l : list A) (r : nat) : list (list A) :=
  match r with
  | 0 => [[]]
  | S r' => flat_map (fun '(x, rest) => map (cons x) (permutations rest r')) (picks l)
  end.

(** [range(2, k + 1)] and [range(k, 1, -1)]. *)
Definition range_up (k : nat) : list nat := seq 2 (k - 1).
Definition range_down (k : nat) : list nat := reverse (seq 2 (k - 1)).

(** ** Ordering of [(score, word)] tuples and [list.sort(reverse=True)] *)

Fixpoint str_ltb (a b : str) : bool :=
  match a, b with
  | [], [] => false
  | [], _ :: _ => true
  | _ :: _, [] => false
  | x :: a', y :: b' => if (x <? y)%N then true
                        else if (y <? x)%N then false
                        else str_ltb a' b'
  end.

Definition tuple_ltb (p q : nat * str) : bool :=
  if p.1 <? q.1 then true
  else if q.1 <? p.1 then false
  else str_ltb p.2 q.2.

(** Stable insertion into a descending list: [x] goes after the elements
    that are not smaller than it. *)
Fixpoint insert_desc (x : nat * str) (l : list (nat * str)) : list (nat * str) :=
  match l with
  | [] => [x]
  | y :: l' => if tuple_ltb y x then x :: y :: l' else y :: insert_desc x l'
  end.

Definition sort_reverse (l : list (nat * str)) : list (nat * str) :=
  foldl (fun acc x => insert_desc x acc) [] l.

(** [d[key]] on a dictionary kept in insertion order: [KeyError] when absent. *)
Fixpoint getitem {K V} `{EqDecision K} (d : list (K * V)) (key : K) : result V :=
  match d with
  | [] => Raise KeyError
  | (k, v) :: d' => if decide (k = key) then Ok v else getitem d' key
  end.

(** ** The Greek alphabet (code points U+0391 to U+03A9) *)

Definition Alpha : char := 913%N.
Definition Beta : char := 914%N.
Definition Gamma : char := 915%N.
Definition Delta : char := 916%N.
Definition Epsilon : char := 917%N.
Definition Zeta : char := 918%N.
Definition Eta : char := 919%N.
Definition Theta : char := 920%N.
Definition Iota : char := 921%N.
Definition Kappa : char := 922%N.
Definition Lambda : char := 923%N.
Definition Mu : char := 924%N.
Definition Nu : char := 925%N.
Definition Xi : char := 926%N.
Definition Omicron : char := 927%N.
Definition Pi : char := 928%N.
Definition Rho : char := 929%N.
Definition Sigma : char := 931%N.
Definition Tau : char := 932%N.
Definition Upsilon : char := 933%N.
Definition Phi : char := 934%N.
Definition Chi : char := 935%N.
Definition Psi : char := 936%N.
Definition Omega : char := 937%N.

(** ** class SakClass

    The object is its [sak] list; [letters] is the same constant table in
    every instance. *)
Module SakClass.

(** letter -> (count, score) *)
Definition letters : list (char * (nat * nat)) :=
  [ (Alpha, (12, 1)); (Beta, (1, 8)); (Gamma, (2, 4));
    (Delta, (2, 4)); (Epsilon, (8, 1)); (Zeta, (1, 10));
    (Eta, (7, 1)); (Theta, (1, 10)); (Iota, (8, 1));
    (Kappa, (4, 2)); (Lambda, (3, 3)); (Mu, (3, 3));
    (Nu, (6, 1)); (Xi, (1, 10)); (Omicron, (9, 1));
    (Pi, (4, 2)); (Rho, (5, 2)); (Sigma, (7, 1));
    (Tau, (8, 1)); (Upsilon, (4, 2)); (Phi, (1, 8));
    (Chi, (1, 8)); (Psi, (1, 10)); (Omega, (3, 3)) ].

(** The bag before shuffling: [count] copies of every letter, in the
    order of the table. *)
Definition filled : list char :=
  foldl (fun sak '(letter, (count, _)) => sak ++ replicate count letter) [] letters.

Definition randomize_sak (rnd : list nat) : list char :=
  shuffle rnd filled.

(** [SakClass()] *)
Definition init (rnd : list nat) : list char := randomize_sak rnd.

(** The loop of [getletters]: [k] times [hand.append(self.sak.pop())]. *)
Fixpoint draw (k : nat) (hand sak : list char) : result (list char * list char) :=
  match k with
  | 0 => Ok (hand, sak)
  | S k' => '(x, sak') ← pop sak; draw k' (hand ++ [x]) sak'
  end.

(** Returns the hand and the bag left. *)
Definition getletters (n : Z) (sak : list char) : result (list char * list char) :=
  draw (Z.to_nat (Z.min n (Z.of_nat (length sak)))) [] sak.

Definition putbackletters (rnd : list nat) (letters : list char) (sak : list char) : list char :=
  shuffle rnd (sak ++ letters).

End SakClass.

(** ** class Player and its subclasses *)

Inductive Strategy := MIN | MAX | SMART | FAIL | LEARN | TEACH.

#[global] Instance Strategy_eq_dec : EqDecision Strategy.
Proof. solve_decision. Defined.

(** [isinstance(p, Human)] or [isinstance(p, Computer)]; a Computer carries
    its strategy tag and its learned words. *)
Inductive Class :=
| is_Human
| is_Computer (strategy : Strategy) (learned_words : gset str).

Record Player := {
  name : string;
  hand : list char;
  score : nat;
  class : Class;
}.

Definition set_hand (p : Player) (h : list char) : Player :=
  {| name := name p; hand := h; score := score p; class := class p |}.

Definition add_score (p : Player) (s : nat) : Player :=
  {| name := name p; hand := hand p; score := score p + s; class := class p |}.

Definition isinstance_Human (p : Player) : bool :=
  match class p with is_Human => true | is_Computer _ _ => false end.

Definition isinstance_Computer (p : Player) : bool :=
  match class p with is_Human => false | is_Computer _ _ => true end.

Definition PASS : str := lit "PASS".

Module Computer.

(** [sum(SakClass().letters[l][1] for l in w)] *)
Definition word_score (w : str) : result nat :=
  for_each (fun total l => '(_, value) ← getitem SakClass.letters l; Ok (total + value)) w 0.

(** The first loop of [min_max_smart]: [inl w] is the early
    [return words[0]], [inr words] the list at the end of the loop. *)
Fixpoint scan (strategy : Strategy) (hand : list char) (wordset : gset str)
    (arities : list nat) (words : list str) : str + list str :=
  match arities with
  | [] => inr words
  | i :: arities' =>
      let words' :=
        foldl (fun words perm =>
                 let w : str := perm in
                 if bool_decide (w ∈ wordset) then words ++ [w] else words)
              words (permutations hand i) in
      match words' with
      | w :: _ =>
          if bool_decide (strategy = MIN \/ strategy = MAX) then inl w
          else scan strategy hand wordset arities' words'
      | [] => scan strategy hand wordset arities' words'
      end
  end.

(** The exhaustive loop shared by the SMART branch and [smart_teach]. *)
Definition best (hand : list char) (wordset : gset str) : result (str * nat) :=
  for_each (fun acc i =>
    for_each (fun '(best_word, best_score) perm =>
                let w : str := perm in
                if bool_decide (w ∈ wordset) then
                  score ← word_score w;
                  if best_score <? score then Ok (w, score)
                  else Ok (best_word, best_score)
                else Ok (best_word, best_score))
             (permutations hand i) acc)
    (range_up (length hand)) ([], 0).

Definition min_max_smart (strategy : Strategy) (hand : list char) (wordset : gset str)
    : result str :=
  match scan strategy hand wordset
             (if decide (strategy = MIN) then range_up (length hand)
              else range_down (length hand)) [] with
  | inl w => Ok w
  | inr _ =>
      if decide (strategy = SMART) then
        '(best_word, _) ← best hand wordset;
        Ok (match best_word with [] => PASS | _ => best_word end)
      else Ok PASS
  end.

Definition fail_strategy (hand : list char) (wordset : gset str) : result str :=
  words_scores ←
    for_each (fun acc i =>
      for_each (fun words_scores perm =>
                  let w : str := perm in
                  if bool_decide (w ∈ wordset) then
                    score ← word_score w;
                    Ok (words_scores ++ [(score, w)])
                  else Ok words_scores)
               (permutations hand i) acc)
      (range_up (length hand)) [];
  match sort_reverse words_scores with
  | [] => Ok PASS
  | [e] => Ok e.2
  | _ :: e :: _ => Ok e.2
  end.

Definition smart_learn (strategy : Strategy) (hand : list char) (wordset : gset str)
    : result str :=
  min_max_smart strategy hand wordset.

Definition smart_teach (hand : list char) (wordset : gset str) : result str :=
  '(best_word, _) ← best hand wordset;
  Ok (match best_word with [] => PASS | _ => best_word end).

Definition play (strategy : Strategy) (learned_words : gset str) (hand : list char)
    (wordset : gset str) : result str :=
  let all_words := wordset ∪ learned_words in
  match strategy with
  | MIN | MAX | SMART => min_max_smart strategy hand all_words
  | FAIL => fail_strategy hand all_words
  | LEARN => smart_learn strategy hand all_words
  | TEACH => smart_teach hand all_words
  end.

End Computer.

(** [player.play(wordset)]: a Human answers with the line typed at the
    prompt, already stripped and upper-cased ([typed]); a Computer searches
    its hand. *)
Definition play (self : Player) (typed : str) (wordset : gset str) : result str :=
  match class self with
  | is_Human => Ok typed
  | is_Computer strategy learned_words =>
      Computer.play strategy learned_words (hand self) wordset
  end.

(** ** class Game *)

(** What the turn loop prints, one constructor per [print] of [run]. *)
Inductive Output :=
| ShowPlayer (p : Player)                                (* print(player) *)
| QuitMsg (name : string)                                (* ... quit the game! *)
| LettersChanged                                         (* Letters changed! *)
| Played (name : string) (word : str) (score : nat)      (* ... played word (+score) *)
| Passed (name : string)                                 (* ... could not find a word and passed. *)
| BestWord (best_word : str)                             (* The best word would have been: ... *)
| InvalidWord                                            (* Invalid word!! *)
| NoMoreLetters.                                         (* No more letters left in the bag. *)

Record Game := {
  sak : list char;
  wordset : gset str;
  players : list Player;
  strategy : Strategy;
}.

(** What [end] prints. *)
Inductive EndOutput :=
| GameOver                        (* Game Over! *)
| FinalPlayer (p : Player)        (* print(p) *)
| WordsSaved (n : nat).           (* New words saved to greek7.txt: n words. *)

Module Game.

(** [Game(wordset)] *)
Definition init (rnd : list nat) (wordset : gset str) : Game :=
  {| sak := SakClass.init rnd; wordset := wordset; players := []; strategy := SMART |}.

(** [settings]: the strategy chosen by the letter typed, SMART by default. *)
Definition settings (choice : str) (self : Game) : Game :=
  let chosen :=
    if decide (choice = lit "a") then MIN
    else if decide (choice = lit "b") then MAX
    else if decide (choice = lit "c") then SMART
    else if decide (choice = lit "d") then FAIL
    else if decide (choice = lit "e") then LEARN
    else if decide (choice = lit "f") then TEACH
    else SMART in
  {| sak := sak self; wordset := wordset self; players := players self; strategy := chosen |}.

Definition setup (self : Game) : result Game :=
  let fresh :=
    [ {| name := "HUMAN"; hand := []; score := 0; class := is_Human |};
      {| name := "COMPUTER"; hand := []; score := 0;
         class := is_Computer (strategy self) ∅ |} ] in
  '(ps, bag) ←
    for_each (fun '(ps, bag) p =>
                '(h, bag') ← SakClass.getletters 7 bag;
                Ok (ps ++ [set_hand p h], bag'))
             fresh ([], sak self);
  Ok {| sak := bag; wordset := wordset self; players := ps; strategy := strategy self |}.

(** The state of [run]: the game object, the local [turn] and what has
    been printed so far. *)
Record Run := {
  game : Game;
  turn : nat;
  out : list Output;
}.

Definition start (g : Game) : Run := {| game := g; turn := 0; out := [] |}.

(** [all(word.count(l) <= player.hand.count(l) for l in word)] *)
Definition playable (word : str) (h : list char) : bool :=
  forallb (fun l => count l word <=? count l h) word.

(** [next(p for p in self.players if isinstance(p, Computer))] *)
Fixpoint next_computer (ps : list Player) : result Player :=
  match ps with
  | [] => Raise StopIteration
  | p :: ps' => if isinstance_Computer p then Ok p else next_computer ps'
  end.

(** One iteration of the [while True] of [run].  [typed] is the line a
    Human would type at this prompt and [rnd] the draws of the random
    source consumed by this iteration.  The boolean tells whether the loop
    goes on ([false] is a [break]). *)
Definition turn_body (typed : str) (rnd : list nat) (st : Run) : result (Run * bool) :=
  let self := game st in
  let i := turn st mod 2 in
  player ← match players self !! i with Some p => Ok p | None => Raise IndexError end;
  let out1 := out st ++ [ShowPlayer player] in
  word ← play player typed (wordset self);
  if decide (word = lit "Q") then
    Ok ({| game := self; turn := turn st; out := out1 ++ [QuitMsg (name player)] |}, false)
  else
    '(self', out2) ←
      (if decide (word = lit "P") then
         let bag := SakClass.putbackletters rnd (hand player) (sak self) in
         '(h, bag') ← SakClass.getletters 7 bag;
         Ok ({| sak := bag'; wordset := wordset self;
                players := <[i := set_hand player h]> (players self);
                strategy := strategy self |},
             out1 ++ [LettersChanged])
       else if bool_decide (word ∈ wordset self) && playable word (hand player) then
         score ← for_each (fun total l =>
                             '(_, value) ← getitem SakClass.letters l;
                             Ok (total + value)) word 0;
         let player1 := add_score player score in
         h ← for_each (fun h l => remove l h) word (hand player1);
         '(drawn, bag') ← SakClass.getletters (7 - Z.of_nat (length h)) (sak self);
         Ok ({| sak := bag'; wordset := wordset self;
                players := <[i := set_hand player1 (h ++ drawn)]> (players self);
                strategy := strategy self |},
             out1 ++ [Played (name player) word score])
       else if decide (word = PASS) then
         Ok (self, out1 ++ [Passed (name player)])
       else if isinstance_Human player && bool_decide (strategy self = TEACH) then
         computer ← next_computer (players self);
         best_word ← Computer.smart_teach (hand computer) (wordset self);
         Ok (self, if bool_decide (word ∈ wordset self) then out1 ++ [BestWord best_word]
                   else out1)
       else
         Ok (self, out1 ++ [InvalidWord]));
    match sak self' with
    | [] => Ok ({| game := self'; turn := turn st; out := out2 ++ [NoMoreLetters] |}, false)
    | _ :: _ => Ok ({| game := self'; turn := S (turn st); out := out2 |}, true)
    end.

(** [run] on a script: one [(typed, rnd)] per iteration; it stops at the
    first [break] or when the script ends. *)
Fixpoint run_loop (script : list (str * list nat)) (st : Run) : result (Run * bool) :=
  match script with
  | [] => Ok (st, true)
  | (typed, rnd) :: script' =>
      match turn_body typed rnd st with
      | Ok (st', true) => run_loop script' st'
      | Ok (st', false) => Ok (st', false)
      | Raise e => Raise e
      end
  end.

Definition run (script : list (str * list nat)) (self : Game) : result (Run * bool) :=
  run_loop script (start self).

(** [end]: what it prints, and the lines it appends to the dictionary file
    (one word per line; the words of a set are visited in the order of
    [elements], Python leaves that order open). *)
Definition end_ (self : Game) : list EndOutput * list str :=
  foldl (fun '(printed, file) p =>
           match class p with
           | is_Computer LEARN learned_words =>
               if decide (learned_words = ∅) then (printed, file)
               else (printed ++ [WordsSaved (size learned_words)],
                     file ++ elements learned_words)
           | _ => (printed, file)
           end)
        (GameOver :: map FinalPlayer (players self), []) (players self).

End Game.

(** ** Vocabulary of the statements *)

(** The keys of the letter table. *)
Definition in_table (c : char) : Prop := c ∈ SakClass.letters.*1.

#[global] Instance in_table_dec (c : char) : Decision (in_table c).
Proof. unfold in_table. apply _. Defined.

(** The point value of a letter of the table (0 outside it). *)
Definition letter_value (c : char) : nat :=
  match getitem SakClass.letters c with
  | Ok (_, value) => value
  | Raise _ => 0
  end.

(** The letter-value sum of a word. *)
Definition score_of (w : str) : nat := sum_list_with letter_value w.

(** The acceptable words of arity [i]: the arrangements of [i] positions of
    the hand that are in the oracle, in enumeration order (an arrangement
    reached from several choices of positions is listed once per choice). *)
Definition acceptable (hand : list char) (oracle : gset str) (i : nat) : list str :=
  filter (λ w, w ∈ oracle) (permutations hand i).

(** All acceptable words, arities 2 to [len(hand)] ascending. *)
Definition candidates (hand : list char) (oracle : gset str) : list str :=
  flat_map (acceptable hand oracle) (range_up (length hand)).

(** The [(score, word)] entries FAIL collects, one per candidate. *)
Definition entries (hand : list char) (oracle : gset str) : list (nat * str) :=
  map (λ w, (score_of w, w)) (candidates hand oracle).

(** What FAIL returns from the sorted entries. *)
Definition second_or_only (sorted : list (nat * str)) : str :=
  match sorted with
  | [] => PASS
  | [e] => e.2
  | _ :: e :: _ => e.2
  end.

(** One step of the search on an acceptable word of known score. *)
Definition keep_best (acc : str * nat) (w : str) : str * nat :=
  if acc.2 <? score_of w then (w, score_of w) else acc.

(** The letters in the bag and in the hands of the players. *)
Definition letters_in_play (g : Game) : nat :=
  length (sak g) + sum_list_with (λ p, length (hand p)) (players g).

(** The letters of the words played so far, read off the output. *)
Definition letters_of (o : Output) : nat :=
  match o with
  | Played _ word _ => length word
  | _ => 0
  end.

Definition played_letters (out : list Output) : nat := sum_list_with letters_of out.

(** A game after [setup]: the Human, then the Computer with the strategy of
    the settings and nothing learned, all letters taken from the table. *)
Definition well_formed (ws : gset str) (g : Game) : Prop :=
  wordset g = ws ∧
  Forall in_table (sak g) ∧
  ∃ h c, players g = [h; c] ∧
         class h = is_Human ∧ class c = is_Computer (strategy g) ∅ ∧
         Forall in_table (hand h) ∧ Forall in_table (hand c).

(** The states of a match played on a new [Game(wordset)]: after [setup],
    and after every completed iteration of [run] that follows an iteration
    that did not [break].  The boolean tells whether the loop goes on. *)
Inductive reachable (ws : gset str) : Game.Run → bool → Prop :=
| reach_setup rnd choice g :
    Game.setup (Game.settings choice (Game.init rnd ws)) = Ok g →
    reachable ws (Game.start g) true
| reach_turn st typed rnd st' continue :
    reachable ws st true →
    Game.turn_body typed rnd st = Ok (st', continue) →
    reachable ws st' continue.

(** Where the program is: in the loop of [main_menu] with the game object,
    or inside [run], between two iterations of its loop (the boolean tells
    whether the loop goes on). *)
Inductive Stage :=
| AtMenu (g : Game)
| InMatch (st : Game.Run) (continue : bool).

(** The stages the program goes through from [Game(wordset).main_menu()]:
    option 2 calls [settings], option 3 calls [setup], [run] and [end] on
    the game object as the earlier matches have left it, and the other
    options (the scores, an unknown option) leave it as it is.  [end] does
    not change the game either, so the menu gets back the game of the
    iteration that broke the loop. *)
Inductive session (ws : gset str) : Stage → Prop :=
| session_new rnd :
    session ws (AtMenu (Game.init rnd ws))
| session_settings choice g :
    session ws (AtMenu g) →
    session ws (AtMenu (Game.settings choice g))
| session_setup g g' :
    session ws (AtMenu g) →
    Game.setup g = Ok g' →
    session ws (InMatch (Game.start g') true)
| session_turn st typed rnd st' continue :
    session ws (InMatch st true) →
    Game.turn_body typed rnd st = Ok (st', continue) →
    session ws (InMatch st' continue)
| session_end st :
    session ws (InMatch st false) →
    session ws (AtMenu (Game.game st)).

(** The game object of a stage. *)
Definition game_of (s : Stage) : Game :=
  match s with
  | AtMenu g => g
  | InMatch st _ => Game.game st
  end.

(** Python's order on [(score, word)] tuples. *)
Definition tuple_lt (p q : nat * str) : Prop := tuple_ltb p q = true.
Definition tuple_le (p q : nat * str) : Prop := p = q ∨ tuple_lt p q.

(** A game position used in the examples: the bag as filled (the draws
    [101, 100, ..., 1] make every swap of the shuffle trivial), strategy
    TEACH chosen in the settings, and both hands dealt. *)
Definition demo_words : gset str :=
  {[ [Psi; Upsilon; Chi; Omega]; [Phi; Alpha]; [Tau; Upsilon] ]}.

Definition demo_game : Game :=
  match Game.setup (Game.settings (lit "f") (Game.init (rev (seq 1 101)) demo_words)) with
  | Ok g => g
  | Raise _ => Game.init [] demo_words
  end.

Definition demo_human : Player :=
  {| name := "HUMAN"; hand := [Omega; Omega; Omega; Psi; Chi; Phi; Upsilon];
     score := 0; class := is_Human |}.

(** The supply count of a letter in the table (0 outside it). *)
Definition supply (c : char) : nat :=
  match getitem SakClass.letters c with
  | Ok (n, _) => n
  | Raise _ => 0
  end.

(** The points the output reports for the player called [who]. *)
Definition points_of (who : string) (o : Output) : nat :=
  match o with
  | Played name _ score => if decide (name = who) then score else 0
  | _ => 0
  end.

Definition played_points (who : string) (out : list Output) : nat :=
  sum_list_with (points_of who) out.

(** What [setup] establishes and every iteration of [run] keeps: the Human
    and the Computer under their names, hands of at most 7 letters that are
    full unless the bag is empty, and scores that are the points printed. *)
Definition match_inv (st : Game.Run) : Prop :=
  ∃ h c,
    players (Game.game st) = [h; c] ∧
    name h = "HUMAN" ∧ name c = "COMPUTER" ∧
    class h = is_Human ∧ class c = is_Computer (strategy (Game.game st)) ∅ ∧
    length (hand h) ≤ 7 ∧ length (hand c) ≤ 7 ∧
    (sak (Game.game st) ≠ [] → length (hand h) = 7 ∧ length (hand c) = 7) ∧
    score h = played_points "HUMAN" (Game.out st) ∧
    score c = played_points "COMPUTER" (Game.out st).

(** How an iteration that did not quit ends: the game it leaves, the test
    of the empty bag, the turn counter and what was printed after the
    player line. *)
Definition ends_turn (st st' : Game.Run) (continue : bool) (g' : Game)
    (player : Player) (printed : list Output) : Prop :=
  Game.game st' = g' ∧
  continue = bool_decide (sak g' ≠ []) ∧
  Game.turn st' = (if continue then S (Game.turn st) else Game.turn st) ∧
  Game.out st' = Game.out st ++ ShowPlayer player :: printed
                 ++ (if continue then [] else [NoMoreLetters]).

(** The game after the acting player [i] has become [p] and the bag [bag]. *)
Definition with_player (g : Game) (i : nat) (p : Player) (bag : list char) : Game :=
  {| sak := bag; wordset := wordset g; players := <[i := p]> (players g);
     strategy := strategy g |}.

(** What an iteration of [run] does to the state [st] when the acting
    player [player] submits [word], one disjunct per branch of the [if]
    chain: quit, exchange, a dictionary word playable from the hand, and the
    rest (pass, advice, invalid word). *)
Definition turn_outcome (rnd : list nat) (st st' : Game.Run) (continue : bool)
    (player : Player) (word : str) : Prop :=
  let g := Game.game st in
  let i := Game.turn st mod 2 in
  (word = lit "Q" ∧ continue = false ∧ Game.game st' = g ∧
   Game.turn st' = Game.turn st ∧
   Game.out st' = Game.out st ++ [ShowPlayer player; QuitMsg (name player)]) ∨
  (word = lit "P" ∧
   ∃ hd bag',
     SakClass.putbackletters rnd (hand player) (sak g) = bag' ++ rev hd ∧
     Z.of_nat (length hd)
     = Z.min 7 (Z.of_nat (length (sak g) + length (hand player))) ∧
     ends_turn st st' continue (with_player g i (set_hand player hd) bag')
               player [LettersChanged]) ∨
  (word ≠ lit "Q" ∧ word ≠ lit "P" ∧
   word ∈ wordset g ∧ Game.playable word (hand player) = true ∧
   ∃ rest drawn bag',
     hand player ≡ₚ word ++ rest ∧
     sak g = bag' ++ rev drawn ∧
     Z.of_nat (length drawn)
     = Z.max 0 (Z.min (7 - Z.of_nat (length rest)) (Z.of_nat (length (sak g)))) ∧
     ends_turn st st' continue
               (with_player g i
                  (set_hand (add_score player (score_of word)) (rest ++ drawn)) bag')
               player [Played (name player) word (score_of word)]) ∨
  (word ≠ lit "Q" ∧ word ≠ lit "P" ∧
   ¬ (word ∈ wordset g ∧ Game.playable word (hand player) = true) ∧
   ∃ printed,
     ends_turn st st' continue g player printed ∧
     ((word = PASS ∧ printed = [Passed (name player)]) ∨
      (word ≠ PASS ∧ class player = is_Human ∧ strategy g = TEACH ∧
       ∃ computer best,
         Game.next_computer (players g) = Ok computer ∧
         Computer.smart_teach (hand computer) (wordset g) = Ok best ∧
         printed = if bool_decide (word ∈ wordset g) then [BestWord best] else []) ∨
      (word ≠ PASS ∧ ¬ (class player = is_Human ∧ strategy g = TEACH) ∧
       printed = [InvalidWord]))).

(** The position after the Human has played ΨΥΧΩ in the first turn. *)
Definition demo_word : str := [Psi; Upsilon; Chi; Omega].

Definition demo_after_play : Game.Run :=
  match Game.turn_body demo_word [] (Game.start demo_game) with
  | Ok (st', _) => st'
  | Raise _ => Game.start demo_game
  end.

(** The names on the player lines of the output, in order, and the order
    [players[turn % 2]] gives to the first [n] iterations. *)
Definition player_lines (out : list Output) : list string :=
  omap (λ o, match o with ShowPlayer p => Some (name p) | _ => None end) out.

Definition turn_order (n : nat) : list string :=
  map (λ t, if decide (t mod 2 = 0) then "HUMAN" else "COMPUTER"%string) (seq 0 n).

(** A game whose bag has been emptied by an earlier match. *)
Definition demo_spent : Game :=
  {| sak := []; wordset := demo_words; players := []; strategy := SMART |}.

(** A second match on the same game object: the Human quits the first
    match at once, the menu gets the game back with its 88 letters, and
    option 3 deals again, without refilling the bag. *)
Definition demo_quit : Game.Run :=
  match Game.turn_body (lit "Q") [] (Game.start demo_game) with
  | Ok (st', _) => st'
  | Raise _ => Game.start demo_game
  end.

Definition demo_rematch : Game :=
  match Game.setup (Game.game demo_quit) with
  | Ok g => g
  | Raise _ => demo_game
  end.

Definition demo_rematch_human : Player :=
  {| name := "HUMAN"; hand := [Tau; Tau; Tau; Tau; Sigma; Sigma; Sigma];
     score := 0; class := is_Human |}.

(** The position after the reply of the Computer to that play. *)
Definition demo_after_reply : Game.Run :=
  match Game.turn_body [] [] demo_after_play with
  | Ok (st', _) => st'
  | Raise _ => demo_after_play
  end.

Definition demo_computer : Player :=
  {| name := "COMPUTER"; hand := [Upsilon; Upsilon; Upsilon; Tau; Tau; Tau; Tau];
     score := 0; class := is_Computer TEACH ∅ |}.

(** * Properties *)

(** ** The error monad *)


(** ** The bag: pop, draw, shuffle *)

Section bag.
Context {A : Type}.
Implicit Types (l x : list A) (a b : A).

Lemma pop_snoc l a : pop (l ++ [a]) = Ok (a, l).
Proof.
  induction l as [|c l IH]; [done|].
  change ((c :: l) ++ [a]) with (c :: (l ++ [a])).
  destruct (l ++ [a]) as [|d t] eqn:E.
  - by destruct l.
  - simpl in *. by rewrite IH.
Qed.

Lemma insert_Permutation x j a b :
  x !! j = Some b → a :: x ≡ₚ b :: <[j:=a]> x.
Proof.
  revert j. induction x as [|c x IH]; intros [|j] Hj; simplify_eq/=.
  - apply perm_swap.
  - rewrite (perm_swap c b). rewrite <- (IH j Hj). apply perm_swap.
Qed.

Lemma swap_Permutation i j x : swap i j x ≡ₚ x.
Proof.
  unfold swap.
  destruct (x !! i) as [a|] eqn:Hi; [|done].
  destruct (x !! j) as [b|] eqn:Hj; [|done].
  destruct (decide (i = j)) as [->|Hne].
  - simplify_eq. by rewrite !list_insert_id by (rewrite ?list_insert_id; done).
  - apply (inj (cons b)).
    rewrite <- insert_Permutation
      by (rewrite list_lookup_insert_ne by done; exact Hj).
    symmetry. by apply insert_Permutation.
Qed.

Lemma shuffle_from_Permutation i rnd x : shuffle_from i rnd x ≡ₚ x.
Proof.
  revert rnd x. induction i as [|i IH]; intros rnd x; [done|].
  simpl. destruct (randbelow (S (S i)) rnd) as [j rnd'].
  rewrite IH. apply swap_Permutation.
Qed.

Lemma shuffle_Permutation rnd x : shuffle rnd x ≡ₚ x.
Proof. apply shuffle_from_Permutation. Qed.

Lemma shuffle_length rnd x : length (shuffle rnd x) = length x.
Proof. by rewrite shuffle_Permutation. Qed.
End bag.

Lemma draw_rev (d hand pre : list char) :
  SakClass.draw (length d) hand (pre ++ rev d) = Ok (hand ++ d, pre).
Proof.
  revert hand. induction d as [|x d IH]; intros hand; simpl.
  - by rewrite !app_nil_r.
  - rewrite app_assoc, pop_snoc. simpl.
    rewrite IH. by rewrite <- app_assoc.
Qed.

(** [getletters] never raises: it hands out the last [min(n, len)] letters
    of the bag, last one first. *)
Lemma getletters_Ok (n : Z) (sak : list char) :
  let k := Z.to_nat (Z.min n (Z.of_nat (length sak))) in
  SakClass.getletters n sak
  = Ok (rev (drop (length sak - k) sak), take (length sak - k) sak).
Proof.
  intros k. unfold SakClass.getletters. fold k.
  assert (Hk : k ≤ length sak) by (unfold k; lia).
  set (d := rev (drop (length sak - k) sak)).
  assert (Hd : length d = k) by (unfold d; rewrite length_rev, length_drop; lia).
  rewrite <- (take_drop (length sak - k) sak) at 1.
  rewrite <- (rev_involutive (drop _ sak)). fold d.
  rewrite <- Hd. apply (draw_rev d [] _).
Qed.

(** C8.  For every bag and every requested count [n >= 0], [getletters n]
    returns normally with exactly [min(n, len(sak))] letters, the bag left is
    the old bag without the returned letters (they were its last ones), and
    when no more than [n] letters remain all of them are returned. *)
Theorem getletters_takes_min (n : Z) (sak : list char) :
  (0 ≤ n)%Z →
  ∃ hand sak',
    SakClass.getletters n sak = Ok (hand, sak') ∧
    Z.of_nat (length hand) = Z.min n (Z.of_nat (length sak)) ∧
    sak = sak' ++ rev hand ∧
    length sak' = length sak - length hand ∧
    ((Z.of_nat (length sak) ≤ n)%Z → hand = rev sak ∧ sak' = []).
Proof.
  intros Hn. eexists _, _. split; [apply getletters_Ok|].
  set (k := Z.to_nat (Z.min n (Z.of_nat (length sak)))).
  assert (Hk : k ≤ length sak) by (unfold k; lia).
  rewrite length_rev, length_drop, rev_involutive, take_drop, length_take.
  repeat split; try (unfold k; lia).
  - replace (length sak - k) with 0 by (unfold k; lia).
    by rewrite drop_0.
  - replace (length sak - k) with 0 by (unfold k; lia).
    by rewrite take_0.
Qed.

Lemma getletters_takes_min_witness :
  ∃ hand sak',
    SakClass.getletters 7 [Alpha; Beta; Gamma] = Ok (hand, sak') ∧
    Z.of_nat (length hand) = Z.min 7 (Z.of_nat (length [Alpha; Beta; Gamma])) ∧
    [Alpha; Beta; Gamma] = sak' ++ rev hand ∧
    length sak' = length [Alpha; Beta; Gamma] - length hand ∧
    ((Z.of_nat (length [Alpha; Beta; Gamma]) ≤ 7)%Z →
     hand = rev [Alpha; Beta; Gamma] ∧ sak' = []).
Proof. apply (getletters_takes_min 7 [Alpha; Beta; Gamma]). lia. Defined.

(** C7.  For every bag and every [n], [getletters n] followed by
    [putbackletters] of the letters drawn gives a bag with the same letters,
    each as many times as before the draw, and hence of the same size; only
    their order may differ. *)
Theorem getletters_putbackletters_roundtrip (n : Z) (sak : list char) :
  ∃ hand sak',
    SakClass.getletters n sak = Ok (hand, sak') ∧
    ∀ rnd, SakClass.putbackletters rnd hand sak' ≡ₚ sak ∧
           length (SakClass.putbackletters rnd hand sak') = length sak.
Proof.
  eexists _, _. split; [apply getletters_Ok|].
  intros rnd. unfold SakClass.putbackletters.
  assert (shuffle rnd (take (length sak - Z.to_nat (Z.min n (Z.of_nat (length sak)))) sak
                       ++ rev (drop (length sak - Z.to_nat (Z.min n (Z.of_nat (length sak)))) sak))
          ≡ₚ sak) as HP.
  { rewrite shuffle_Permutation, <- Permutation_rev. by rewrite take_drop. }
  split; [exact HP | by rewrite HP].
Qed.

(** ** The turn loop: exchange *)

Lemma lit_P_not_Q : lit "P" ≠ lit "Q".
Proof. discriminate. Qed.

(** C9.  When the acting player holds 7 letters and submits the exchange
    token "P", the turn ends normally with a hand of exactly 7 letters for
    that player, the same score, a bag as large as before the exchange, and
    every other player as it was.  (The letters of hand and bag together are
    the same as before.) *)
Theorem exchange_frame (typed : str) (rnd : list nat) (st : Game.Run) (player : Player) :
  let i := Game.turn st mod 2 in
  players (Game.game st) !! i = Some player →
  length (hand player) = 7 →
  play player typed (wordset (Game.game st)) = Ok (lit "P") →
  ∃ st' continue h,
    Game.turn_body typed rnd st = Ok (st', continue) ∧
    players (Game.game st') !! i = Some (set_hand player h) ∧
    length (hand (set_hand player h)) = 7 ∧
    score (set_hand player h) = score player ∧
    length (sak (Game.game st')) = length (sak (Game.game st)) ∧
    h ++ sak (Game.game st') ≡ₚ hand player ++ sak (Game.game st) ∧
    ∀ j, j ≠ i → players (Game.game st') !! j = players (Game.game st) !! j.
Proof.
  intros i Hp Hlen Hplay.
  pose proof (getletters_Ok 7
    (SakClass.putbackletters rnd (hand player) (sak (Game.game st)))) as Hget.
  set (bag := SakClass.putbackletters rnd (hand player) (sak (Game.game st))) in *.
  assert (Hbag : bag ≡ₚ sak (Game.game st) ++ hand player)
    by apply shuffle_Permutation.
  assert (Hbl : length bag = length (sak (Game.game st)) + 7)
    by (rewrite Hbag, length_app; lia).
  replace (Z.to_nat (Z.min 7 (Z.of_nat (length bag)))) with 7 in Hget by lia.
  set (h := rev (drop (length bag - 7) bag)) in *.
  set (bag' := take (length bag - 7) bag) in *.
  assert (Hh : length h = 7)
    by (unfold h; rewrite length_rev, length_drop; lia).
  assert (Hb' : length bag' = length (sak (Game.game st)))
    by (unfold bag'; rewrite length_take; lia).
  assert (Hperm : h ++ bag' ≡ₚ hand player ++ sak (Game.game st)).
  { unfold h, bag'. rewrite <- Permutation_rev, (comm app), take_drop, Hbag.
    apply (comm app). }
  assert (Hbody : ∃ st' continue,
    Game.turn_body typed rnd st = Ok (st', continue) ∧
    players (Game.game st') = <[i := set_hand player h]> (players (Game.game st)) ∧
    sak (Game.game st') = bag').
  { unfold Game.turn_body. fold i. rewrite Hp. simpl. rewrite Hplay. simpl.
    destruct (decide (lit "P" = lit "Q")) as [E|_]; [by destruct lit_P_not_Q|].
    destruct (decide (lit "P" = lit "P")) as [_|E]; [|done].
    fold bag. rewrite Hget. simpl. fold bag' h.
    destruct bag' as [|c bag'']; eexists _, _; (split; [reflexivity|done]). }
  destruct Hbody as (st' & continue & Hrun & Hps & Hsak).
  exists st', continue, h. rewrite Hps, Hsak.
  split_and!; try done.
  - apply list_lookup_insert_eq. by eapply lookup_lt_Some.
  - intros j Hj. by apply list_lookup_insert_ne.
Qed.

Lemma exchange_frame_witness :
  ∃ st' continue h,
    Game.turn_body (lit "P") [3; 4] (Game.start demo_game) = Ok (st', continue) ∧
    players (Game.game st') !! 0 = Some (set_hand demo_human h) ∧
    length (hand (set_hand demo_human h)) = 7 ∧
    score (set_hand demo_human h) = score demo_human ∧
    length (sak (Game.game st')) = length (sak (Game.game (Game.start demo_game))) ∧
    h ++ sak (Game.game st') ≡ₚ hand demo_human ++ sak (Game.game (Game.start demo_game)) ∧
    ∀ j, j ≠ 0 → players (Game.game st') !! j
                 = players (Game.game (Game.start demo_game)) !! j.
Proof.
  apply (exchange_frame (lit "P") [3; 4] (Game.start demo_game) demo_human);
    vm_compute; reflexivity.
Defined.

(** ** Loops *)

Section loops.
Context {A S : Type}.
Implicit Types (body : S → A → result S) (xs : list A) (s : S).

Lemma for_each_cons body x xs s :
  for_each body (x :: xs) s = s' ← body s x; for_each body xs s'.
Proof. done. Qed.

Lemma for_each_app body xs ys s :
  for_each body (xs ++ ys) s = s' ← for_each body xs s; for_each body ys s'.
Proof.
  revert s. induction xs as [|x xs IH]; intros s; [done|].
  simpl. destruct (body s x) as [s'|e]; simpl; [apply IH|done].
Qed.

Lemma for_each_ext_in body body' xs s :
  (∀ s x, x ∈ xs → body s x = body' s x) →
  for_each body xs s = for_each body' xs s.
Proof.
  revert s. induction xs as [|x xs IH]; intros s Hb; [done|].
  simpl. rewrite Hb by left.
  destruct (body' s x) as [s'|e]; simpl; [|done].
  apply IH. intros s0 y Hy. apply Hb. by right.
Qed.

Lemma for_each_pure (g : S → A → S) xs s :
  for_each (λ s x, Ok (g s x)) xs s = Ok (foldl g s xs).
Proof. revert s. induction xs as [|x xs IH]; intros s; [done|]. apply IH. Qed.

Lemma for_each_filter (P : A → Prop) `{∀ x, Decision (P x)} body xs s :
  for_each (λ s x, if bool_decide (P x) then body s x else Ok s) xs s
  = for_each body (filter P xs) s.
Proof.
  revert s. induction xs as [|x xs IH]; intros s; [done|].
  simpl. rewrite filter_cons. case_bool_decide; rewrite decide_bool_decide.
  - rewrite bool_decide_eq_true_2 by done. simpl.
    destruct (body s x); simpl; [apply IH|done].
  - rewrite bool_decide_eq_false_2 by done. simpl. apply IH.
Qed.

Lemma for_each_flat_map {B} (f : B → list A) body (ks : list B) s :
  for_each (λ s i, for_each body (f i) s) ks s = for_each body (flat_map f ks) s.
Proof.
  revert s. induction ks as [|i ks IH]; intros s; [done|].
  simpl. rewrite for_each_app.
  destruct (for_each body (f i) s); simpl; [apply IH|done].
Qed.
End loops.

Lemma foldl_filter_snoc {A} (P : A → Prop) `{∀ x, Decision (P x)} (xs acc : list A) :
  foldl (λ acc x, if bool_decide (P x) then acc ++ [x] else acc) acc xs
  = acc ++ filter P xs.
Proof.
  revert acc. induction xs as [|x xs IH]; intros acc; simpl.
  - by rewrite app_nil_r.
  - rewrite IH, filter_cons. case_bool_decide; rewrite decide_bool_decide.
    + rewrite bool_decide_eq_true_2 by done. by rewrite <- app_assoc.
    + by rewrite bool_decide_eq_false_2 by done.
Qed.

Lemma filter_flat_map {A B} (P : A → Prop) `{∀ x, Decision (P x)} (f : B → list A) (l : list B) :
  filter P (flat_map f l) = flat_map (λ i, filter P (f i)) l.
Proof.
  induction l as [|i l IH]; [done|].
  simpl. by rewrite filter_app, IH.
Qed.

(** ** The letter table *)

Lemma in_table_getitem (c : char) :
  in_table c →
  ∃ n, getitem SakClass.letters c = Ok (n, letter_value c) ∧ 1 ≤ letter_value c.
Proof.
  unfold in_table. intros H.
  repeat (apply elem_of_cons in H as [->|H];
          [eexists; split; [vm_compute; reflexivity | vm_compute; lia]|]).
  by apply elem_of_nil in H.
Qed.


Lemma filled_count : length SakClass.filled = 102.
Proof. reflexivity. Qed.

Lemma filled_in_table : Forall in_table SakClass.filled.
Proof.
  apply Forall_forall. intros c Hc. unfold in_table.
  vm_compute in Hc. vm_compute.
  repeat (apply elem_of_cons in Hc as [->|Hc]; [set_solver|]).
  by apply elem_of_nil in Hc.
Qed.

Lemma score_of_cons (c : char) (w : str) :
  score_of (c :: w) = letter_value c + score_of w.
Proof. done. Qed.

Lemma word_score_from (w : str) (t : nat) :
  Forall in_table w →
  for_each (λ total l, '(_, value) ← getitem SakClass.letters l; Ok (total + value)) w t
  = Ok (t + score_of w).
Proof.
  revert t. induction w as [|c w IH]; intros t Hw.
  - unfold score_of. simpl. f_equal. lia.
  - apply Forall_cons in Hw as [Hc Hw]. rewrite for_each_cons.
    destruct (in_table_getitem c Hc) as (n & -> & _).
    cbn [mbind result_bind].
    rewrite IH by done. rewrite score_of_cons. f_equal. lia.
Qed.

Lemma word_score_Ok (w : str) :
  Forall in_table w → Computer.word_score w = Ok (score_of w).
Proof. intros Hw. unfold Computer.word_score. by rewrite word_score_from. Qed.

Lemma score_of_length (w : str) : Forall in_table w → length w ≤ score_of w.
Proof.
  induction 1 as [|c w Hc Hw IH]; [done|].
  rewrite score_of_cons. destruct (in_table_getitem c Hc) as (_ & _ & ?).
  simpl. lia.
Qed.

Lemma in_table_not_PASS (w : str) : Forall in_table w → w ≠ PASS.
Proof.
  intros Hw ->. apply Forall_cons in Hw as [Hc _].
  destruct (in_table_getitem _ Hc) as (n & Hn & _). vm_compute in Hn. discriminate.
Qed.

(** ** itertools.permutations *)

Lemma elem_of_flat_map {A B} (f : B → list A) (ks : list B) (x : A) :
  x ∈ flat_map f ks ↔ ∃ k, k ∈ ks ∧ x ∈ f k.
Proof.
  rewrite list_elem_of_In, in_flat_map.
  by setoid_rewrite list_elem_of_In.
Qed.

Lemma elem_of_map {A B} (f : B → A) (ks : list B) (x : A) :
  x ∈ map f ks ↔ ∃ k, f k = x ∧ k ∈ ks.
Proof.
  rewrite list_elem_of_In, in_map_iff.
  by setoid_rewrite list_elem_of_In.
Qed.

Section permutations.
Context {A : Type}.
Implicit Types (l w rest : list A) (x : A).

Lemma elem_of_picks l x rest :
  (x, rest) ∈ picks l ↔ ∃ l1 l2, l = l1 ++ x :: l2 ∧ rest = l1 ++ l2.
Proof.
  revert rest. induction l as [|a l IH]; intros rest; simpl.
  - split; [by intros ?%elem_of_nil|]. by intros ([|??] & ? & ? & _).
  - rewrite elem_of_cons, elem_of_map. split.
    + intros [[= -> ->]|([y r] & [= -> <-] & Hin)].
      * by exists [], l.
      * apply IH in Hin as (l1 & l2 & -> & ->). by exists (a :: l1), l2.
    + intros ([|b l1] & l2 & [= -> ->] & ->); [by left|].
      right. exists (x, l1 ++ l2). split; [done|]. apply IH. by exists l1, l2.
Qed.

Lemma picks_Permutation l x rest : (x, rest) ∈ picks l → l ≡ₚ x :: rest.
Proof.
  intros (l1 & l2 & -> & ->)%elem_of_picks. symmetry. apply Permutation_middle.
Qed.

(** The arrangements of [r] positions of [l] are the lists of length [r]
    that use no element more often than [l] has it. *)
Lemma elem_of_permutations l r w :
  w ∈ permutations l r ↔ length w = r ∧ w ⊆+ l.
Proof.
  revert l w. induction r as [|r IH]; intros l w; simpl.
  - rewrite list_elem_of_singleton. split.
    + intros ->. split; [done|]. apply submseteq_nil_l.
    + intros [Hw _]. by destruct w.
  - rewrite elem_of_flat_map. split.
    + intros ([x rest] & Hpick & (w' & <- & Hw')%elem_of_map).
      apply IH in Hw' as [<- Hsub]. split; [done|].
      rewrite (picks_Permutation _ _ _ Hpick). by apply submseteq_skip.
    + intros [Hlen Hsub]. destruct w as [|x w']; [done|].
      injection Hlen as Hlen.
      apply submseteq_cons_l in Hsub as (k & Hk & Hsub).
      assert (Hx : x ∈ l) by (rewrite Hk; left).
      apply list_elem_of_split in Hx as (l1 & l2 & ->).
      exists (x, l1 ++ l2). split; [apply elem_of_picks; by exists l1, l2|].
      apply elem_of_map. exists w'. split; [done|].
      apply IH. split; [done|].
      rewrite <- Permutation_middle in Hk. apply (inj (cons x)) in Hk.
      by rewrite Hk.
Qed.

Lemma permutations_length l r w : w ∈ permutations l r → length w = r.
Proof. by intros [? _]%elem_of_permutations. Qed.

Lemma permutations_elem_of l r w x : w ∈ permutations l r → x ∈ w → x ∈ l.
Proof.
  intros [_ Hsub]%elem_of_permutations Hx. by eapply elem_of_submseteq.
Qed.
End permutations.

Lemma elem_of_acceptable hand oracle i (w : str) :
  w ∈ acceptable hand oracle i ↔ w ∈ permutations hand i ∧ w ∈ oracle.
Proof. unfold acceptable. rewrite list_elem_of_filter. tauto. Qed.

Lemma range_up_elem_of (k i : nat) : i ∈ range_up k ↔ 2 ≤ i ≤ k.
Proof. unfold range_up. rewrite elem_of_seq. lia. Qed.

Lemma range_down_elem_of (k i : nat) : i ∈ range_down k ↔ 2 ≤ i ≤ k.
Proof. unfold range_down. rewrite elem_of_reverse, elem_of_seq. lia. Qed.

(** The candidates are the words of the oracle that can be laid out with
    2 to [len(hand)] letters of the hand. *)
Lemma elem_of_candidates hand oracle (w : str) :
  w ∈ candidates hand oracle ↔
  ∃ i, 2 ≤ i ≤ length hand ∧ w ∈ permutations hand i ∧ w ∈ oracle.
Proof.
  unfold candidates. rewrite elem_of_flat_map.
  setoid_rewrite range_up_elem_of. by setoid_rewrite elem_of_acceptable.
Qed.

Lemma candidates_derivable hand oracle (w : str) :
  w ∈ candidates hand oracle ↔ w ∈ oracle ∧ w ⊆+ hand ∧ 2 ≤ length w.
Proof.
  rewrite elem_of_candidates. setoid_rewrite elem_of_permutations. split.
  - intros (i & Hi & [<- Hsub] & Hw). split_and!; [done..|lia].
  - intros (Hw & Hsub & Hlen). exists (length w).
    split_and!; try done. by apply submseteq_length.
Qed.

Lemma candidates_in_table hand oracle (w : str) :
  Forall in_table hand → w ∈ candidates hand oracle → Forall in_table w.
Proof.
  intros Hh (_ & Hsub & _)%candidates_derivable.
  apply Forall_forall. intros c Hc.
  eapply Forall_forall; [exact Hh|]. by eapply elem_of_submseteq.
Qed.

(** ** The order in which arities are scanned *)

Section scan_order.
Context (P : nat → Prop) `{∀ i, Decision (P i)}.

Lemma list_find_range_up (k j i : nat) :
  list_find P (range_up k) = Some (j, i) →
  2 ≤ i ≤ k ∧ P i ∧ ∀ i', 2 ≤ i' < i → ¬ P i'.
Proof.
  intros (Hj & HP & Hmin)%list_find_Some. unfold range_up in *.
  apply lookup_seq in Hj as [-> Hj]. split_and!; [lia..|done|].
  intros i' Hi'. apply (Hmin (i' - 2)); [|lia].
  apply lookup_seq. lia.
Qed.

Lemma list_find_range_down (k j i : nat) :
  list_find P (range_down k) = Some (j, i) →
  2 ≤ i ≤ k ∧ P i ∧ ∀ i', i < i' ≤ k → ¬ P i'.
Proof.
  intros (Hj & HP & Hmax)%list_find_Some. unfold range_down in *.
  apply reverse_lookup_Some in Hj as [Hj Hlen].
  rewrite length_seq in Hj, Hlen.
  apply lookup_seq in Hj as [-> Hj]. split_and!; [lia..|done|].
  intros i' Hi'. apply (Hmax (k - i')); [|lia].
  apply reverse_lookup_Some. rewrite length_seq. split; [|lia].
  apply lookup_seq. lia.
Qed.

Lemma list_find_range_None (k : nat) (ars : list nat) :
  ars = range_up k ∨ ars = range_down k →
  list_find P ars = None → ∀ i, 2 ≤ i ≤ k → ¬ P i.
Proof.
  intros Hars Hnone%list_find_None i Hi.
  rewrite Forall_forall in Hnone. apply Hnone.
  destruct Hars as [-> | ->];
    [by apply range_up_elem_of | by apply range_down_elem_of].
Qed.
End scan_order.

(** ** The first loop of min_max_smart *)

Lemma scan_step s hand ws i ars words :
  Computer.scan s hand ws (i :: ars) words
  = match words ++ acceptable hand ws i with
    | w :: _ =>
        if bool_decide (s = MIN ∨ s = MAX) then inl w
        else Computer.scan s hand ws ars (words ++ acceptable hand ws i)
    | [] => Computer.scan s hand ws ars (words ++ acceptable hand ws i)
    end.
Proof. simpl. unfold acceptable. by rewrite foldl_filter_snoc. Qed.

(** With MIN or MAX the loop returns at the first arity, in scanning order,
    that has an acceptable word, with the first such word. *)
Lemma scan_first s hand ws ars :
  s = MIN ∨ s = MAX →
  Computer.scan s hand ws ars []
  = match list_find (λ i, acceptable hand ws i ≠ []) ars with
    | Some (_, i) => match head (acceptable hand ws i) with
                     | Some w => inl w
                     | None => inr []
                     end
    | None => inr []
    end.
Proof.
  intros Hs. induction ars as [|i ars IH]; [done|].
  rewrite scan_step. cbn [list_find]. simpl app.
  destruct (acceptable hand ws i) as [|w rest] eqn:Hacc.
  - rewrite decide_False by auto. rewrite IH.
    by destruct (list_find _ ars) as [[? ?]|].
  - rewrite decide_True by done. rewrite Hacc. by rewrite bool_decide_eq_true_2.
Qed.

(** With any other strategy the loop never returns early. *)
Lemma scan_no_return s hand ws ars words :
  s ≠ MIN → s ≠ MAX →
  Computer.scan s hand ws ars words
  = inr (words ++ flat_map (acceptable hand ws) ars).
Proof.
  intros Hmin Hmax. revert words.
  induction ars as [|i ars IH]; intros words.
  - simpl. by rewrite app_nil_r.
  - rewrite scan_step, bool_decide_eq_false_2 by (intros [?|?]; done).
    rewrite IH. simpl. rewrite app_assoc.
    by destruct (words ++ acceptable hand ws i).
Qed.

Lemma acceptable_in_table hand oracle i (w : str) :
  Forall in_table hand → w ∈ acceptable hand oracle i → Forall in_table w.
Proof.
  intros Hh [Hw _]%elem_of_acceptable.
  apply Forall_forall. intros c Hc.
  eapply Forall_forall; [exact Hh|]. by eapply permutations_elem_of.
Qed.

Lemma acceptable_length hand oracle i (w : str) :
  w ∈ acceptable hand oracle i → length w = i.
Proof. intros [Hw _]%elem_of_acceptable. by eapply permutations_length. Qed.

(** C4.  With strategy MIN or MAX, [play] returns "PASS" when no arity from
    2 to the hand size has an acceptable word, and only then on a hand of
    letters of the table (off the table a hand could spell the word "PASS"
    itself).  Otherwise the word returned is the first acceptable
    word, in enumeration order, at its own arity, and that arity is the
    smallest one having an acceptable word for MIN (so no acceptable word
    derivable from the hand is shorter) and the largest one for MAX (so none
    is longer). *)
Theorem min_max_first_at_extreme_arity (s : Strategy) (learned : gset str)
    (hand : list char) (ws : gset str) :
  s = MIN ∨ s = MAX →
  ∃ r, Computer.play s learned hand ws = Ok r ∧
    ((∀ i, 2 ≤ i ≤ length hand → acceptable hand (ws ∪ learned) i = []) → r = PASS) ∧
    (Forall in_table hand → r = PASS →
       ∀ i, 2 ≤ i ≤ length hand → acceptable hand (ws ∪ learned) i = []) ∧
    (r ≠ PASS →
       2 ≤ length r ≤ length hand ∧
       head (acceptable hand (ws ∪ learned) (length r)) = Some r ∧
       (∀ i, 2 ≤ i ≤ length hand → acceptable hand (ws ∪ learned) i ≠ [] →
             if decide (s = MIN) then length r ≤ i else i ≤ length r) ∧
       (∀ w, w ∈ ws ∪ learned → w ⊆+ hand → 2 ≤ length w →
             if decide (s = MIN) then length r ≤ length w else length w ≤ length r)).
Proof.
  intros Hs. set (oracle := ws ∪ learned).
  set (ars := if decide (s = MIN) then range_up (length hand)
              else range_down (length hand)).
  assert (Hplay : Computer.play s learned hand ws
                  = match Computer.scan s hand oracle ars [] with
                    | inl w => Ok w
                    | inr _ => Ok PASS
                    end).
  { destruct Hs as [-> | ->]; reflexivity. }
  rewrite Hplay, scan_first by done. clear Hplay.
  destruct (list_find _ ars) as [[j i]|] eqn:Hfind.
  - assert (2 ≤ i ≤ length hand ∧ acceptable hand oracle i ≠ [] ∧
            ∀ i', 2 ≤ i' ≤ length hand → acceptable hand oracle i' ≠ [] →
                  if decide (s = MIN) then i ≤ i' else i' ≤ i)
      as (Hi & Hne & Hext).
    { unfold ars in Hfind. destruct (decide (s = MIN)).
      - apply list_find_range_up in Hfind as (Hi & Hne & Hmin).
        split_and!; [lia..|done|]. intros i' Hi' Hne'.
        destruct (decide (i ≤ i')); [done|]. destruct (Hmin i'); [lia|done].
      - apply list_find_range_down in Hfind as (Hi & Hne & Hmax).
        split_and!; [lia..|done|]. intros i' Hi' Hne'.
        destruct (decide (i' ≤ i)); [done|]. destruct (Hmax i'); [lia|done]. }
    destruct (acceptable hand oracle i) as [|w rest] eqn:Hacc; [done|].
    assert (Hw : w ∈ acceptable hand oracle i) by (rewrite Hacc; left).
    assert (Hlen : length w = i) by by eapply acceptable_length.
    exists w. simpl. split; [done|]. split_and!.
    + intros Hall. destruct Hne. rewrite <- Hacc. by apply Hall.
    + intros Hhand ->.
      destruct (in_table_not_PASS PASS); [|done]. by eapply acceptable_in_table.
    + intros _. rewrite Hlen. split_and!; [lia..| by rewrite Hacc |done|].
      intros w' Hw' Hsub Hlen'. apply Hext.
      * split; [done|]. by apply submseteq_length.
      * intros Hnil. assert (w' ∈ acceptable hand oracle (length w')) as Hin.
        { apply elem_of_acceptable. split; [|done]. by apply elem_of_permutations. }
        rewrite Hnil in Hin. by apply elem_of_nil in Hin.
  - exists PASS. split; [done|]. split_and!; [done| |done].
    intros _ _ i Hi.
    destruct (decide (acceptable hand oracle i = [])) as [|Hne]; [done|].
    destruct (list_find_range_None (λ i, acceptable hand oracle i ≠ [])
                (length hand) ars) with (i := i); try done.
    unfold ars. destruct (decide (s = MIN)); auto.
Qed.

Lemma min_max_first_at_extreme_arity_witness :
  let hand := [Alpha; Lambda; Phi; Alpha] in
  let ws : gset str := {[ [Alpha; Lambda; Phi; Alpha]; [Phi; Alpha] ]} in
  (MAX = MIN ∨ MAX = MAX) ∧
  ∃ r, Computer.play MAX ∅ hand ws = Ok r ∧
    ((∀ i, 2 ≤ i ≤ length hand → acceptable hand (ws ∪ ∅) i = []) → r = PASS) ∧
    (Forall in_table hand → r = PASS →
       ∀ i, 2 ≤ i ≤ length hand → acceptable hand (ws ∪ ∅) i = []) ∧
    (r ≠ PASS →
       2 ≤ length r ≤ length hand ∧
       head (acceptable hand (ws ∪ ∅) (length r)) = Some r ∧
       (∀ i, 2 ≤ i ≤ length hand → acceptable hand (ws ∪ ∅) i ≠ [] →
             if decide (MAX = MIN) then length r ≤ i else i ≤ length r) ∧
       (∀ w, w ∈ ws ∪ ∅ → w ⊆+ hand → 2 ≤ length w →
             if decide (MAX = MIN) then length r ≤ length w else length w ≤ length r)).
Proof.
  intros hand ws.
  assert (Hs : MAX = MIN ∨ MAX = MAX) by (right; reflexivity).
  split; [exact Hs|].
  exact (min_max_first_at_extreme_arity MAX ∅ hand ws Hs).
Defined.

(** ** LEARN *)

(** Whatever the hand and the words, a LEARN computer passes: the first loop
    of [min_max_smart] returns early for MIN and MAX only and the exhaustive
    search is kept for SMART. *)
Lemma learn_always_passes (learned : gset str) (hand : list char) (ws : gset str) :
  Computer.play LEARN learned hand ws = Ok PASS.
Proof.
  unfold Computer.play, Computer.smart_learn, Computer.min_max_smart.
  by rewrite scan_no_return.
Qed.

(** C2.  At the hand Α Λ Φ Α with the words ΑΛΦΑ and ΦΑ, the MIN search
    returns ΦΑ, the first acceptable word of the smallest arity, while a
    LEARN computer answers "PASS". *)
Theorem learn_passes_where_min_plays :
  let hand := [Alpha; Lambda; Phi; Alpha] in
  let ws : gset str := {[ [Alpha; Lambda; Phi; Alpha]; [Phi; Alpha] ]} in
  Computer.play MIN ∅ hand ws = Ok [Phi; Alpha] ∧
  Computer.play LEARN ∅ hand ws = Ok PASS.
Proof. split; vm_compute; reflexivity. Qed.

(** ** SMART and TEACH: the exhaustive best-score search *)

Lemma best_foldl (hand : list char) (oracle : gset str) :
  Forall in_table hand →
  Computer.best hand oracle = Ok (foldl keep_best ([], 0) (candidates hand oracle)).
Proof.
  intros Hh. unfold Computer.best.
  rewrite for_each_flat_map.
  rewrite (for_each_ext_in _
    (λ acc w, if bool_decide (w ∈ oracle)
              then (λ '(best_word, best_score) w,
                      score ← Computer.word_score w;
                      if best_score <? score then Ok (w, score)
                      else Ok (best_word, best_score)) acc w
              else Ok acc)) by (by intros [??] ??).
  rewrite (for_each_filter (λ w, w ∈ oracle)).
  rewrite filter_flat_map. fold (acceptable hand oracle).
  fold (candidates hand oracle).
  rewrite <- for_each_pure. apply for_each_ext_in.
  intros [bw bs] w Hw. rewrite word_score_Ok by by eapply candidates_in_table.
  unfold keep_best. simpl. by destruct (bs <? score_of w).
Qed.

(** The fold keeps the first word of highest score among those that beat
    the initial score. *)
Lemma keep_best_first (ws : list str) (bw : str) (bs : nat) :
  (foldl keep_best (bw, bs) ws = (bw, bs) ∧ Forall (λ w, score_of w ≤ bs) ws) ∨
  (∃ r pre post,
      foldl keep_best (bw, bs) ws = (r, score_of r) ∧
      ws = pre ++ r :: post ∧ bs < score_of r ∧
      Forall (λ w, score_of w < score_of r) pre ∧
      Forall (λ w, score_of w ≤ score_of r) post).
Proof.
  revert bw bs. induction ws as [|w ws IH]; intros bw bs; [left; by split|].
  assert (Hstep : keep_best (bw, bs) w
                  = if bs <? score_of w then (w, score_of w) else (bw, bs)) by done.
  cbn [foldl]. rewrite Hstep. clear Hstep.
  destruct (Nat.ltb_spec bs (score_of w)) as [Hlt|Hge].
  - right.
    destruct (IH w (score_of w))
      as [[Hf Hall]|(r & pre & post & Hf & -> & ? & ? & ?)]; rewrite Hf.
    + exists w, [], ws. by split_and!.
    + exists r, (w :: pre), post. split_and!; try done; [lia|].
      by apply Forall_cons.
  - destruct (IH bw bs)
      as [[Hf Hall]|(r & pre & post & Hf & -> & ? & ? & ?)]; rewrite Hf.
    + left. split; [done|]. by apply Forall_cons.
    + right. exists r, (w :: pre), post. split_and!; try done.
      apply Forall_cons. split; [lia|done].
Qed.

Lemma search_result (hand : list char) (oracle : gset str) :
  Forall in_table hand →
  ∃ r, ('(best_word, _) ← Computer.best hand oracle;
        Ok (match best_word with [] => PASS | _ => best_word end)) = Ok r ∧
    (r = PASS ↔ candidates hand oracle = []) ∧
    (r ≠ PASS →
       ∃ pre post, candidates hand oracle = pre ++ r :: post ∧
         Forall (λ w, score_of w < score_of r) pre ∧
         Forall (λ w, score_of w ≤ score_of r) post).
Proof.
  intros Hh. rewrite best_foldl by done. cbn [mbind result_bind].
  set (res := foldl keep_best _ _).
  pose proof (keep_best_first (candidates hand oracle) [] 0) as Hres.
  change (foldl keep_best _ _) with res in Hres.
  destruct Hres as [[-> Hall]|(r & pre & post & -> & Hc & Hpos & Hpre & Hpost)].
  - assert (Hnil : candidates hand oracle = []).
    { destruct (candidates hand oracle) as [|w c] eqn:Hc; [done|].
      assert (Hw : w ∈ candidates hand oracle) by (rewrite Hc; left).
      pose proof (candidates_in_table _ _ _ Hh Hw) as Ht%score_of_length.
      apply candidates_derivable in Hw as (_ & _ & ?).
      apply Forall_cons in Hall as [? _]. lia. }
    exists PASS. by rewrite Hnil.
  - assert (Hr : r ∈ candidates hand oracle)
      by (rewrite Hc; apply elem_of_app; right; left).
    assert (HrP : r ≠ PASS)
      by by eapply in_table_not_PASS, candidates_in_table.
    exists r. split; [destruct r; [by inversion Hpos|done]|]. split.
    + split; [done|]. intros Hnil. rewrite Hnil in Hr. by apply elem_of_nil in Hr.
    + intros _. by exists pre, post.
Qed.

(** C3.  With strategy SMART and a hand of letters of the table, [play]
    returns "PASS" if and only if no arrangement of 2 to [len(hand)] letters
    of the hand is in the oracle.  Otherwise it returns an acceptable word
    whose score is at least the score of every acceptable word, and among
    the words of that score the first one in enumeration order (arities
    ascending): every candidate before it scores strictly less. *)
Theorem smart_returns_best (learned : gset str) (hand : list char) (ws : gset str) :
  Forall in_table hand →
  ∃ r, Computer.play SMART learned hand ws = Ok r ∧
    (r = PASS ↔
       ∀ i w, 2 ≤ i ≤ length hand → w ∈ permutations hand i → w ∉ ws ∪ learned) ∧
    (r ≠ PASS →
       r ∈ candidates hand (ws ∪ learned) ∧
       Computer.word_score r = Ok (score_of r) ∧
       (∀ w, w ∈ candidates hand (ws ∪ learned) → score_of w ≤ score_of r) ∧
       ∃ pre post, candidates hand (ws ∪ learned) = pre ++ r :: post ∧
         Forall (λ w, score_of w < score_of r) pre).
Proof.
  intros Hh. set (oracle := ws ∪ learned).
  assert (Hplay : Computer.play SMART learned hand ws
                  = '(best_word, _) ← Computer.best hand oracle;
                    Ok (match best_word with [] => PASS | _ => best_word end)).
  { unfold Computer.play, Computer.min_max_smart.
    by rewrite scan_no_return. }
  destruct (search_result hand oracle Hh) as (r & Hr & Hpass & Hbest).
  exists r. split; [by rewrite Hplay|]. split.
  - rewrite Hpass. split.
    + intros Hnil i w Hi Hw Hin.
      assert (w ∈ candidates hand oracle) as Hc
        by (apply elem_of_candidates; eauto).
      rewrite Hnil in Hc. by apply elem_of_nil in Hc.
    + intros Hnone. destruct (candidates hand oracle) as [|w c] eqn:Hc; [done|].
      assert (Hw : w ∈ candidates hand oracle) by (rewrite Hc; left).
      apply elem_of_candidates in Hw as (i & Hi & Hw & Hin).
      by destruct (Hnone i w).
  - intros HrP. destruct (Hbest HrP) as (pre & post & Hc & Hpre & Hpost).
    assert (Hin : r ∈ candidates hand oracle)
      by (rewrite Hc; apply elem_of_app; right; left).
    split_and!; [done| |..].
    + apply word_score_Ok. by eapply candidates_in_table.
    + intros w. rewrite Hc, elem_of_app, elem_of_cons.
      rewrite Forall_forall in Hpre. rewrite Forall_forall in Hpost.
      intros [Hw|[->|Hw]]; [apply Hpre in Hw; lia|done|by apply Hpost].
    + by exists pre, post.
Qed.

Lemma smart_returns_best_witness :
  let hand := [Alpha; Lambda; Phi; Alpha] in
  let ws : gset str := {[ [Alpha; Lambda; Phi; Alpha]; [Phi; Alpha] ]} in
  Forall in_table hand ∧
  ∃ r, Computer.play SMART ∅ hand ws = Ok r ∧
    (r = PASS ↔
       ∀ i w, 2 ≤ i ≤ length hand → w ∈ permutations hand i → w ∉ ws ∪ ∅) ∧
    (r ≠ PASS →
       r ∈ candidates hand (ws ∪ ∅) ∧
       Computer.word_score r = Ok (score_of r) ∧
       (∀ w, w ∈ candidates hand (ws ∪ ∅) → score_of w ≤ score_of r) ∧
       ∃ pre post, candidates hand (ws ∪ ∅) = pre ++ r :: post ∧
         Forall (λ w, score_of w < score_of r) pre).
Proof.
  intros hand ws.
  assert (Hh : Forall in_table hand)
    by (apply (bool_decide_unpack _); vm_compute; exact I).
  split; [exact Hh|].
  exact (smart_returns_best ∅ hand ws Hh).
Defined.

(** ** The order on (score, word) tuples *)

Lemma str_ltb_irrefl (a : str) : str_ltb a a = false.
Proof. induction a as [|x a IH]; [done|]. simpl. by rewrite N.ltb_irrefl. Qed.

Lemma str_ltb_trans (a b c : str) :
  str_ltb a b = true → str_ltb b c = true → str_ltb a c = true.
Proof.
  revert b c. induction a as [|x a IH]; intros [|y b] [|z c]; simpl; try done.
  destruct (N.ltb_spec x y), (N.ltb_spec y x), (N.ltb_spec y z),
    (N.ltb_spec z y), (N.ltb_spec x z), (N.ltb_spec z x);
    try done; try lia.
  apply IH.
Qed.

Lemma str_ltb_total (a b : str) :
  str_ltb a b = false → str_ltb b a = false → a = b.
Proof.
  revert b. induction a as [|x a IH]; intros [|y b]; simpl; try done.
  destruct (N.ltb_spec x y), (N.ltb_spec y x); try done; try lia.
  intros Hab Hba. f_equal; [lia|by apply IH].
Qed.

Lemma tuple_lt_irrefl (p : nat * str) : ¬ tuple_lt p p.
Proof.
  unfold tuple_lt, tuple_ltb. rewrite Nat.ltb_irrefl, str_ltb_irrefl. done.
Qed.

Lemma tuple_lt_trans (p q r : nat * str) :
  tuple_lt p q → tuple_lt q r → tuple_lt p r.
Proof.
  unfold tuple_lt, tuple_ltb. destruct p as [s1 w1], q as [s2 w2], r as [s3 w3]. simpl.
  destruct (Nat.ltb_spec s1 s2), (Nat.ltb_spec s2 s1), (Nat.ltb_spec s2 s3),
    (Nat.ltb_spec s3 s2), (Nat.ltb_spec s1 s3), (Nat.ltb_spec s3 s1);
    try done; try lia.
  apply str_ltb_trans.
Qed.

Lemma tuple_lt_total (p q : nat * str) :
  tuple_ltb p q = false → tuple_le p q ∨ tuple_lt q p.
Proof.
  unfold tuple_le, tuple_lt, tuple_ltb. destruct p as [s1 w1], q as [s2 w2]. simpl.
  destruct (Nat.ltb_spec s1 s2) as [Hlt|Hge], (Nat.ltb_spec s2 s1) as [Hlt'|Hge'];
    try done; try lia; auto.
  assert (s1 = s2) as -> by lia.
  destruct (str_ltb w2 w1) eqn:E; [auto|].
  intros Hw. left. left. f_equal. by apply str_ltb_total.
Qed.


#[global] Instance tuple_le_trans : Transitive tuple_le.
Proof.
  intros p q r [->|Hpq] [->|Hqr]; unfold tuple_le; eauto using tuple_lt_trans.
Qed.

#[global] Instance tuple_le_antisymm : AntiSymm (=) tuple_le.
Proof.
  intros p q [->|Hpq] [Heq|Hqp]; try done.
  destruct (tuple_lt_irrefl p). by eapply tuple_lt_trans.
Qed.

#[global] Instance flip_tuple_le_trans : Transitive (flip tuple_le).
Proof. intros p q r Hpq Hqr. unfold flip in *. by etrans. Qed.

#[global] Instance flip_tuple_le_antisymm : AntiSymm (=) (flip tuple_le).
Proof. intros p q Hpq Hqp. by apply (anti_symm tuple_le). Qed.

(** ** list.sort(reverse=True) *)

Lemma insert_desc_Permutation x l : insert_desc x l ≡ₚ x :: l.
Proof.
  induction l as [|y l IH]; [done|]. simpl.
  destruct (tuple_ltb y x); [done|]. rewrite IH. apply perm_swap.
Qed.

Lemma sort_reverse_from l acc :
  foldl (λ acc x, insert_desc x acc) acc l ≡ₚ l ++ acc.
Proof.
  revert acc. induction l as [|x l IH]; intros acc; [done|].
  simpl. rewrite IH, insert_desc_Permutation. symmetry. apply Permutation_middle.
Qed.

Lemma sort_reverse_Permutation l : sort_reverse l ≡ₚ l.
Proof. unfold sort_reverse. by rewrite sort_reverse_from, app_nil_r. Qed.

Lemma insert_desc_sorted x l :
  StronglySorted (flip tuple_le) l → StronglySorted (flip tuple_le) (insert_desc x l).
Proof.
  induction 1 as [|y l Hl IH Hy]; simpl.
  - repeat constructor.
  - destruct (tuple_ltb y x) eqn:Hyx.
    + apply StronglySorted_cons. split; [|by constructor].
      assert (tuple_le y x) as Hle by by right.
      apply Forall_cons. split; [done|].
      eapply Forall_impl; [exact Hy|]. intros z Hz. unfold flip in *. by etrans.
    + apply StronglySorted_cons. split; [|done].
      rewrite insert_desc_Permutation. apply Forall_cons. split; [|done].
      unfold flip. destruct (tuple_lt_total _ _ Hyx) as [Hle|Hlt].
      * destruct Hle as [->|Hlt]; [by left|]. unfold tuple_lt in Hlt. congruence.
      * by right.
Qed.

Lemma sort_reverse_sorted l : StronglySorted (flip tuple_le) (sort_reverse l).
Proof.
  unfold sort_reverse.
  assert (∀ acc, StronglySorted (flip tuple_le) acc →
                 StronglySorted (flip tuple_le)
                   (foldl (λ acc x, insert_desc x acc) acc l)) as Hgen.
  { induction l as [|x l IH]; intros acc Hacc; [done|].
    simpl. by apply IH, insert_desc_sorted. }
  apply Hgen. constructor.
Qed.

(** Any descending arrangement of the entries is the one [sort_reverse]
    computes: the result of the sort does not depend on the algorithm. *)
Lemma sort_reverse_unique l sorted :
  sorted ≡ₚ l → StronglySorted (flip tuple_le) sorted → sorted = sort_reverse l.
Proof.
  intros Hperm Hsorted.
  apply (StronglySorted_unique (flip tuple_le)); [done|apply sort_reverse_sorted|].
  by rewrite sort_reverse_Permutation.
Qed.

(** ** FAIL *)

Lemma count_cons {A} `{EqDecision A} (x y : A) (l : list A) :
  count x (y :: l) = (if decide (y = x) then 1 else 0) + count x l.
Proof. unfold count. rewrite filter_cons. by destruct (decide (y = x)). Qed.

Lemma count_pos {A} `{EqDecision A} (x : A) (l : list A) : 0 < count x l ↔ x ∈ l.
Proof.
  induction l as [|y l IH]; [unfold count; simpl; split; [lia|by intros ?%elem_of_nil]|].
  rewrite count_cons, elem_of_cons. destruct (decide (y = x)) as [->|Hne].
  - split; [auto|lia].
  - simpl. rewrite IH. split; [auto|]. by intros [?|?].
Qed.

Lemma count_Permutation {A} `{EqDecision A} (x : A) (l k : list A) :
  l ≡ₚ k → count x l = count x k.
Proof. intros Hlk. unfold count. by rewrite Hlk. Qed.

Lemma foldl_snoc_map {A B} (f : A → B) (l : list A) (acc : list B) :
  foldl (λ acc x, acc ++ [f x]) acc l = acc ++ map f l.
Proof.
  revert acc. induction l as [|x l IH]; intros acc; simpl.
  - by rewrite app_nil_r.
  - by rewrite IH, <- app_assoc.
Qed.

Lemma fail_strategy_sorted (hand : list char) (oracle : gset str) :
  Forall in_table hand →
  Computer.fail_strategy hand oracle
  = Ok (second_or_only (sort_reverse (entries hand oracle))).
Proof.
  intros Hh. unfold Computer.fail_strategy.
  lazymatch goal with
  | |- mbind _ ?loop = _ => assert (loop = Ok (entries hand oracle)) as ->
  end.
  { rewrite for_each_flat_map.
    rewrite (for_each_filter (λ w, w ∈ oracle)
               (λ words_scores w, score ← Computer.word_score w;
                                  Ok (words_scores ++ [(score, w)]))).
    rewrite filter_flat_map. fold (acceptable hand oracle).
    fold (candidates hand oracle).
    rewrite (for_each_ext_in _ (λ acc w, Ok (acc ++ [(score_of w, w)]))).
    - rewrite for_each_pure. f_equal.
      apply (foldl_snoc_map (λ w, (score_of w, w)) _ []).
    - intros acc w Hw. by rewrite word_score_Ok by by eapply candidates_in_table. }
  cbn [mbind result_bind]. unfold second_or_only.
  by destruct (sort_reverse (entries hand oracle)) as [|? [|? ?]].
Qed.

Lemma entries_elem_of hand oracle (e : nat * str) :
  e ∈ entries hand oracle ↔ e.2 ∈ candidates hand oracle ∧ e.1 = score_of e.2.
Proof.
  unfold entries. rewrite elem_of_map. split.
  - by intros (w & <- & Hw).
  - intros [Hw Hs]. exists e.2. split; [|done]. destruct e. simpl in *. by subst.
Qed.

(** The sorted entries, read from the top. *)
Lemma second_or_only_top (E sorted : list (nat * str)) (top : nat * str) :
  sorted ≡ₚ E → StronglySorted (flip tuple_le) sorted →
  top ∈ E → (∀ e, e ∈ E → tuple_le e top) →
  (2 ≤ count top E → second_or_only sorted = top.2) ∧
  (count top E = 1 → 2 ≤ length E →
     ∃ second, second_or_only sorted = second.2 ∧ second ∈ E ∧
       tuple_lt second top ∧ ∀ e, e ∈ E → e ≠ top → tuple_le e second).
Proof.
  intros Hperm Hsorted Htop Hmax.
  setoid_rewrite <- Hperm in Hmax. rewrite <- Hperm in Htop.
  rewrite <- (count_Permutation top _ _ Hperm), <- Hperm.
  setoid_rewrite <- Hperm. clear Hperm E.
  destruct sorted as [|e1 [|e2 rest]].
  - by apply elem_of_nil in Htop.
  - apply list_elem_of_singleton in Htop as ->.
    rewrite count_cons, decide_True by done. unfold count. simpl. split; lia.
  - apply StronglySorted_cons in Hsorted as [H1 Hsorted].
    apply StronglySorted_cons in Hsorted as [H2 _].
    assert (top = e1) as ->.
    { apply (anti_symm tuple_le); [|apply Hmax; left].
      apply elem_of_cons in Htop as [->|Htop]; [by left|].
      rewrite Forall_forall in H1. by apply H1. }
    rewrite count_cons, decide_True by done. simpl. split.
    + intros Hc. assert (e1 ∈ e2 :: rest) as Hin by (apply count_pos; lia).
      assert (e1 = e2) as -> ; [|done].
      apply (anti_symm tuple_le).
      * apply elem_of_cons in Hin as [->|Hin]; [by left|].
        rewrite Forall_forall in H2. by apply H2.
      * apply Forall_cons in H1 as [H1 _]. exact H1.
    + intros Hc _. assert (e1 ∉ e2 :: rest) as Hnin
        by (rewrite <- count_pos; lia).
      exists e2. split_and!; [done|right; left| |].
      * apply Forall_cons in H1 as [[->|H1] _]; [|done].
        destruct Hnin. left.
      * intros e He Hne. apply elem_of_cons in He as [->|He]; [done|].
        apply elem_of_cons in He as [->|He]; [by left|].
        rewrite Forall_forall in H2. by apply H2.
Qed.

Lemma second_or_only_elem_of (sorted : list (nat * str)) :
  sorted ≠ [] → ∃ e, e ∈ sorted ∧ second_or_only sorted = e.2.
Proof.
  destruct sorted as [|e1 [|e2 rest]]; [done|..]; intros _.
  - exists e1. split; [left|done].
  - exists e2. split; [right; left|done].
Qed.

Lemma NoDup_flat_map {A B} (f : B → list A) (ks : list B) :
  NoDup ks →
  (∀ k, k ∈ ks → NoDup (f k)) →
  (∀ k1 k2 x, k1 ∈ ks → k2 ∈ ks → x ∈ f k1 → x ∈ f k2 → k1 = k2) →
  NoDup (flat_map f ks).
Proof.
  induction 1 as [|k ks Hk Hks IH]; intros Hf Hdisj; simpl; [constructor|].
  apply NoDup_app. split_and!.
  - apply Hf. left.
  - intros x Hx (k' & Hk' & Hx')%elem_of_flat_map.
    assert (k = k') as <-; [|done].
    apply (Hdisj k k' x); [left|by right|done..].
  - apply IH.
    + intros k' Hk'. apply Hf. by right.
    + intros k1 k2 x H1 H2. apply Hdisj; by right.
Qed.

(** Without repeated letters in the hand no arrangement is listed twice. *)
Section no_repeats.
Context {A : Type}.
Implicit Types (l w rest : list A) (x : A).

Lemma NoDup_split_unique l1 l2 l1' l2' x :
  NoDup (l1 ++ x :: l2) → l1 ++ x :: l2 = l1' ++ x :: l2' → l1 = l1' ∧ l2 = l2'.
Proof.
  revert l1'. induction l1 as [|a l1 IH]; intros [|a' l1']; simpl.
  - by intros _ [= ->].
  - intros Hnd [= <- ->]. apply NoDup_cons in Hnd as [Hx _].
    destruct Hx. apply elem_of_app. right. left.
  - intros Hnd [= -> <-]. apply NoDup_cons in Hnd as [Hx _].
    destruct Hx. apply elem_of_app. right. left.
  - intros Hnd [= <- Heq]. apply NoDup_cons in Hnd as [_ Hnd].
    destruct (IH l1' Hnd Heq) as [-> ->]. done.
Qed.

Lemma picks_NoDup l : NoDup l → NoDup (picks l).
Proof.
  intros Hl. apply (NoDup_fmap_1 fst).
  assert (fst <$> picks l = l) as ->; [|done].
  clear Hl. induction l as [|a l IH]; [done|].
  simpl. f_equal. rewrite <- IH at 2.
  change (map ?f ?k) with (f <$> k). rewrite <- list_fmap_compose.
  apply list_fmap_ext. by intros ? [??].
Qed.

Lemma permutations_NoDup l r : NoDup l → NoDup (permutations l r).
Proof.
  revert l. induction r as [|r IH]; intros l Hl; simpl.
  - apply NoDup_singleton.
  - apply NoDup_flat_map.
    + by apply picks_NoDup.
    + intros [x rest] Hpick. change (map ?f ?k) with (f <$> k).
      apply (NoDup_fmap_2 (cons x)). apply IH.
      rewrite (picks_Permutation _ _ _ Hpick) in Hl.
      by apply NoDup_cons in Hl as [_ ?].
    + intros [x1 r1] [x2 r2] w H1 H2
        (w1 & <- & _)%elem_of_map (w2 & [= -> _] & _)%elem_of_map.
      apply elem_of_picks in H1 as (a1 & b1 & -> & ->).
      apply elem_of_picks in H2 as (a2 & b2 & Heq & ->).
      by destruct (NoDup_split_unique _ _ _ _ _ Hl Heq) as [-> ->].
Qed.
End no_repeats.

Lemma candidates_NoDup hand oracle : NoDup hand → NoDup (candidates hand oracle).
Proof.
  intros Hh. unfold candidates. apply NoDup_flat_map.
  - apply NoDup_seq.
  - intros i _. unfold acceptable. by apply NoDup_filter, permutations_NoDup.
  - intros i1 i2 w _ _ H1%acceptable_length H2%acceptable_length. congruence.
Qed.

Lemma entries_NoDup hand oracle : NoDup hand → NoDup (entries hand oracle).
Proof.
  intros Hh. unfold entries. change (map ?f ?k) with (f <$> k).
  apply NoDup_fmap_2; [by intros ?? [= ?]|]. by apply candidates_NoDup.
Qed.

(** C1 (as amended).  With strategy FAIL and a hand of letters of the table,
    [play] makes one (score, word) entry per candidate, that is per
    acceptable arrangement of positions of the hand, arities 2 to
    [len(hand)]; a word reached from several choices of positions is entered
    once per choice.  It returns "PASS" exactly when there is no entry, the
    only word when all entries carry the same word, and otherwise the word
    of the second entry of the entries sorted descending by score, then by
    word.  When the highest entry occurs once among the entries this is the
    second-highest entry, strictly below the highest; when the highest
    entry occurs twice or more it is the word of the highest entry itself.
    A hand without repeated letters has no repeated entry.  With exactly two
    entries, scoring 13 and 9, the word scoring 9 is returned. *)
Theorem fail_returns_second_entry (learned : gset str) (hand : list char) (ws : gset str) :
  Forall in_table hand →
  ∃ r, Computer.play FAIL learned hand ws = Ok r ∧
    (∀ sorted, sorted ≡ₚ entries hand (ws ∪ learned) →
               StronglySorted (flip tuple_le) sorted →
               r = second_or_only sorted) ∧
    (r = PASS ↔ entries hand (ws ∪ learned) = []) ∧
    (∀ w, entries hand (ws ∪ learned) ≠ [] →
          (∀ e, e ∈ entries hand (ws ∪ learned) → e.2 = w) → r = w) ∧
    (∀ top, top ∈ entries hand (ws ∪ learned) →
            (∀ e, e ∈ entries hand (ws ∪ learned) → tuple_le e top) →
       (2 ≤ count top (entries hand (ws ∪ learned)) → r = top.2) ∧
       (count top (entries hand (ws ∪ learned)) = 1 →
        2 ≤ length (entries hand (ws ∪ learned)) →
        ∃ second, r = second.2 ∧ second ∈ entries hand (ws ∪ learned) ∧
          tuple_lt second top ∧
          ∀ e, e ∈ entries hand (ws ∪ learned) → e ≠ top → tuple_le e second)) ∧
    (NoDup hand → NoDup (entries hand (ws ∪ learned))) ∧
    (∀ w13 w9, entries hand (ws ∪ learned) ≡ₚ [(13, w13); (9, w9)] → r = w9).
Proof.
  intros Hh. set (E := entries hand (ws ∪ learned)).
  exists (second_or_only (sort_reverse E)).
  split; [by apply fail_strategy_sorted|].
  assert (Huniq : ∀ sorted, sorted ≡ₚ E → StronglySorted (flip tuple_le) sorted →
                            second_or_only (sort_reverse E) = second_or_only sorted).
  { intros sorted Hp Hs. by rewrite (sort_reverse_unique E sorted). }
  assert (Hin : E ≠ [] → ∃ e, e ∈ E ∧ second_or_only (sort_reverse E) = e.2).
  { intros HE. destruct (second_or_only_elem_of (sort_reverse E)) as (e & He & Hr).
    - intros Hnil. apply HE, Permutation_nil_r.
      by rewrite <- Hnil, sort_reverse_Permutation.
    - exists e. split; [|done]. by rewrite <- (sort_reverse_Permutation E). }
  split_and!.
  - exact Huniq.
  - split.
    + intros Hr. destruct (decide (E = [])) as [|HE]; [done|].
      destruct (Hin HE) as (e & [He _]%entries_elem_of & Hre).
      destruct (in_table_not_PASS e.2); [by eapply candidates_in_table|congruence].
    + intros ->. done.
  - intros w HE Hall. destruct (Hin HE) as (e & He & ->). by apply Hall.
  - intros top Htop Hmax.
    apply (second_or_only_top E (sort_reverse E) top);
      [apply sort_reverse_Permutation|apply sort_reverse_sorted|done..].
  - apply entries_NoDup.
  - intros w13 w9 HE. rewrite (Huniq [(13, w13); (9, w9)]); [done|done|].
    apply StronglySorted_cons. split; [|apply StronglySorted_cons; by split; constructor].
    apply Forall_cons. split; [|constructor]. right. reflexivity.
Qed.

Lemma fail_returns_second_entry_witness :
  let hand := [Alpha; Lambda; Phi; Beta] in
  let ws : gset str := {[ [Alpha; Lambda; Phi; Alpha]; [Phi; Alpha]; [Beta; Alpha] ]} in
  Forall in_table hand ∧
  ∃ r, Computer.play FAIL ∅ hand ws = Ok r ∧
    (∀ sorted, sorted ≡ₚ entries hand (ws ∪ ∅) →
               StronglySorted (flip tuple_le) sorted →
               r = second_or_only sorted) ∧
    (r = PASS ↔ entries hand (ws ∪ ∅) = []) ∧
    (∀ w, entries hand (ws ∪ ∅) ≠ [] →
          (∀ e, e ∈ entries hand (ws ∪ ∅) → e.2 = w) → r = w) ∧
    (∀ top, top ∈ entries hand (ws ∪ ∅) →
            (∀ e, e ∈ entries hand (ws ∪ ∅) → tuple_le e top) →
       (2 ≤ count top (entries hand (ws ∪ ∅)) → r = top.2) ∧
       (count top (entries hand (ws ∪ ∅)) = 1 →
        2 ≤ length (entries hand (ws ∪ ∅)) →
        ∃ second, r = second.2 ∧ second ∈ entries hand (ws ∪ ∅) ∧
          tuple_lt second top ∧
          ∀ e, e ∈ entries hand (ws ∪ ∅) → e ≠ top → tuple_le e second)) ∧
    (NoDup hand → NoDup (entries hand (ws ∪ ∅))) ∧
    (∀ w13 w9, entries hand (ws ∪ ∅) ≡ₚ [(13, w13); (9, w9)] → r = w9).
Proof.
  intros hand ws.
  assert (Hh : Forall in_table hand)
    by (apply (bool_decide_unpack _); vm_compute; exact I).
  split; [exact Hh|].
  exact (fail_returns_second_entry ∅ hand ws Hh).
Defined.

(** C1, the claim as written fails: the hand Α Λ Φ Α can lay out ΑΛΦΑ
    (13 points) and ΦΑ (9 points), each from two choices of positions; these
    are the only acceptable words, and FAIL returns ΑΛΦΑ, the highest-scoring
    one, instead of the word scoring 9. *)
Lemma fail_returns_highest_with_repeated_letter :
  let hand := [Alpha; Lambda; Phi; Alpha] in
  let ws : gset str := {[ [Alpha; Lambda; Phi; Alpha]; [Phi; Alpha] ]} in
  Forall in_table hand ∧
  (∀ w, w ∈ candidates hand (ws ∪ ∅) ↔ w = [Alpha; Lambda; Phi; Alpha] ∨ w = [Phi; Alpha]) ∧
  Computer.word_score [Alpha; Lambda; Phi; Alpha] = Ok 13 ∧
  Computer.word_score [Phi; Alpha] = Ok 9 ∧
  Computer.play FAIL ∅ hand ws = Ok [Alpha; Lambda; Phi; Alpha] ∧
  Computer.play FAIL ∅ hand ws ≠ Ok [Phi; Alpha].
Proof.
  intros hand ws. split_and!.
  - apply (bool_decide_unpack _). vm_compute. exact I.
  - intros w.
    assert (candidates hand (ws ∪ ∅)
            = [[Phi; Alpha]; [Phi; Alpha];
               [Alpha; Lambda; Phi; Alpha]; [Alpha; Lambda; Phi; Alpha]]) as ->
      by (vm_compute; reflexivity).
    rewrite !elem_of_cons, elem_of_nil. tauto.
  - vm_compute. reflexivity.
  - vm_compute. reflexivity.
  - vm_compute. reflexivity.
  - vm_compute. discriminate.
Qed.

(** ** The turn loop *)

Lemma remove_Ok {A} `{EqDecision A} (x : A) (l : list A) :
  x ∈ l → ∃ l', remove x l = Ok l' ∧ l ≡ₚ x :: l'.
Proof.
  induction l as [|y l IH]; [by intros ?%elem_of_nil|].
  intros Hx. simpl. destruct (decide (y = x)) as [->|Hne]; [by exists l|].
  apply elem_of_cons in Hx as [->|Hx]; [done|].
  destruct (IH Hx) as (l' & -> & Hl). exists (y :: l'). split; [done|].
  rewrite Hl. apply perm_swap.
Qed.

(** [for l in word: player.hand.remove(l)] succeeds when the hand has every
    letter as often as the word, and leaves the hand without the word. *)
Lemma remove_word (word h : list char) :
  (∀ c, count c word ≤ count c h) →
  ∃ h', for_each (λ h l, remove l h) word h = Ok h' ∧ h ≡ₚ word ++ h'.
Proof.
  revert h. induction word as [|l word IH]; intros h Hc; [by exists h|].
  assert (Hl : l ∈ h).
  { apply count_pos. specialize (Hc l). rewrite count_cons, decide_True in Hc by done. lia. }
  destruct (remove_Ok l h Hl) as (h1 & Hrem & Hperm).
  destruct (IH h1) as (h' & Hrest & Hperm').
  { intros c. specialize (Hc c).
    rewrite (count_Permutation c _ _ Hperm), !count_cons in Hc. lia. }
  exists h'. rewrite for_each_cons, Hrem. split; [done|].
  rewrite Hperm, Hperm'. done.
Qed.

Lemma playable_count (word h : list char) :
  Game.playable word h = true → ∀ c, count c word ≤ count c h.
Proof.
  unfold Game.playable. rewrite forallb_forall. intros Hall c.
  destruct (decide (c ∈ word)) as [Hc|Hc].
  - apply Nat.leb_le, Hall. by apply list_elem_of_In.
  - rewrite <- count_pos in Hc. lia.
Qed.

Lemma playable_in_table (word h : list char) :
  Game.playable word h = true → Forall in_table h → Forall in_table word.
Proof.
  intros Hp Hh. apply Forall_forall. intros c Hc.
  rewrite Forall_forall in Hh. apply Hh, count_pos.
  pose proof (playable_count _ _ Hp c). apply count_pos in Hc. lia.
Qed.

(** On a hand of letters of the table no strategy raises, and what a
    Computer proposes is "PASS" or an acceptable word laid out from its
    hand. *)
Lemma play_Ok (s : Strategy) (learned : gset str) (hand : list char) (ws : gset str) :
  Forall in_table hand →
  ∃ r, Computer.play s learned hand ws = Ok r ∧
       (r = PASS ∨ r ∈ candidates hand (ws ∪ learned)).
Proof.
  intros Hh. set (oracle := ws ∪ learned).
  assert (Hsearch : ∃ r,
    ('(best_word, _) ← Computer.best hand oracle;
     Ok (match best_word with [] => PASS | _ => best_word end)) = Ok r ∧
    (r = PASS ∨ r ∈ candidates hand oracle)).
  { destruct (search_result hand oracle Hh) as (r & Hr & _ & Hbest).
    exists r. split; [done|]. destruct (decide (r = PASS)) as [|HrP]; [by left|].
    destruct (Hbest HrP) as (pre & post & -> & _). right.
    apply elem_of_app. right. left. }
  assert (Hscan : ∀ ars, (∀ i, i ∈ ars → 2 ≤ i ≤ length hand) → s = MIN ∨ s = MAX →
    ∃ r, match Computer.scan s hand oracle ars [] with
         | inl w => Ok w
         | inr _ => Ok PASS
         end = Ok r ∧ (r = PASS ∨ r ∈ candidates hand oracle)).
  { intros ars Hars Hs. rewrite scan_first by done.
    destruct (list_find _ ars) as [[j i]|] eqn:Hfind; [|by exists PASS; auto].
    apply list_find_Some in Hfind as (Hi%list_elem_of_lookup_2 & _ & _).
    destruct (acceptable hand oracle i) as [|w rest] eqn:Hacc;
      simpl; [by exists PASS; auto|].
    exists w. split; [done|]. right. apply elem_of_candidates. exists i.
    split; [by apply Hars|]. apply elem_of_acceptable. rewrite Hacc. left. }
  destruct s.
  - apply (Hscan (range_up (length hand))); [|by left].
    intros i. apply range_up_elem_of.
  - apply (Hscan (range_down (length hand))); [|by right].
    intros i. apply range_down_elem_of.
  - unfold Computer.play, Computer.min_max_smart.
    rewrite scan_no_return by done. exact Hsearch.
  - exists (second_or_only (sort_reverse (entries hand oracle))).
    split; [by apply fail_strategy_sorted|].
    destruct (decide (entries hand oracle = [])) as [->|HE]; [by left|].
    destruct (second_or_only_elem_of (sort_reverse (entries hand oracle)))
      as (e & He & ->).
    + intros Hnil. apply HE, Permutation_nil_r.
      by rewrite <- Hnil, sort_reverse_Permutation.
    + right. rewrite sort_reverse_Permutation in He.
      by apply entries_elem_of in He as [? _].
  - exists PASS. split; [apply learn_always_passes|by left].
  - exact Hsearch.
Qed.

Lemma played_letters_app (o1 o2 : list Output) :
  played_letters (o1 ++ o2) = played_letters o1 + played_letters o2.
Proof. apply sum_list_with_app. Qed.

(** The end of an iteration: the test of the empty bag. *)
Lemma turn_end (self' : Game) (t : nat) (out2 : list Output) :
  ∃ st' continue,
    match sak self' with
    | [] => Ok ({| Game.game := self'; Game.turn := t;
                   Game.out := out2 ++ [NoMoreLetters] |}, false)
    | _ :: _ => Ok ({| Game.game := self'; Game.turn := S t; Game.out := out2 |}, true)
    end = Ok (st', continue) ∧
    Game.game st' = self' ∧
    played_letters (Game.out st') = played_letters out2 ∧
    (∀ o, o ∈ Game.out st' ↔ o ∈ out2 ∨ (o = NoMoreLetters ∧ sak self' = [])).
Proof.
  destruct (sak self') as [|x bag]; eexists _, _; (split; [reflexivity|]); simpl.
  - rewrite played_letters_app. split_and!; [done|unfold played_letters; simpl; lia|].
    intros o. rewrite elem_of_app, list_elem_of_singleton. intuition congruence.
  - split_and!; [done..|]. intros o. intuition congruence.
Qed.

Lemma next_computer_second (h c : Player) :
  class h = is_Human → isinstance_Computer c = true →
  Game.next_computer [h; c] = Ok c.
Proof.
  intros Hh Hc. simpl. unfold isinstance_Computer at 1. by rewrite Hh, Hc.
Qed.

(** The letters of the hands of a two-player game after an update of the
    acting player. *)
Lemma letters_in_play_update (g : Game) (h c p' : Player) (i : nat) (bag : list char) :
  players g = [h; c] →
  (i = 0 ∨ i = 1) →
  letters_in_play {| sak := bag; wordset := wordset g;
                     players := <[i := p']> (players g); strategy := strategy g |}
  + length (hand (if decide (i = 0) then h else c)) + length (sak g)
  = letters_in_play g + length (hand p') + length bag.
Proof.
  intros Hps [-> | ->]; unfold letters_in_play; rewrite Hps; simpl; lia.
Qed.

(** One iteration on a well-formed game: it never raises, the game stays
    well formed, and the letters in play go down by exactly the letters of
    the word played, if one was. *)
Lemma turn_body_step (ws : gset str) (st : Game.Run) (typed : str) (rnd : list nat) :
  well_formed ws (Game.game st) →
  ∃ st' continue,
    Game.turn_body typed rnd st = Ok (st', continue) ∧
    well_formed ws (Game.game st') ∧
    letters_in_play (Game.game st') + played_letters (Game.out st')
    = letters_in_play (Game.game st) + played_letters (Game.out st).
Proof.
  intros (Hws & Hbag & h & c & Hps & Hh & Hc & Hhh & Hhc).
  set (i := Game.turn st mod 2).
  assert (Hi : i = 0 ∨ i = 1)
    by (pose proof (Nat.mod_upper_bound (Game.turn st) 2); unfold i; lia).
  set (player := if decide (i = 0) then h else c).
  assert (Hlook : players (Game.game st) !! i = Some player).
  { rewrite Hps. unfold player. by destruct Hi as [-> | ->]. }
  assert (Hhp : Forall in_table (hand player)).
  { unfold player. by destruct (decide (i = 0)). }
  assert (∃ word, play player typed (wordset (Game.game st)) = Ok word)
    as [word Hplay].
  { unfold play, player. destruct (decide (i = 0)).
    - rewrite Hh. by exists typed.
    - rewrite Hc. destruct (play_Ok (strategy (Game.game st)) ∅ (hand c)
                              (wordset (Game.game st)) Hhc) as (r & Hr & _).
      by exists r. }
  assert (Hwf_upd : ∀ p' bag, class p' = class player →
            Forall in_table (hand p') → Forall in_table bag →
            well_formed ws {| sak := bag; wordset := wordset (Game.game st);
                              players := <[i := p']> (players (Game.game st));
                              strategy := strategy (Game.game st) |}).
  { intros p' bag Hcl Hp' Hb. split_and!; [done..|]. rewrite Hps. simpl.
    unfold player in Hcl. destruct Hi as [Hi | Hi]; rewrite Hi in *; simpl in *.
    - exists p', c. split_and!; try done. congruence.
    - exists h, p'. split_and!; try done. congruence. }
  assert (Hwf : well_formed ws (Game.game st)) by (split_and!; [done..|]; eauto 10).
  unfold Game.turn_body. fold i. rewrite Hlook. cbn [mbind result_bind].
  rewrite Hplay. cbn [mbind result_bind].
  set (out1 := Game.out st ++ [ShowPlayer player]).
  assert (Hout1 : played_letters out1 = played_letters (Game.out st))
    by (unfold out1; rewrite played_letters_app; unfold played_letters; simpl; lia).
  destruct (decide (word = lit "Q")) as [HQ|HQ].
  { eexists _, _. split; [reflexivity|]. simpl. split; [done|].
    rewrite played_letters_app, Hout1. unfold played_letters. simpl. lia. }
  destruct (decide (word = lit "P")) as [HP|HP].
  { set (bag := SakClass.putbackletters rnd (hand player) (sak (Game.game st))).
    assert (Hperm : bag ≡ₚ sak (Game.game st) ++ hand player)
      by apply shuffle_Permutation.
    rewrite (getletters_Ok 7 bag). cbn [mbind result_bind].
    set (k := Z.to_nat (Z.min 7 (Z.of_nat (length bag)))).
    set (hd := rev (drop (length bag - k) bag)).
    set (bag' := take (length bag - k) bag).
    assert (Hsplit : bag' ++ rev hd = bag)
      by (unfold bag', hd; rewrite rev_involutive; apply take_drop).
    assert (Hall : Forall in_table bag)
      by (rewrite Hperm; by apply Forall_app).
    rewrite <- Hsplit in Hall. apply Forall_app in Hall as [Hb' Hhd].
    rewrite <- Permutation_rev in Hhd.
    destruct (turn_end {| sak := bag'; wordset := wordset (Game.game st);
                          players := <[i := set_hand player hd]> (players (Game.game st));
                          strategy := strategy (Game.game st) |}
                       (Game.turn st) (out1 ++ [LettersChanged]))
      as (st' & continue & -> & Hg & Hpl & _).
    exists st', continue. split; [done|]. rewrite Hg, Hpl. split; [by apply Hwf_upd|].
    pose proof (letters_in_play_update (Game.game st) h c (set_hand player hd) i bag'
                  Hps Hi) as Hacc. fold player in Hacc. simpl in Hacc.
    assert (length bag = length (sak (Game.game st)) + length (hand player))
      by (rewrite Hperm; apply length_app).
    assert (length bag = length bag' + length hd)
      by (rewrite <- Hsplit, length_app, length_rev; done).
    rewrite played_letters_app, Hout1. unfold played_letters at 2. simpl. lia. }
  destruct (bool_decide (word ∈ wordset (Game.game st)) && Game.playable word (hand player))
    eqn:Hvalid.
  { apply andb_true_iff in Hvalid as [_ Hpl].
    rewrite word_score_from by by eapply playable_in_table.
    cbn [mbind result_bind].
    destruct (remove_word word (hand player) (playable_count _ _ Hpl))
      as (h' & Hrem & Hperm).
    change (hand (add_score player (0 + score_of word))) with (hand player).
    rewrite Hrem. cbn [mbind result_bind].
    rewrite getletters_Ok. cbn [mbind result_bind].
    set (bag := sak (Game.game st)).
    set (k := Z.to_nat (Z.min (7 - Z.of_nat (length h')) (Z.of_nat (length bag)))).
    set (hd := rev (drop (length bag - k) bag)).
    set (bag' := take (length bag - k) bag).
    assert (Hsplit : bag' ++ rev hd = bag)
      by (unfold bag', hd; rewrite rev_involutive; apply take_drop).
    assert (Hall : Forall in_table bag) by done.
    rewrite <- Hsplit in Hall. apply Forall_app in Hall as [Hb' Hhd].
    rewrite <- Permutation_rev in Hhd.
    assert (Hh' : Forall in_table h').
    { rewrite Hperm in Hhp. by apply Forall_app in Hhp as [_ ?]. }
    destruct (turn_end {| sak := bag'; wordset := wordset (Game.game st);
                          players := <[i := set_hand (add_score player (0 + score_of word))
                                                     (h' ++ hd)]> (players (Game.game st));
                          strategy := strategy (Game.game st) |}
                       (Game.turn st)
                       (out1 ++ [Played (name player) word (0 + score_of word)]))
      as (st' & continue & -> & Hg & Hplayed & _).
    exists st', continue. split; [done|]. rewrite Hg, Hplayed. split.
    - apply Hwf_upd; [done| |done]. simpl. by apply Forall_app.
    - pose proof (letters_in_play_update (Game.game st) h c
                    (set_hand (add_score player (0 + score_of word)) (h' ++ hd)) i bag'
                    Hps Hi) as Hacc. fold player in Hacc. simpl in Hacc.
      rewrite length_app in Hacc.
      assert (length (hand player) = length word + length h')
        by (rewrite Hperm; apply length_app).
      assert (length bag = length bag' + length hd)
        by (rewrite <- Hsplit, length_app, length_rev; done).
      fold bag in Hacc.
      rewrite played_letters_app, Hout1. unfold played_letters at 2. simpl. lia. }
  destruct (decide (word = PASS)) as [Hpass|Hpass].
  { cbn [mbind result_bind].
    destruct (turn_end (Game.game st) (Game.turn st) (out1 ++ [Passed (name player)]))
      as (st' & continue & -> & Hg & Hplayed & _).
    exists st', continue. split; [done|]. rewrite Hg, Hplayed. split; [done|].
    rewrite played_letters_app, Hout1. unfold played_letters at 2. simpl. lia. }
  destruct (isinstance_Human player && bool_decide (strategy (Game.game st) = TEACH))
    eqn:Hteach.
  { rewrite Hps, (next_computer_second h c Hh)
      by (unfold isinstance_Computer; by rewrite Hc).
    cbn [mbind result_bind].
    destruct (search_result (hand c) (wordset (Game.game st)) Hhc) as (best & Hbest & _).
    unfold Computer.smart_teach. rewrite Hbest. cbn [mbind result_bind].
    destruct (turn_end (Game.game st) (Game.turn st)
                (if bool_decide (word ∈ wordset (Game.game st))
                 then out1 ++ [BestWord best] else out1))
      as (st' & continue & -> & Hg & Hplayed & _).
    exists st', continue. split; [done|]. rewrite Hg, Hplayed. split; [done|].
    destruct (bool_decide (word ∈ wordset (Game.game st))); [|lia].
    rewrite played_letters_app, Hout1. unfold played_letters at 2. simpl. lia. }
  cbn [mbind result_bind].
  destruct (turn_end (Game.game st) (Game.turn st) (out1 ++ [InvalidWord]))
    as (st' & continue & -> & Hg & Hplayed & _).
  exists st', continue. split; [done|]. rewrite Hg, Hplayed. split; [done|].
  rewrite played_letters_app, Hout1. unfold played_letters at 2. simpl. lia.
Qed.

(** [setup] never raises: it deals the Human from the end of the bag, then
    the Computer. *)
Lemma setup_Ok (g : Game) :
  ∃ g' h c,
    Game.setup g = Ok g' ∧
    wordset g' = wordset g ∧ strategy g' = strategy g ∧
    players g' = [h; c] ∧
    class h = is_Human ∧ class c = is_Computer (strategy g) ∅ ∧
    score h = 0 ∧ score c = 0 ∧
    sak g = sak g' ++ rev (hand c) ++ rev (hand h).
Proof.
  unfold Game.setup. cbn [for_each mbind result_bind].
  rewrite getletters_Ok. cbn [mbind result_bind].
  rewrite getletters_Ok. cbn [mbind result_bind].
  eexists _, _, _. split; [reflexivity|]. simpl.
  split_and!; try done.
  unfold set_hand. cbn [hand].
  by rewrite !rev_involutive, app_assoc, !take_drop.
Qed.

Lemma init_sak (rnd : list nat) (ws : gset str) :
  sak (Game.init rnd ws) ≡ₚ SakClass.filled.
Proof. apply shuffle_Permutation. Qed.

Lemma setup_well_formed (rnd : list nat) (choice : str) (ws : gset str) (g : Game) :
  Game.setup (Game.settings choice (Game.init rnd ws)) = Ok g →
  well_formed ws g ∧ letters_in_play g = 102 ∧
  strategy g = strategy (Game.settings choice (Game.init rnd ws)).
Proof.
  destruct (setup_Ok (Game.settings choice (Game.init rnd ws)))
    as (g' & h & c & -> & Hws & Hs & Hps & Hh & Hc & _ & _ & Hsak).
  intros [= <-].
  assert (Hperm : sak g' ++ rev (hand c) ++ rev (hand h) ≡ₚ SakClass.filled).
  { rewrite <- Hsak. apply init_sak. }
  pose proof filled_in_table as Hall. rewrite <- Hperm in Hall.
  apply Forall_app in Hall as [Hbag Hall]. apply Forall_app in Hall as [Hhc Hhh].
  rewrite <- Permutation_rev in Hhc, Hhh.
  split_and!.
  - split_and!; [done..|]. exists h, c. rewrite Hs. by split_and!.
  - unfold letters_in_play. rewrite Hps. simpl.
    apply Permutation_length in Hperm.
    rewrite !length_app, !length_rev, filled_count in Hperm. lia.
  - done.
Qed.

(** Every reachable state of a match is well formed and accounts for the
    102 letters of the table. *)
Lemma reachable_well_formed (ws : gset str) (st : Game.Run) (b : bool) :
  reachable ws st b →
  well_formed ws (Game.game st) ∧
  letters_in_play (Game.game st) + played_letters (Game.out st) = 102.
Proof.
  induction 1 as [rnd choice g Hg | st typed rnd st' continue _ [Hwf Hacc] Hstep].
  - apply setup_well_formed in Hg as (Hwf & Hlen & _). split; [done|].
    simpl. unfold played_letters. simpl. lia.
  - destruct (turn_body_step ws st typed rnd Hwf) as (st1 & c1 & Hstep1 & Hwf1 & Hacc1).
    rewrite Hstep in Hstep1. injection Hstep1 as <- <-.
    split; [done|lia].
Qed.

(** What [run] computes on a script is reachable, and [run] never raises. *)
Lemma run_loop_reachable (ws : gset str) (script : list (str * list nat))
    (st st' : Game.Run) (b : bool) :
  reachable ws st true → Game.run_loop script st = Ok (st', b) → reachable ws st' b.
Proof.
  revert st. induction script as [|[typed rnd] script IH]; intros st Hreach; simpl.
  - by intros [= <- <-].
  - destruct (Game.turn_body typed rnd st) as [[st1 [|]]|e] eqn:Hstep; [| |done].
    + apply IH. by eapply reach_turn.
    + intros [= <- <-]. by eapply reach_turn.
Qed.

Lemma run_loop_Ok (ws : gset str) (script : list (str * list nat)) (st : Game.Run) :
  reachable ws st true → ∃ st' b, Game.run_loop script st = Ok (st', b).
Proof.
  revert st. induction script as [|[typed rnd] script IH]; intros st Hreach; simpl.
  - by exists st, true.
  - destruct (reachable_well_formed ws st true Hreach) as [Hwf _].
    destruct (turn_body_step ws st typed rnd Hwf) as (st1 & c & Hstep & _).
    rewrite Hstep. destruct c; [|by exists st1, false].
    apply IH. by eapply reach_turn.
Qed.

(** ** The matches of a session *)

(** [setup] on a game whose bag holds letters of the table. *)
Lemma setup_table (ws : gset str) (g g' : Game) :
  wordset g = ws → Forall in_table (sak g) → Game.setup g = Ok g' →
  well_formed ws g'.
Proof.
  intros Hws Hbag Hset.
  destruct (setup_Ok g) as (g1 & h & c & Hset1 & Hws1 & Hs & Hps & Hh & Hc & _ & _ & Hsak).
  rewrite Hset in Hset1. injection Hset1 as <-.
  rewrite Hsak in Hbag.
  apply Forall_app in Hbag as [Hbag' Hall]. apply Forall_app in Hall as [Hhc Hhh].
  rewrite <- Permutation_rev in Hhc, Hhh.
  split_and!; [congruence|done|]. exists h, c. rewrite Hs. by split_and!.
Qed.

(** All along a session the bag and the hands hold letters of the table,
    and the game of a match is well formed. *)
Lemma session_table (ws : gset str) (s : Stage) :
  session ws s →
  wordset (game_of s) = ws ∧
  Forall in_table (sak (game_of s)) ∧
  (∀ p, p ∈ players (game_of s) → Forall in_table (hand p)) ∧
  match s with
  | AtMenu _ => True
  | InMatch st _ => well_formed ws (Game.game st)
  end.
Proof.
  assert (Hwf : ∀ g, well_formed ws g →
            wordset g = ws ∧ Forall in_table (sak g) ∧
            (∀ p, p ∈ players g → Forall in_table (hand p)) ∧ well_formed ws g).
  { intros g Hg. pose proof Hg as (Hws & Hbag & h & c & Hps & _ & _ & Hhh & Hhc).
    split_and!; try done. rewrite Hps.
    intros p [->|[->|?%elem_of_nil]%elem_of_cons]%elem_of_cons; done. }
  induction 1 as [rnd | choice g _ (Hws & Hbag & Hhands & _)
                 | g g' _ (Hws & Hbag & _) Hset
                 | st typed rnd st' continue _ (_ & _ & _ & Hst) Hstep
                 | st _ (Hws & Hbag & Hhands & _)]; cbn [game_of] in *.
  - split_and!; try done.
    + rewrite init_sak. apply filled_in_table.
    + by intros p ?%elem_of_nil.
  - by split_and!.
  - apply Hwf. by eapply setup_table.
  - apply Hwf.
    destruct (turn_body_step ws st typed rnd Hst) as (st1 & c1 & Hstep1 & Hwf1 & _).
    rewrite Hstep in Hstep1. by injection Hstep1 as <- <-.
  - by split_and!.
Qed.

Lemma session_well_formed (ws : gset str) (st : Game.Run) (b : bool) :
  session ws (InMatch st b) → well_formed ws (Game.game st).
Proof. by intros (_ & _ & _ & Hwf)%session_table. Qed.

(** The first match on a new game is a match of a session. *)
Lemma reachable_session (ws : gset str) (st : Game.Run) (b : bool) :
  reachable ws st b → session ws (InMatch st b).
Proof.
  induction 1 as [rnd choice g Hg | st typed rnd st' continue _ IH Hstep].
  - eapply session_setup; [|exact Hg]. apply session_settings, session_new.
  - by eapply session_turn.
Qed.

(** ** Hands and the letter table *)

(** C10.  At every stage the program can reach from
    [Game(wordset).main_menu()], at the menu or inside a match, the first
    match or a later one on the same game object, every letter of a hand
    (and of the bag) is a key of the letter table.  Hence the score lookups
    find their letters: scoring a word playable from a hand and scoring an
    arrangement of a hand both return normally, no strategy raises, and the
    next step, [setup] at the menu or an iteration of the turn loop in a
    match, whatever is typed and drawn, completes without an exception. *)
Theorem reachable_hands_in_table (ws : gset str) (s : Stage) :
  session ws s →
  Forall in_table (sak (game_of s)) ∧
  (∀ p, p ∈ players (game_of s) →
     Forall in_table (hand p) ∧
     (∀ l, l ∈ hand p → ∃ count value, getitem SakClass.letters l = Ok (count, value)) ∧
     (∀ word, Game.playable word (hand p) = true →
              Computer.word_score word = Ok (score_of word)) ∧
     (∀ i perm, perm ∈ permutations (hand p) i →
                Computer.word_score perm = Ok (score_of perm)) ∧
     (∀ strategy learned, ∃ word,
        Computer.play strategy learned (hand p) (wordset (game_of s)) = Ok word)) ∧
  match s with
  | AtMenu g => ∃ g', Game.setup g = Ok g'
  | InMatch st _ =>
      ∀ typed rnd, ∃ st' continue, Game.turn_body typed rnd st = Ok (st', continue)
  end.
Proof.
  intros (_ & Hbag & Hhands & Hwf)%session_table.
  split_and!; [done| |].
  - intros p Hp. pose proof (Hhands p Hp) as Hhp.
    split_and!; [done|..].
    + intros l Hl. rewrite Forall_forall in Hhp.
      destruct (in_table_getitem l (Hhp l Hl)) as (n & Hn & _). eauto.
    + intros word Hpl. apply word_score_Ok. by eapply playable_in_table.
    + intros i perm Hperm. apply word_score_Ok, Forall_forall. intros l Hl.
      rewrite Forall_forall in Hhp. by eapply Hhp, permutations_elem_of.
    + intros strat learned.
      destruct (play_Ok strat learned (hand p) (wordset (game_of s)) Hhp)
        as (r & Hr & _). by exists r.
  - destruct s as [g|st b].
    + destruct (setup_Ok g) as (g' & _ & _ & Hset & _). by exists g'.
    + intros typed rnd.
      destruct (turn_body_step ws st typed rnd Hwf) as (st' & continue & Hstep & _).
      by exists st', continue.
Qed.

Lemma reachable_hands_in_table_witness :
  let s := InMatch (Game.start demo_rematch) true in
  session demo_words s ∧
  length (sak (game_of s)) = 74 ∧
  Forall in_table (sak (game_of s)) ∧
  (∀ p, p ∈ players (game_of s) →
     Forall in_table (hand p) ∧
     (∀ l, l ∈ hand p → ∃ count value, getitem SakClass.letters l = Ok (count, value)) ∧
     (∀ word, Game.playable word (hand p) = true →
              Computer.word_score word = Ok (score_of word)) ∧
     (∀ i perm, perm ∈ permutations (hand p) i →
                Computer.word_score perm = Ok (score_of perm)) ∧
     (∀ strategy learned, ∃ word,
        Computer.play strategy learned (hand p) (wordset (game_of s)) = Ok word)) ∧
  (∀ typed rnd, ∃ st' continue,
     Game.turn_body typed rnd (Game.start demo_rematch) = Ok (st', continue)).
Proof.
  intros s.
  assert (Hmenu : session demo_words
                    (AtMenu (Game.settings (lit "f")
                               (Game.init (rev (seq 1 101)) demo_words))))
    by apply session_settings, session_new.
  assert (Hstart : session demo_words (InMatch (Game.start demo_game) true)).
  { apply (session_setup demo_words _ demo_game Hmenu). vm_compute. reflexivity. }
  assert (Hquit : session demo_words (InMatch demo_quit false)).
  { apply (session_turn demo_words _ (lit "Q") [] demo_quit false Hstart).
    vm_compute. reflexivity. }
  assert (Hsession : session demo_words s).
  { apply (session_setup demo_words _ demo_rematch (session_end demo_words _ Hquit)).
    vm_compute. reflexivity. }
  split; [exact Hsession|]. split; [vm_compute; reflexivity|].
  exact (reachable_hands_in_table demo_words s Hsession).
Defined.

(** ** Accounting for the letters *)





(** ** TEACH *)

(** X25.  What the TEACH branch of [run] does.  In any match of a session
    with strategy TEACH, when the Human is the acting player and submits a
    token that is neither "Q", "P" nor "PASS" and is not a word of the
    dictionary playable from the hand, the iteration runs the exhaustive
    best-score search on the hand of the Computer: the result is "PASS" when
    the Computer has no candidate and otherwise a candidate of highest
    score.  It is printed exactly when the token is a word of the
    dictionary.  The game object (bag, both hands and both scores included)
    is left as it was. *)
Theorem teach_advice (ws : gset str) (st : Game.Run) (typed : str) (rnd : list nat)
    (human : Player) :
  session ws (InMatch st true) →
  strategy (Game.game st) = TEACH →
  players (Game.game st) !! (Game.turn st mod 2) = Some human →
  class human = is_Human →
  typed ≠ lit "Q" → typed ≠ lit "P" → typed ≠ PASS →
  bool_decide (typed ∈ wordset (Game.game st)) && Game.playable typed (hand human) = false →
  ∃ computer best st' continue,
    Game.next_computer (players (Game.game st)) = Ok computer ∧
    isinstance_Computer computer = true ∧
    Computer.smart_teach (hand computer) (wordset (Game.game st)) = Ok best ∧
    (best = PASS ↔ candidates (hand computer) (wordset (Game.game st)) = []) ∧
    (best ≠ PASS →
       best ∈ candidates (hand computer) (wordset (Game.game st)) ∧
       ∀ w, w ∈ candidates (hand computer) (wordset (Game.game st)) →
            score_of w ≤ score_of best) ∧
    Game.turn_body typed rnd st = Ok (st', continue) ∧
    Game.game st' = Game.game st ∧
    Game.out st'
    = Game.out st ++ [ShowPlayer human]
      ++ (if bool_decide (typed ∈ wordset (Game.game st)) then [BestWord best] else [])
      ++ (if continue then [] else [NoMoreLetters]).
Proof.
  intros Hwf%session_well_formed Hteach Hlook Hhuman HQ HP Hpass Hinvalid.
  destruct Hwf as (_ & _ & h & c & Hps & Hh & Hc & _ & Hhc).
  assert (Hcomp : isinstance_Computer c = true)
    by (unfold isinstance_Computer; by rewrite Hc).
  destruct (search_result (hand c) (wordset (Game.game st)) Hhc)
    as (best & Hbest & Hnone & Hmax).
  assert (Hstep : ∃ st' continue,
    Game.turn_body typed rnd st = Ok (st', continue) ∧
    Game.game st' = Game.game st ∧
    Game.out st'
    = Game.out st ++ [ShowPlayer human]
      ++ (if bool_decide (typed ∈ wordset (Game.game st)) then [BestWord best] else [])
      ++ (if continue then [] else [NoMoreLetters])).
  { unfold Game.turn_body. rewrite Hlook. cbn [mbind result_bind].
    unfold play. rewrite Hhuman. cbn [mbind result_bind].
    rewrite decide_False by done. rewrite decide_False by done.
    rewrite Hinvalid. rewrite decide_False by done.
    unfold isinstance_Human. rewrite Hhuman, Hteach.
    rewrite bool_decide_eq_true_2 by done. cbn [andb].
    rewrite Hps, (next_computer_second h c Hh Hcomp). cbn [mbind result_bind].
    unfold Computer.smart_teach. rewrite Hbest. cbn [mbind result_bind].
    destruct (sak (Game.game st)); eexists _, _;
      (split; [reflexivity|]); (split; [done|]); simpl;
      case_bool_decide; by rewrite <- ?app_assoc, ?app_nil_r. }
  destruct Hstep as (st' & continue & Hstep & Hgame & Hout).
  exists c, best, st', continue.
  split_and!; try done.
  - rewrite Hps. by apply next_computer_second.
  - intros HbP. destruct (Hmax HbP) as (pre & post & Hcand & Hpre & Hpost).
    split; [rewrite Hcand; apply elem_of_app; right; left|].
    intros w. rewrite Hcand, elem_of_app, elem_of_cons.
    rewrite Forall_forall in Hpre. rewrite Forall_forall in Hpost.
    intros [Hw|[->|Hw]]; [apply Hpre in Hw; lia|done|by apply Hpost].
Qed.

Lemma teach_advice_witness :
  let st := Game.start demo_game in
  let typed := [Phi; Alpha] in
  session demo_words (InMatch st true) ∧
  strategy (Game.game st) = TEACH ∧
  players (Game.game st) !! (Game.turn st mod 2) = Some demo_human ∧
  class demo_human = is_Human ∧
  typed ≠ lit "Q" ∧ typed ≠ lit "P" ∧ typed ≠ PASS ∧
  bool_decide (typed ∈ wordset (Game.game st)) && Game.playable typed (hand demo_human)
  = false ∧
  ∃ computer best st' continue,
    Game.next_computer (players (Game.game st)) = Ok computer ∧
    isinstance_Computer computer = true ∧
    Computer.smart_teach (hand computer) (wordset (Game.game st)) = Ok best ∧
    (best = PASS ↔ candidates (hand computer) (wordset (Game.game st)) = []) ∧
    (best ≠ PASS →
       best ∈ candidates (hand computer) (wordset (Game.game st)) ∧
       ∀ w, w ∈ candidates (hand computer) (wordset (Game.game st)) →
            score_of w ≤ score_of best) ∧
    Game.turn_body typed [] st = Ok (st', continue) ∧
    Game.game st' = Game.game st ∧
    Game.out st'
    = Game.out st ++ [ShowPlayer demo_human]
      ++ (if bool_decide (typed ∈ wordset (Game.game st)) then [BestWord best] else [])
      ++ (if continue then [] else [NoMoreLetters]).
Proof.
  intros st typed.
  assert (Hreach : session demo_words (InMatch st true)).
  { apply (session_setup demo_words
             (Game.settings (lit "f") (Game.init (rev (seq 1 101)) demo_words)) demo_game).
    - apply session_settings, session_new.
    - vm_compute. reflexivity. }
  assert (Hteach : strategy (Game.game st) = TEACH) by (vm_compute; reflexivity).
  assert (Hlook : players (Game.game st) !! (Game.turn st mod 2) = Some demo_human)
    by (vm_compute; reflexivity).
  assert (Hhuman : class demo_human = is_Human) by reflexivity.
  assert (HQ : typed ≠ lit "Q") by (vm_compute; discriminate).
  assert (HP : typed ≠ lit "P") by (vm_compute; discriminate).
  assert (Hpass : typed ≠ PASS) by (vm_compute; discriminate).
  assert (Hinv : bool_decide (typed ∈ wordset (Game.game st))
                 && Game.playable typed (hand demo_human) = false)
    by (vm_compute; reflexivity).
  split_and!; try assumption.
  exact (teach_advice demo_words st typed [] demo_human
           Hreach Hteach Hlook Hhuman HQ HP Hpass Hinv).
Defined.

(** Runs one iteration on a concrete state and names its result. *)
Ltac run_turn :=
  lazymatch goal with
  | |- ∃ st', Game.turn_body ?typed ?rnd ?st = Ok (st', _) ∧ _ =>
      let Hstep := fresh "Hstep" in
      destruct (Game.turn_body typed rnd st) as [[? ?]|?] eqn:Hstep;
      vm_compute in Hstep;
      [injection Hstep as <- <-|discriminate Hstep];
      eexists; split; [reflexivity|]
  end.

(** C6.  The code departs from the claim, and from its own description of
    TEACH ("suggests the best possible word to the human"): with strategy
    TEACH and the Human acting, the Human plays the dictionary word ΨΥΧΩ
    from the hand, the word is scored and printed, and no advice follows:
    the TEACH branch of [run] is an [elif] below the branch of the valid
    play.  Nor is advice printed after "Q", "PASS" or the exchange token "P"
    (the search does not run), nor after a token that is not in the
    dictionary (the search runs, its result is dropped). *)
Lemma teach_gives_no_advice_on_played_word :
  let st := Game.start demo_game in
  let silent (typed : str) (continue : bool) (printed : list Output) :=
    ∃ st', Game.turn_body typed [] st = Ok (st', continue) ∧
           Game.out st' = ShowPlayer demo_human :: printed ∧
           ∀ best, BestWord best ∉ Game.out st' in
  strategy (Game.game st) = TEACH ∧
  players (Game.game st) !! (Game.turn st mod 2) = Some demo_human ∧
  silent (lit "XYZ") true [] ∧
  silent (lit "Q") false [QuitMsg "HUMAN"] ∧
  silent PASS true [Passed "HUMAN"] ∧
  silent (lit "P") true [LettersChanged] ∧
  silent [Psi; Upsilon; Chi; Omega] true [Played "HUMAN" [Psi; Upsilon; Chi; Omega] 23].
Proof.
  intros st silent.
  assert (Hno : ∀ (printed : list Output) best,
            Forall (λ o, ∀ w, o ≠ BestWord w) printed →
            BestWord best ∉ ShowPlayer demo_human :: printed).
  { intros printed best Hall [Heq|Hin]%elem_of_cons; [done|].
    rewrite Forall_forall in Hall. by destruct (Hall _ Hin best). }
  split; [vm_compute; reflexivity|]. split; [vm_compute; reflexivity|].
  subst silent. cbv beta.
  split_and!; run_turn; (split; [reflexivity|]);
    intros best; apply Hno; repeat constructor; done.
Qed.

(** * Further properties of the code *)

(** ** The bag *)

Lemma getitem_missing {K V} `{EqDecision K} (d : list (K * V)) (key : K) :
  key ∉ d.*1 → getitem d key = Raise KeyError.
Proof.
  induction d as [|[k v] d IH]; [done|]. simpl.
  intros Hk. apply not_elem_of_cons in Hk as [Hne Hk].
  rewrite decide_False by done. by apply IH.
Qed.

Lemma supply_filled (c : char) : count c SakClass.filled = supply c.
Proof.
  destruct (decide (in_table c)) as [Hc|Hc].
  - unfold in_table in Hc.
    repeat (apply elem_of_cons in Hc as [->|Hc]; [vm_compute; reflexivity|]).
    by apply elem_of_nil in Hc.
  - unfold supply. rewrite getitem_missing by done.
    destruct (decide (0 < count c SakClass.filled)) as [Hpos|]; [|lia].
    apply count_pos in Hpos. destruct Hc.
    pose proof filled_in_table as Hall. rewrite Forall_forall in Hall. by apply Hall.
Qed.

(** X1.  Whatever the random draws, a new bag holds 102 letters: every
    letter of the table exactly as many times as its supply count, and no
    other letter. *)
Theorem init_supply (rnd : list nat) :
  length (SakClass.init rnd) = 102 ∧
  (∀ c, count c (SakClass.init rnd) = supply c) ∧
  (∀ c, c ∈ SakClass.init rnd ↔ in_table c).
Proof.
  assert (Hperm : SakClass.init rnd ≡ₚ SakClass.filled) by apply shuffle_Permutation.
  assert (Hcount : ∀ c, count c (SakClass.init rnd) = supply c).
  { intros c. rewrite (count_Permutation c _ _ Hperm). apply supply_filled. }
  split_and!; [by rewrite Hperm|done|].
  intros c. rewrite <- count_pos, Hcount. split.
  - intros Hpos. destruct (decide (in_table c)) as [|Hc]; [done|].
    unfold supply in Hpos. rewrite getitem_missing in Hpos by done. lia.
  - unfold in_table. intros Hc.
    repeat (apply elem_of_cons in Hc as [->|Hc]; [vm_compute; lia|]).
    by apply elem_of_nil in Hc.
Qed.

(** X2.  Asking for no letter, or for a negative number of letters, returns
    an empty hand and leaves the bag untouched. *)
Theorem getletters_nonpositive (n : Z) (sak : list char) :
  (n ≤ 0)%Z → SakClass.getletters n sak = Ok ([], sak).
Proof.
  intros Hn. rewrite getletters_Ok.
  replace (Z.to_nat (Z.min n (Z.of_nat (length sak)))) with 0 by lia.
  rewrite Nat.sub_0_r, drop_all, firstn_all. done.
Qed.

Lemma getletters_nonpositive_witness :
  (-3 ≤ 0)%Z ∧ SakClass.getletters (-3) [Alpha; Beta] = Ok ([], [Alpha; Beta]).
Proof.
  assert (H : (-3 ≤ 0)%Z) by lia.
  split; [exact H|]. exact (getletters_nonpositive (-3) [Alpha; Beta] H).
Defined.

(** X3.  Two draws in a row hand out the letters of a single draw of the
    sum, in the same order, and leave the same bag. *)
Theorem getletters_twice (n m : Z) (sak : list char) :
  (0 ≤ n)%Z → (0 ≤ m)%Z →
  ∃ h1 s1 h2 s2,
    SakClass.getletters n sak = Ok (h1, s1) ∧
    SakClass.getletters m s1 = Ok (h2, s2) ∧
    SakClass.getletters (n + m) sak = Ok (h1 ++ h2, s2).
Proof.
  intros Hn Hm. eexists _, _, _, _.
  split; [apply getletters_Ok|]. split; [apply getletters_Ok|].
  rewrite getletters_Ok. rewrite length_take.
  set (L := length sak).
  set (k1 := Z.to_nat (Z.min n (Z.of_nat L))).
  set (k2 := Z.to_nat (Z.min m (Z.of_nat ((L - k1) `min` L)))).
  replace (Z.to_nat (Z.min (n + m) (Z.of_nat L))) with (k1 + k2)
    by (unfold k1, k2; lia).
  assert (Hk1 : k1 ≤ L) by (unfold k1; lia).
  assert (Hk2 : k2 ≤ L - k1) by (unfold k2; lia).
  replace ((L - k1) `min` L - k2) with (L - (k1 + k2)) by lia.
  f_equal. f_equal.
  - rewrite <- rev_app_distr. f_equal.
    rewrite <- (take_drop (L - k1) sak) at 1.
    rewrite drop_app_le by (rewrite length_take; fold L; lia). done.
  - rewrite take_take. f_equal. lia.
Qed.

Lemma getletters_twice_witness :
  (0 ≤ 2)%Z ∧ (0 ≤ 7)%Z ∧
  ∃ h1 s1 h2 s2,
    SakClass.getletters 2 [Alpha; Beta; Gamma; Delta] = Ok (h1, s1) ∧
    SakClass.getletters 7 s1 = Ok (h2, s2) ∧
    SakClass.getletters (2 + 7) [Alpha; Beta; Gamma; Delta] = Ok (h1 ++ h2, s2).
Proof.
  assert (H2 : (0 ≤ 2)%Z) by lia. assert (H7 : (0 ≤ 7)%Z) by lia.
  split; [exact H2|]. split; [exact H7|].
  exact (getletters_twice 2 7 [Alpha; Beta; Gamma; Delta] H2 H7).
Defined.

(** ** The word search *)

(** Every strategy but LEARN passes exactly when there is no candidate and
    otherwise returns a candidate. *)
Lemma play_decided (s : Strategy) (learned : gset str) (hand : list char) (ws : gset str) :
  s ≠ LEARN → Forall in_table hand →
  ∃ r, Computer.play s learned hand ws = Ok r ∧
       ((r = PASS ∧ candidates hand (ws ∪ learned) = []) ∨
        (r ≠ PASS ∧ r ∈ candidates hand (ws ∪ learned))).
Proof.
  intros Hs Hh. set (oracle := ws ∪ learned).
  assert (Hcand : ∀ r, r ∈ candidates hand oracle → r ≠ PASS).
  { intros r Hr. by eapply in_table_not_PASS, candidates_in_table. }
  assert (Hsearch : ∃ r,
    ('(best_word, _) ← Computer.best hand oracle;
     Ok (match best_word with [] => PASS | _ => best_word end)) = Ok r ∧
    ((r = PASS ∧ candidates hand oracle = []) ∨
     (r ≠ PASS ∧ r ∈ candidates hand oracle))).
  { destruct (search_result hand oracle Hh) as (r & Hr & Hpass & Hbest).
    exists r. split; [done|]. destruct (decide (r = PASS)) as [HrP|HrP].
    - left. split; [done|]. by apply Hpass.
    - right. split; [done|]. destruct (Hbest HrP) as (pre & post & -> & _).
      apply elem_of_app. right. left. }
  assert (Hscan : ∀ ars, (ars = range_up (length hand) ∨ ars = range_down (length hand)) →
    s = MIN ∨ s = MAX →
    ∃ r, match Computer.scan s hand oracle ars [] with
         | inl w => Ok w
         | inr _ => Ok PASS
         end = Ok r ∧
         ((r = PASS ∧ candidates hand oracle = []) ∨
          (r ≠ PASS ∧ r ∈ candidates hand oracle))).
  { intros ars Hars Hmm. rewrite scan_first by done.
    destruct (list_find _ ars) as [[j i]|] eqn:Hfind.
    - apply list_find_Some in Hfind as (Hi%list_elem_of_lookup_2 & Hne & _).
      assert (2 ≤ i ≤ length hand) as Hrange.
      { destruct Hars as [-> | ->];
          [by apply range_up_elem_of | by apply range_down_elem_of]. }
      destruct (acceptable hand oracle i) as [|w rest] eqn:Hacc; [done|].
      simpl. exists w. split; [done|]. right.
      assert (w ∈ candidates hand oracle) as Hw.
      { apply elem_of_candidates. exists i. split; [done|].
        apply elem_of_acceptable. rewrite Hacc. left. }
      split; [by apply Hcand|done].
    - exists PASS. split; [done|]. left. split; [done|].
      destruct (candidates hand oracle) as [|w c] eqn:Hc; [done|].
      assert (w ∈ candidates hand oracle) as Hw by (rewrite Hc; left).
      apply elem_of_candidates in Hw as (i & Hi & Hw).
      destruct (list_find_range_None (λ i, acceptable hand oracle i ≠ [])
                  (length hand) ars Hars Hfind i Hi).
      intros Hnil. apply elem_of_acceptable in Hw. rewrite Hnil in Hw.
      by apply elem_of_nil in Hw. }
  destruct s; try done.
  - apply (Hscan (range_up (length hand))); auto.
  - apply (Hscan (range_down (length hand))); auto.
  - unfold Computer.play, Computer.min_max_smart.
    rewrite scan_no_return by done. exact Hsearch.
  - exists (second_or_only (sort_reverse (entries hand oracle))).
    split; [by apply fail_strategy_sorted|].
    destruct (candidates hand oracle) as [|w0 c0] eqn:Hc.
    + left. unfold entries. rewrite Hc. done.
    + right.
      destruct (second_or_only_elem_of (sort_reverse (entries hand oracle)))
        as (e & He & ->).
      * intros Hnil. assert (entries hand oracle ≡ₚ []) as Hp
          by (by rewrite <- Hnil, sort_reverse_Permutation).
        apply Permutation_nil_r in Hp. unfold entries in Hp. by rewrite Hc in Hp.
      * rewrite sort_reverse_Permutation in He.
        apply entries_elem_of in He as [He _]. rewrite Hc in He.
        split; [by apply Hcand|done].
Qed.

(** X4.  A hand of fewer than two letters makes every strategy pass,
    whatever the letters and the words. *)
Theorem short_hand_passes (s : Strategy) (learned : gset str) (hand : list char)
    (ws : gset str) :
  length hand < 2 → Computer.play s learned hand ws = Ok PASS.
Proof.
  intros Hlen. destruct hand as [|a [|b hand]]; [| |simpl in Hlen; lia];
    by destruct s.
Qed.

Lemma short_hand_passes_witness :
  length [Omega] < 2 ∧
  Computer.play FAIL ∅ [Omega] {[ [Omega]; [Omega; Omega] ]} = Ok PASS.
Proof.
  assert (H : length [Omega] < 2) by (simpl; lia).
  split; [exact H|].
  exact (short_hand_passes FAIL ∅ [Omega] {[ [Omega]; [Omega; Omega] ]} H).
Defined.

(** X5.  On a hand of letters of the table no strategy raises, and what it
    proposes is "PASS" or a word of the oracle (dictionary or learned words)
    of 2 to [len(hand)] letters that uses no letter more often than the hand
    holds it. *)
Theorem play_proposes_playable (s : Strategy) (learned : gset str) (hand : list char)
    (ws : gset str) :
  Forall in_table hand →
  ∃ r, Computer.play s learned hand ws = Ok r ∧
       (r = PASS ∨
        (r ∈ ws ∪ learned ∧ r ⊆+ hand ∧ 2 ≤ length r ≤ length hand)).
Proof.
  intros Hh. destruct (play_Ok s learned hand ws Hh) as (r & Hr & [->|Hc]).
  - exists PASS. auto.
  - exists r. split; [done|]. right.
    apply candidates_derivable in Hc as (Hin & Hsub & Hlen).
    split_and!; try done. by apply submseteq_length.
Qed.

Lemma play_proposes_playable_witness :
  let hand := [Alpha; Lambda; Phi; Alpha] in
  let ws : gset str := {[ [Alpha; Lambda; Phi; Alpha]; [Phi; Alpha] ]} in
  Forall in_table hand ∧
  ∃ r, Computer.play FAIL ∅ hand ws = Ok r ∧
       (r = PASS ∨ (r ∈ ws ∪ ∅ ∧ r ⊆+ hand ∧ 2 ≤ length r ≤ length hand)).
Proof.
  intros hand ws.
  assert (Hh : Forall in_table hand)
    by (apply (bool_decide_unpack _); vm_compute; exact I).
  split; [exact Hh|]. exact (play_proposes_playable FAIL ∅ hand ws Hh).
Defined.

(** X6.  Every strategy but LEARN passes exactly when no word of the oracle
    of two letters or more can be laid out from the hand; in particular all
    of them pass together. *)
Theorem play_passes_iff_nothing_playable (s : Strategy) (learned : gset str)
    (hand : list char) (ws : gset str) :
  s ≠ LEARN → Forall in_table hand →
  (Computer.play s learned hand ws = Ok PASS ↔
   ∀ w, w ∈ ws ∪ learned → w ⊆+ hand → length w < 2).
Proof.
  intros Hs Hh.
  destruct (play_decided s learned hand ws Hs Hh) as (r & -> & Hr).
  assert (candidates hand (ws ∪ learned) = [] ↔
          ∀ w, w ∈ ws ∪ learned → w ⊆+ hand → length w < 2) as <-.
  { split.
    - intros Hnil w Hw Hsub. destruct (decide (length w < 2)) as [|Hlen]; [done|].
      assert (w ∈ candidates hand (ws ∪ learned)) as Hc
        by (apply candidates_derivable; split_and!; [done..|lia]).
      rewrite Hnil in Hc. by apply elem_of_nil in Hc.
    - intros Hall. destruct (candidates hand (ws ∪ learned)) as [|w c] eqn:Hc; [done|].
      assert (w ∈ candidates hand (ws ∪ learned)) as Hw by (rewrite Hc; left).
      apply candidates_derivable in Hw as (Hin & Hsub & Hlen).
      specialize (Hall w Hin Hsub). lia. }
  destruct Hr as [[-> Hnil]|[HrP Hin]].
  - done.
  - split; [by intros [= ->]|]. intros Hnil. rewrite Hnil in Hin.
    by apply elem_of_nil in Hin.
Qed.

Lemma play_passes_iff_nothing_playable_witness :
  let hand := [Alpha; Lambda; Phi; Alpha] in
  let ws : gset str := {[ [Alpha; Lambda; Phi; Alpha]; [Phi; Alpha] ]} in
  MAX ≠ LEARN ∧ Forall in_table hand ∧
  (Computer.play MAX ∅ hand ws = Ok PASS ↔
   ∀ w, w ∈ ws ∪ ∅ → w ⊆+ hand → length w < 2).
Proof.
  intros hand ws.
  assert (Hs : MAX ≠ LEARN) by discriminate.
  assert (Hh : Forall in_table hand)
    by (apply (bool_decide_unpack _); vm_compute; exact I).
  split; [exact Hs|]. split; [exact Hh|].
  exact (play_passes_iff_nothing_playable MAX ∅ hand ws Hs Hh).
Defined.

(** X7.  A computer set to TEACH makes the move a computer set to SMART
    makes, on every hand and every set of words (errors included). *)
Theorem teach_plays_like_smart (learned : gset str) (hand : list char) (ws : gset str) :
  Computer.play TEACH learned hand ws = Computer.play SMART learned hand ws.
Proof.
  unfold Computer.play, Computer.min_max_smart, Computer.smart_teach.
  by rewrite scan_no_return.
Qed.

(** X8.  No strategy finds a word worth more than the word SMART returns:
    when some strategy returns a word, SMART returns a word as well and its
    score is at least as high. *)
Theorem smart_dominates (s : Strategy) (learned : gset str) (hand : list char)
    (ws : gset str) (r : str) :
  Forall in_table hand →
  Computer.play s learned hand ws = Ok r → r ≠ PASS →
  ∃ b, Computer.play SMART learned hand ws = Ok b ∧ b ≠ PASS ∧
       score_of r ≤ score_of b.
Proof.
  intros Hh Hr HrP.
  destruct (play_Ok s learned hand ws Hh) as (r' & Hr' & Hin).
  rewrite Hr in Hr'. injection Hr' as <-. destruct Hin as [|Hin]; [done|].
  set (oracle := ws ∪ learned) in *.
  destruct (search_result hand oracle Hh) as (b & Hb & Hpass & Hbest).
  assert (HbP : b ≠ PASS).
  { intros HbP. apply Hpass in HbP. rewrite HbP in Hin. by apply elem_of_nil in Hin. }
  exists b. split_and!; [|done|].
  - unfold Computer.play, Computer.min_max_smart. by rewrite scan_no_return.
  - destruct (Hbest HbP) as (pre & post & Hc & Hpre & Hpost).
    rewrite Hc, elem_of_app, elem_of_cons in Hin.
    rewrite Forall_forall in Hpre. rewrite Forall_forall in Hpost.
    destruct Hin as [Hin|[->|Hin]]; [apply Hpre in Hin; lia|done|by apply Hpost].
Qed.

Lemma smart_dominates_witness :
  let hand := [Alpha; Lambda; Phi; Alpha] in
  let ws : gset str := {[ [Alpha; Lambda; Phi; Alpha]; [Phi; Alpha] ]} in
  Forall in_table hand ∧
  Computer.play MIN ∅ hand ws = Ok [Phi; Alpha] ∧ [Phi; Alpha] ≠ PASS ∧
  ∃ b, Computer.play SMART ∅ hand ws = Ok b ∧ b ≠ PASS ∧
       score_of [Phi; Alpha] ≤ score_of b.
Proof.
  intros hand ws.
  assert (Hh : Forall in_table hand)
    by (apply (bool_decide_unpack _); vm_compute; exact I).
  assert (Hr : Computer.play MIN ∅ hand ws = Ok [Phi; Alpha])
    by (vm_compute; reflexivity).
  assert (HrP : [Phi; Alpha] ≠ PASS) by (vm_compute; discriminate).
  split; [exact Hh|]. split; [exact Hr|]. split; [exact HrP|].
  exact (smart_dominates MIN ∅ hand ws [Phi; Alpha] Hh Hr HrP).
Defined.

Lemma word_score_from_raise (w : str) (t : nat) :
  ¬ Forall in_table w →
  for_each (λ total l, '(_, value) ← getitem SakClass.letters l; Ok (total + value)) w t
  = Raise KeyError.
Proof.
  revert t. induction w as [|c w IH]; intros t Hw; [by destruct Hw|].
  rewrite for_each_cons. destruct (decide (in_table c)) as [Hc|Hc].
  - destruct (in_table_getitem c Hc) as (n & -> & _). cbn [mbind result_bind].
    apply IH. intros Hall. apply Hw. by constructor.
  - by rewrite getitem_missing.
Qed.

(** X9.  Scoring a word returns the sum of the values of its letters when
    all of them are keys of the letter table and raises KeyError otherwise;
    either way the outcome does not depend on the order of the letters. *)
Theorem word_score_outcome (w : str) :
  (Forall in_table w → Computer.word_score w = Ok (score_of w)) ∧
  (¬ Forall in_table w → Computer.word_score w = Raise KeyError) ∧
  (∀ w', w ≡ₚ w' → Computer.word_score w = Computer.word_score w').
Proof.
  split_and!.
  - apply word_score_Ok.
  - apply word_score_from_raise.
  - intros w' Hperm. destruct (decide (Forall in_table w)) as [Hw|Hw].
    + rewrite !word_score_Ok by (by rewrite <- ?Hperm).
      unfold score_of. by rewrite Hperm.
    + unfold Computer.word_score.
      rewrite !word_score_from_raise by (by rewrite <- ?Hperm). done.
Qed.

(** X10.  The score of the word SMART returns depends on the letters of the
    hand only, not on their order in the hand, and so does whether it
    passes. *)
Theorem smart_score_ignores_hand_order (learned : gset str) (hand hand' : list char)
    (ws : gset str) :
  hand ≡ₚ hand' → Forall in_table hand →
  ∃ b b', Computer.play SMART learned hand ws = Ok b ∧
          Computer.play SMART learned hand' ws = Ok b' ∧
          score_of b = score_of b' ∧ (b = PASS ↔ b' = PASS).
Proof.
  intros Hperm Hh.
  assert (Hh' : Forall in_table hand') by by rewrite <- Hperm.
  set (oracle := ws ∪ learned).
  assert (Hsame : ∀ w, w ∈ candidates hand oracle ↔ w ∈ candidates hand' oracle).
  { intros w. rewrite !candidates_derivable. by rewrite Hperm. }
  assert (Hdom : ∀ h1 h2 b1 b2 : list char,
    Forall in_table h1 → Forall in_table h2 →
    (∀ w, w ∈ candidates h1 oracle → w ∈ candidates h2 oracle) →
    Computer.play SMART learned h1 ws = Ok b1 →
    Computer.play SMART learned h2 ws = Ok b2 →
    score_of b1 ≤ score_of b2 ∧ (b2 = PASS → b1 = PASS)).
  { intros h1 h2 b1 b2 H1 H2 Hsub Hb1 Hb2.
    assert (Hplay : ∀ h, Computer.play SMART learned h ws
              = '(best_word, _) ← Computer.best h oracle;
                Ok (match best_word with [] => PASS | _ => best_word end)).
    { intros h. unfold Computer.play, Computer.min_max_smart.
      by rewrite scan_no_return. }
    destruct (search_result h1 oracle H1) as (r1 & Hr1 & Hpass1 & Hbest1).
    destruct (search_result h2 oracle H2) as (r2 & Hr2 & Hpass2 & Hbest2).
    rewrite Hplay, Hr1 in Hb1. injection Hb1 as ->.
    rewrite Hplay, Hr2 in Hb2. injection Hb2 as ->.
    destruct (decide (b1 = PASS)) as [->|Hb1P].
    { split; [|done]. change (score_of PASS) with 0. lia. }
    destruct (Hbest1 Hb1P) as (pre1 & post1 & Hc1 & _).
    assert (Hin : b1 ∈ candidates h2 oracle).
    { apply Hsub. rewrite Hc1. apply elem_of_app. right. left. }
    assert (Hb2P : b2 ≠ PASS).
    { intros HP. apply Hpass2 in HP. rewrite HP in Hin. by apply elem_of_nil in Hin. }
    split; [|done].
    destruct (Hbest2 Hb2P) as (pre & post & Hc & Hpre & Hpost).
    rewrite Hc, elem_of_app, elem_of_cons in Hin.
    rewrite Forall_forall in Hpre. rewrite Forall_forall in Hpost.
    destruct Hin as [Hin|[->|Hin]]; [apply Hpre in Hin; lia|done|by apply Hpost]. }
  destruct (play_Ok SMART learned hand ws Hh) as (b & Hb & _).
  destruct (play_Ok SMART learned hand' ws Hh') as (b' & Hb' & _).
  exists b, b'. split; [done|]. split; [done|].
  destruct (Hdom hand hand' b b' Hh Hh' (λ w, proj1 (Hsame w)) Hb Hb') as [Hle1 Hp1].
  destruct (Hdom hand' hand b' b Hh' Hh (λ w, proj2 (Hsame w)) Hb' Hb) as [Hle2 Hp2].
  split; [lia|]. split; auto.
Qed.

(** ** The turn loop, branch by branch *)

Lemma turn_end_ends (st : Game.Run) (g' : Game) (player : Player) (printed : list Output) :
  ∃ st' continue,
    match sak g' with
    | [] => Ok ({| Game.game := g'; Game.turn := Game.turn st;
                   Game.out := ((Game.out st ++ [ShowPlayer player]) ++ printed)
                               ++ [NoMoreLetters] |}, false)
    | _ :: _ => Ok ({| Game.game := g'; Game.turn := S (Game.turn st);
                       Game.out := (Game.out st ++ [ShowPlayer player]) ++ printed |}, true)
    end = Ok (st', continue) ∧
    ends_turn st st' continue g' player printed.
Proof.
  unfold ends_turn.
  destruct (sak g') as [|x bag] eqn:Hbag; eexists _, _; (split; [reflexivity|]); simpl.
  - split_and!; [done..|]. by rewrite <- !app_assoc.
  - split_and!; [done..|]. by rewrite <- !app_assoc, app_nil_r.
Qed.

(** What one iteration does on a well-formed game, for each branch of the
    [if] chain of [run]. *)
Lemma turn_body_cases (ws : gset str) (st : Game.Run) (typed : str) (rnd : list nat) :
  well_formed ws (Game.game st) →
  let g := Game.game st in
  let i := Game.turn st mod 2 in
  ∃ player word st' continue,
    players g !! i = Some player ∧
    play player typed (wordset g) = Ok word ∧
    Game.turn_body typed rnd st = Ok (st', continue) ∧
    ((word = lit "Q" ∧ continue = false ∧ Game.game st' = g ∧
      Game.turn st' = Game.turn st ∧
      Game.out st' = Game.out st ++ [ShowPlayer player; QuitMsg (name player)]) ∨
     (word = lit "P" ∧
      ∃ hd bag',
        SakClass.putbackletters rnd (hand player) (sak g) = bag' ++ rev hd ∧
        Z.of_nat (length hd)
        = Z.min 7 (Z.of_nat (length (sak g) + length (hand player))) ∧
        ends_turn st st' continue (with_player g i (set_hand player hd) bag')
                  player [LettersChanged]) ∨
     (word ≠ lit "Q" ∧ word ≠ lit "P" ∧
      word ∈ wordset g ∧ Game.playable word (hand player) = true ∧
      ∃ rest drawn bag',
        hand player ≡ₚ word ++ rest ∧
        sak g = bag' ++ rev drawn ∧
        Z.of_nat (length drawn)
        = Z.max 0 (Z.min (7 - Z.of_nat (length rest)) (Z.of_nat (length (sak g)))) ∧
        ends_turn st st' continue
                  (with_player g i
                     (set_hand (add_score player (score_of word)) (rest ++ drawn)) bag')
                  player [Played (name player) word (score_of word)]) ∨
     (word ≠ lit "Q" ∧ word ≠ lit "P" ∧
      ¬ (word ∈ wordset g ∧ Game.playable word (hand player) = true) ∧
      ∃ printed,
        ends_turn st st' continue g player printed ∧
        ((word = PASS ∧ printed = [Passed (name player)]) ∨
         (word ≠ PASS ∧ class player = is_Human ∧ strategy g = TEACH ∧
          ∃ computer best,
            Game.next_computer (players g) = Ok computer ∧
            Computer.smart_teach (hand computer) (wordset g) = Ok best ∧
            printed = if bool_decide (word ∈ wordset g) then [BestWord best] else []) ∨
         (word ≠ PASS ∧ ¬ (class player = is_Human ∧ strategy g = TEACH) ∧
          printed = [InvalidWord])))).
Proof.
  intros (Hws & Hbag & h & c & Hps & Hh & Hc & Hhh & Hhc) g i.
  assert (Hi : i = 0 ∨ i = 1)
    by (pose proof (Nat.mod_upper_bound (Game.turn st) 2); unfold i; lia).
  change (players g = [h; c]) in Hps.
  set (player := if decide (i = 0) then h else c).
  assert (Hlook : players g !! i = Some player).
  { rewrite Hps. unfold player. by destruct Hi as [-> | ->]. }
  assert (Hhp : Forall in_table (hand player)).
  { unfold player. by destruct (decide (i = 0)). }
  assert (∃ word, play player typed (wordset g) = Ok word) as [word Hplay].
  { unfold play, player. destruct (decide (i = 0)).
    - rewrite Hh. by exists typed.
    - rewrite Hc. destruct (play_Ok (strategy g) ∅ (hand c) (wordset g) Hhc)
        as (r & Hr & _). by exists r. }
  assert (Hhuman : isinstance_Human player = true ↔ class player = is_Human).
  { unfold isinstance_Human. destruct (class player); split; done. }
  exists player, word.
  unfold Game.turn_body. fold g i. rewrite Hlook. cbn [mbind result_bind].
  rewrite Hplay. cbn [mbind result_bind].
  destruct (decide (word = lit "Q")) as [HQ|HQ].
  { eexists _, _. split; [done|]. split; [done|]. split; [reflexivity|].
    left. simpl. split_and!; try done. by rewrite <- app_assoc. }
  destruct (decide (word = lit "P")) as [HP|HP].
  { set (bag := SakClass.putbackletters rnd (hand player) (sak g)).
    assert (Hbl : length bag = length (sak g) + length (hand player)).
    { unfold bag, SakClass.putbackletters. by rewrite shuffle_length, length_app. }
    rewrite (getletters_Ok 7 bag). cbn [mbind result_bind].
    set (k := Z.to_nat (Z.min 7 (Z.of_nat (length bag)))).
    set (hd := rev (drop (length bag - k) bag)).
    set (bag' := take (length bag - k) bag).
    destruct (turn_end_ends st (with_player g i (set_hand player hd) bag')
                player [LettersChanged]) as (st' & continue & Hend & Hends).
    exists st', continue. split; [done|]. split; [done|].
    split; [exact Hend|]. right. left. split; [done|].
    exists hd, bag'. split_and!; [|unfold hd|done].
    - unfold hd, bag'. by rewrite rev_involutive, take_drop.
    - rewrite length_rev, length_drop. unfold k. lia. }
  destruct (bool_decide (word ∈ wordset g) && Game.playable word (hand player))
    eqn:Hvalid.
  { apply andb_true_iff in Hvalid as [Hin%bool_decide_eq_true Hpl].
    rewrite word_score_from by by eapply playable_in_table.
    cbn [mbind result_bind]. rewrite Nat.add_0_l.
    destruct (remove_word word (hand player) (playable_count _ _ Hpl))
      as (rest & Hrem & Hperm).
    change (hand (add_score player (score_of word))) with (hand player).
    rewrite Hrem. cbn [mbind result_bind].
    rewrite getletters_Ok. cbn [mbind result_bind].
    set (k := Z.to_nat (Z.min (7 - Z.of_nat (length rest)) (Z.of_nat (length (sak g))))).
    set (drawn := rev (drop (length (sak g) - k) (sak g))).
    set (bag' := take (length (sak g) - k) (sak g)).
    destruct (turn_end_ends st
                (with_player g i
                   (set_hand (add_score player (score_of word)) (rest ++ drawn)) bag')
                player [Played (name player) word (score_of word)])
      as (st' & continue & Hend & Hends).
    exists st', continue. split; [done|]. split; [done|].
    split; [exact Hend|]. right. right. left. split_and!; try done.
    exists rest, drawn, bag'. split_and!; [done| |unfold drawn|done].
    - unfold drawn, bag'. by rewrite rev_involutive, take_drop.
    - rewrite length_rev, length_drop. unfold k. lia. }
  assert (Hinvalid : ¬ (word ∈ wordset g ∧ Game.playable word (hand player) = true)).
  { intros [Hin Hpl]. rewrite bool_decide_eq_true_2, Hpl in Hvalid by done. done. }
  destruct (decide (word = PASS)) as [Hpass|Hpass].
  { destruct (turn_end_ends st g player [Passed (name player)])
      as (st' & continue & Hend & Hends).
    exists st', continue. split; [done|]. split; [done|].
    split; [exact Hend|]. do 3 right. split_and!; try done.
    exists [Passed (name player)]. split; [done|]. by left. }
  destruct (isinstance_Human player && bool_decide (strategy g = TEACH)) eqn:Hteach.
  { apply andb_true_iff in Hteach as [Hhum%Hhuman Ht%bool_decide_eq_true].
    assert (Hcomp : isinstance_Computer c = true)
      by (unfold isinstance_Computer; by rewrite Hc).
    rewrite Hps, (next_computer_second h c Hh Hcomp).
    cbn [mbind result_bind].
    destruct (search_result (hand c) (wordset g) Hhc) as (best & Hbest & _).
    unfold Computer.smart_teach. rewrite Hbest. cbn [mbind result_bind].
    destruct (turn_end_ends st g player
                (if bool_decide (word ∈ wordset g) then [BestWord best] else []))
      as (st' & continue & Hend & Hends).
    exists st', continue. split; [done|]. split; [done|]. split.
    - rewrite <- Hend. by destruct (bool_decide (word ∈ wordset g)); rewrite ?app_nil_r.
    - do 3 right. split_and!; try done.
      eexists. split; [exact Hends|]. right. left. split_and!; try done.
      exists c, best. by split_and!. }
  destruct (turn_end_ends st g player [InvalidWord]) as (st' & continue & Hend & Hends).
  exists st', continue. split; [done|]. split; [done|].
  split; [exact Hend|]. do 3 right. split_and!; try done.
  exists [InvalidWord]. split; [done|]. right. right. split_and!; try done.
  intros [Hhum Ht]. apply Hhuman in Hhum.
  rewrite Hhum, bool_decide_eq_true_2 in Hteach by done. done.
Qed.

(** ** The match, from the deal to the last turn *)

Lemma setup_full (g : Game) :
  ∃ g' h c,
    Game.setup g = Ok g' ∧
    wordset g' = wordset g ∧ strategy g' = strategy g ∧
    players g' = [h; c] ∧
    name h = "HUMAN" ∧ name c = "COMPUTER" ∧
    class h = is_Human ∧ class c = is_Computer (strategy g) ∅ ∧
    score h = 0 ∧ score c = 0 ∧
    sak g = sak g' ++ rev (hand c) ++ rev (hand h) ∧
    length (hand h) = 7 `min` length (sak g) ∧
    length (hand c) = 7 `min` (length (sak g) - length (hand h)).
Proof.
  unfold Game.setup. cbn [for_each mbind result_bind].
  rewrite getletters_Ok. cbn [mbind result_bind].
  rewrite getletters_Ok. cbn [mbind result_bind].
  eexists _, _, _. split; [reflexivity|].
  cbn [players wordset strategy sak].
  split_and!; try done; unfold set_hand; cbn [hand].
  - by rewrite !rev_involutive, app_assoc, !take_drop.
  - rewrite length_rev, length_drop. lia.
  - rewrite !length_rev, !length_drop, length_take. lia.
Qed.

Lemma played_points_app (who : string) (o1 o2 : list Output) :
  played_points who (o1 ++ o2) = played_points who o1 + played_points who o2.
Proof. apply sum_list_with_app. Qed.

Lemma played_points_turn (who : string) (out printed : list Output) (p : Player)
    (continue : bool) :
  played_points who (out ++ ShowPlayer p :: printed
                     ++ (if continue then [] else [NoMoreLetters]))
  = played_points who out + played_points who printed.
Proof.
  rewrite played_points_app.
  change (ShowPlayer p :: ?l) with ([ShowPlayer p] ++ l).
  rewrite !played_points_app. destruct continue; unfold played_points; simpl; lia.
Qed.

(** What stays true all along a match played on a new game. *)
Lemma reachable_inv (ws : gset str) (st : Game.Run) (b : bool) :
  reachable ws st b →
  ∃ h c,
    players (Game.game st) = [h; c] ∧
    name h = "HUMAN" ∧ name c = "COMPUTER" ∧
    class h = is_Human ∧ class c = is_Computer (strategy (Game.game st)) ∅ ∧
    length (hand h) ≤ 7 ∧ length (hand c) ≤ 7 ∧
    (b = true → length (hand h) = 7 ∧ length (hand c) = 7 ∧ sak (Game.game st) ≠ []) ∧
    score h = played_points "HUMAN" (Game.out st) ∧
    score c = played_points "COMPUTER" (Game.out st).
Proof.
  induction 1 as [rnd choice g Hg | st typed rnd st' continue Hreach IH Hstep].
  - destruct (setup_full (Game.settings choice (Game.init rnd ws)))
      as (g' & h & c & Hset & _ & Hs & Hps & Hnh & Hnc & Hh & Hc & Hsh & Hsc
          & Hsak & Hlh & Hlc).
    rewrite Hg in Hset. injection Hset as <-.
    assert (Hlen : length (sak (Game.settings choice (Game.init rnd ws))) = 102).
    { change (sak (Game.settings choice (Game.init rnd ws)))
        with (sak (Game.init rnd ws)).
      by rewrite init_sak, filled_count. }
    rewrite Hlen in Hlh, Hlc.
    exists h, c. simpl. rewrite Hs.
    split_and!; try done; try lia.
    intros _. split_and!; [lia..|].
    intros Hnil. apply (f_equal length) in Hsak.
    rewrite Hlen, Hnil, !length_app, !length_rev in Hsak. simpl in Hsak. lia.
  - destruct IH as (h & c & Hps & Hnh & Hnc & Hh & Hc & _ & _ & Hfull & Hsh & Hsc).
    destruct (Hfull eq_refl) as (Hlh & Hlc & Hbag). clear Hfull.
    destruct (reachable_well_formed ws st true Hreach) as [Hwf _].
    destruct (turn_body_cases ws st typed rnd Hwf)
      as (player & word & st1 & c1 & Hlook & _ & Hstep1 & Hcases).
    rewrite Hstep in Hstep1. injection Hstep1 as <- <-.
    set (i := Game.turn st mod 2) in *.
    assert (Hwho : (i = 0 ∧ player = h) ∨ (i = 1 ∧ player = c)).
    { rewrite Hps in Hlook. destruct i as [|[|i]]; simplify_eq/=; auto. }
    assert (Hlp : length (hand player) = 7) by (by destruct Hwho as [[_ ->]|[_ ->]]).
    assert (Hupd : ∀ p' bag evs,
      name p' = name player → class p' = class player → length (hand p') ≤ 7 →
      score p' = score player + played_points (name player) evs →
      (∀ who, who ≠ name player → played_points who evs = 0) →
      (continue = true → length (hand p') = 7) →
      ends_turn st st' continue (with_player (Game.game st) i p' bag) player evs →
      ∃ h c,
        players (Game.game st') = [h; c] ∧
        name h = "HUMAN" ∧ name c = "COMPUTER" ∧
        class h = is_Human ∧ class c = is_Computer (strategy (Game.game st')) ∅ ∧
        length (hand h) ≤ 7 ∧ length (hand c) ≤ 7 ∧
        (continue = true →
           length (hand h) = 7 ∧ length (hand c) = 7 ∧ sak (Game.game st') ≠ []) ∧
        score h = played_points "HUMAN" (Game.out st') ∧
        score c = played_points "COMPUTER" (Game.out st')).
    { intros p' bag evs Hn Hcl Hl Hs Hother Hfull (Hg & Hcont & _ & Hout).
      rewrite Hg, Hout, !played_points_turn. unfold with_player. simpl. rewrite Hps.
      assert (Hne : sak (Game.game st') ≠ [] ↔ continue = true).
      { rewrite Hcont, Hg. unfold with_player. simpl.
        by rewrite bool_decide_eq_true. }
      rewrite Hg in Hne. unfold with_player in Hne. simpl in Hne.
      assert (Hfull' : continue = true → length (hand p') = 7 ∧ bag ≠ [])
        by (intros Hc'; split; [by apply Hfull|by apply Hne]).
      destruct Hwho as [[-> ->]|[-> ->]]; simpl.
      - exists p', c.
        assert (score p' = played_points "HUMAN" (Game.out st) + played_points "HUMAN" evs)
          by (rewrite Hs, Hsh, Hnh; done).
        assert (played_points "COMPUTER" evs = 0)
          by (apply Hother; rewrite Hnh; done).
        split_and!; try done; try congruence; try lia.
        intros Hc'. destruct (Hfull' Hc'). by split_and!.
      - exists h, p'.
        assert (score p' = played_points "COMPUTER" (Game.out st)
                           + played_points "COMPUTER" evs)
          by (rewrite Hs, Hsc, Hnc; done).
        assert (played_points "HUMAN" evs = 0)
          by (apply Hother; rewrite Hnc; done).
        split_and!; try done; try congruence; try lia.
        intros Hc'. destruct (Hfull' Hc'). by split_and!. }
    assert (Hsame : ∀ evs,
      (∀ who, played_points who evs = 0) →
      ends_turn st st' continue (Game.game st) player evs →
      ∃ h c,
        players (Game.game st') = [h; c] ∧
        name h = "HUMAN" ∧ name c = "COMPUTER" ∧
        class h = is_Human ∧ class c = is_Computer (strategy (Game.game st')) ∅ ∧
        length (hand h) ≤ 7 ∧ length (hand c) ≤ 7 ∧
        (continue = true →
           length (hand h) = 7 ∧ length (hand c) = 7 ∧ sak (Game.game st') ≠ []) ∧
        score h = played_points "HUMAN" (Game.out st') ∧
        score c = played_points "COMPUTER" (Game.out st')).
    { intros evs Hzero (Hg & Hcont & _ & Hout).
      rewrite Hg, Hout, !played_points_turn, !Hzero, !Nat.add_0_r.
      exists h, c. split_and!; try done; lia. }
    destruct Hcases as [(_ & -> & Hg & _ & Hout)
                       |[(_ & hd & bag' & Hsplit & Hlhd & Hends)
                       |[(_ & _ & _ & _ & rest & drawn & bag' & Hperm & Hsplit & Hld & Hends)
                       |(_ & _ & _ & printed & Hends & Hprinted)]]].
    + rewrite Hg, Hout, !played_points_app.
      exists h, c. split_and!; try done; try lia.
      * rewrite Hsh. unfold played_points. simpl. lia.
      * rewrite Hsc. unfold played_points. simpl. lia.
    + apply (Hupd (set_hand player hd) bag' [LettersChanged]).
      * done.
      * done.
      * simpl. lia.
      * simpl. unfold played_points. simpl. lia.
      * done.
      * intros _. simpl. lia.
      * done.
    + assert (Hlr : length word + length rest = 7)
        by (rewrite <- Hlp, Hperm, length_app; done).
      apply (Hupd (set_hand (add_score player (score_of word)) (rest ++ drawn)) bag'
                  [Played (name player) word (score_of word)]).
      * done.
      * done.
      * simpl. rewrite length_app. lia.
      * simpl. unfold played_points. simpl. rewrite decide_True by done. lia.
      * intros who Hwho'. unfold played_points. simpl.
        rewrite decide_False by done. done.
      * intros ->. destruct Hends as (Hg & Hcont & _).
        symmetry in Hcont. apply bool_decide_eq_true in Hcont.
        unfold with_player in Hcont. simpl in Hcont.
        assert (length bag' ≠ 0) by (by destruct bag').
        apply (f_equal length) in Hsplit. rewrite length_app, length_rev in Hsplit.
        simpl. rewrite length_app. lia.
      * done.
    + apply (Hsame printed); [|done]. intros who.
      destruct Hprinted as [(_ & ->)|[(_ & _ & _ & comp & best & _ & _ & ->)|(_ & _ & ->)]];
        try done. by case_bool_decide.
Qed.

(** What stays true all along every match of a session. *)
Lemma match_inv_setup (g g' : Game) :
  Game.setup g = Ok g' → match_inv (Game.start g').
Proof.
  intros Hset.
  destruct (setup_full g)
    as (g1 & h & c & Hset1 & _ & Hs & Hps & Hnh & Hnc & Hh & Hc & Hsh & Hsc
        & Hsak & Hlh & Hlc).
  rewrite Hset in Hset1. injection Hset1 as <-.
  exists h, c. simpl. rewrite Hs.
  split_and!; try done; try lia.
  intros Hne. assert (length (sak g') ≠ 0) by (by destruct (sak g')).
  apply (f_equal length) in Hsak. rewrite !length_app, !length_rev in Hsak. lia.
Qed.

Lemma match_inv_step (ws : gset str) (st st' : Game.Run) (typed : str) (rnd : list nat)
    (continue : bool) :
  well_formed ws (Game.game st) → match_inv st →
  Game.turn_body typed rnd st = Ok (st', continue) →
  match_inv st'.
Proof.
  intros Hwf (h & c & Hps & Hnh & Hnc & Hh & Hc & Hlh & Hlc & Hfull & Hsh & Hsc) Hstep.
  destruct (turn_body_cases ws st typed rnd Hwf)
    as (player & word & st1 & c1 & Hlook & _ & Hstep1 & Hcases).
  rewrite Hstep in Hstep1. injection Hstep1 as <- <-.
  set (i := Game.turn st mod 2) in *.
  assert (Hwho : (i = 0 ∧ player = h) ∨ (i = 1 ∧ player = c)).
  { rewrite Hps in Hlook. destruct i as [|[|i]]; simplify_eq/=; auto. }
  assert (Hlp : length (hand player) ≤ 7) by (by destruct Hwho as [[_ ->]|[_ ->]]).
  assert (Hupd : ∀ p' bag evs,
    name p' = name player → class p' = class player → length (hand p') ≤ 7 →
    score p' = score player + played_points (name player) evs →
    (∀ who, who ≠ name player → played_points who evs = 0) →
    (bag ≠ [] → length (hand p') = 7 ∧ sak (Game.game st) ≠ []) →
    ends_turn st st' continue (with_player (Game.game st) i p' bag) player evs →
    match_inv st').
  { intros p' bag evs Hn Hcl Hl Hs Hother Hfull' (Hg & _ & _ & Hout).
    unfold match_inv.
    rewrite Hg, Hout, !played_points_turn. unfold with_player. simpl. rewrite Hps.
    destruct Hwho as [[-> ->]|[-> ->]]; simpl.
    - exists p', c.
      assert (score p' = played_points "HUMAN" (Game.out st) + played_points "HUMAN" evs)
        by (rewrite Hs, Hsh, Hnh; done).
      assert (played_points "COMPUTER" evs = 0)
        by (apply Hother; rewrite Hnh; done).
      split_and!; try done; try congruence; try lia.
      intros Hb. destruct (Hfull' Hb) as [? Hne]. by destruct (Hfull Hne).
    - exists h, p'.
      assert (score p' = played_points "COMPUTER" (Game.out st)
                         + played_points "COMPUTER" evs)
        by (rewrite Hs, Hsc, Hnc; done).
      assert (played_points "HUMAN" evs = 0)
        by (apply Hother; rewrite Hnc; done).
      split_and!; try done; try congruence; try lia.
      intros Hb. destruct (Hfull' Hb) as [? Hne]. by destruct (Hfull Hne). }
  assert (Hsame : ∀ evs,
    (∀ who, played_points who evs = 0) →
    ends_turn st st' continue (Game.game st) player evs →
    match_inv st').
  { intros evs Hzero (Hg & _ & _ & Hout). unfold match_inv.
    rewrite Hg, Hout, !played_points_turn, !Hzero, !Nat.add_0_r.
    exists h, c. by split_and!. }
  destruct Hcases as [(_ & -> & Hg & _ & Hout)
                     |[(_ & hd & bag' & Hsplit & Hlhd & Hends)
                     |[(_ & _ & _ & _ & rest & drawn & bag' & Hperm & Hsplit & Hld & Hends)
                     |(_ & _ & _ & printed & Hends & Hprinted)]]].
  + unfold match_inv. rewrite Hg, Hout, !played_points_app.
    exists h, c. split_and!; try done.
    * rewrite Hsh. unfold played_points. simpl. lia.
    * rewrite Hsc. unfold played_points. simpl. lia.
  + apply (f_equal length) in Hsplit. unfold SakClass.putbackletters in Hsplit.
    rewrite shuffle_length, !length_app, length_rev in Hsplit.
    apply (Hupd (set_hand player hd) bag' [LettersChanged]).
    * done.
    * done.
    * simpl. lia.
    * simpl. unfold played_points. simpl. lia.
    * done.
    * intros Hb. assert (length bag' ≠ 0) by (by destruct bag').
      simpl. split; [lia|]. intros Hnil. rewrite Hnil in Hsplit. simpl in Hsplit. lia.
    * done.
  + assert (Hlr : length (hand player) = length word + length rest)
      by (rewrite Hperm, length_app; done).
    assert (Hls : length (sak (Game.game st)) = length bag' + length drawn)
      by (rewrite Hsplit, length_app, length_rev; done).
    apply (Hupd (set_hand (add_score player (score_of word)) (rest ++ drawn)) bag'
                [Played (name player) word (score_of word)]).
    * done.
    * done.
    * simpl. rewrite length_app. lia.
    * simpl. unfold played_points. simpl. rewrite decide_True by done. lia.
    * intros who Hwho'. unfold played_points. simpl.
      rewrite decide_False by done. done.
    * intros Hb. assert (length bag' ≠ 0) by (by destruct bag').
      simpl. rewrite length_app. split; [lia|].
      intros Hnil. rewrite Hnil in Hls. simpl in Hls. lia.
    * done.
  + apply (Hsame printed); [|done]. intros who.
    destruct Hprinted as [(_ & ->)|[(_ & _ & _ & comp & best & _ & _ & ->)|(_ & _ & ->)]];
      try done. by case_bool_decide.
Qed.

Lemma session_match_inv (ws : gset str) (st : Game.Run) (b : bool) :
  session ws (InMatch st b) → match_inv st.
Proof.
  intros Hs. remember (InMatch st b) as s eqn:Es. revert st b Es.
  induction Hs as [rnd | choice g _ _ | g g' _ _ Hset
                  | st typed rnd st' continue Hprev IH Hstep | st _ _];
    intros st0 b0 Es; try discriminate Es; injection Es as <- <-.
  - by eapply match_inv_setup.
  - eapply match_inv_step; [by eapply session_well_formed| |exact Hstep].
    by eapply IH.
Qed.

(** The hand of the acting player of a match: at most 7 letters, and 7
    unless the bag is empty. *)
Lemma acting_hand (st : Game.Run) (player : Player) :
  match_inv st →
  players (Game.game st) !! (Game.turn st mod 2) = Some player →
  length (hand player) ≤ 7 ∧
  (sak (Game.game st) ≠ [] → length (hand player) = 7).
Proof.
  intros (h & c & Hps & _ & _ & _ & _ & Hlh & Hlc & Hfull & _) Hlook.
  rewrite Hps in Hlook.
  destruct (Game.turn st mod 2) as [|[|i]]; simplify_eq/=;
    (split; [done|]); intros Hne; by destruct (Hfull Hne).
Qed.

(** X11.  [setup] never raises, whatever the bag: it creates the Human and
    then the Computer (with the strategy set in the game and nothing
    learned), both with score 0, deals the Human the last [min(7, len(sak))]
    letters of the bag and the Computer the [min(7, rest)] letters before
    them, and leaves the other letters in the bag, in their order; the bag is
    not refilled. *)
Theorem setup_deals (g : Game) :
  ∃ g' h c,
    Game.setup g = Ok g' ∧
    wordset g' = wordset g ∧ strategy g' = strategy g ∧
    players g' = [h; c] ∧
    name h = "HUMAN" ∧ name c = "COMPUTER" ∧
    class h = is_Human ∧ class c = is_Computer (strategy g) ∅ ∧
    score h = 0 ∧ score c = 0 ∧
    sak g = sak g' ++ rev (hand c) ++ rev (hand h) ∧
    length (hand h) = 7 `min` length (sak g) ∧
    length (hand c) = 7 `min` (length (sak g) - length (hand h)).
Proof. apply setup_full. Qed.

Lemma playable_submseteq (word h : list char) :
  Game.playable word h = true ↔ word ⊆+ h.
Proof.
  split.
  - intros Hpl. destruct (remove_word word h (playable_count _ _ Hpl)) as (h' & _ & ->).
    by apply submseteq_inserts_r.
  - intros Hsub. apply submseteq_Permutation in Hsub as [k Hk].
    unfold Game.playable. apply forallb_forall. intros c _. apply Nat.leb_le.
    rewrite (count_Permutation c _ _ Hk). unfold count.
    rewrite filter_app, length_app. lia.
Qed.

(** X12.  The test of the turn loop on a submitted word,
    [all(word.count(l) <= hand.count(l) for l in word)], holds exactly for
    the words that use no letter more often than the hand holds it, which
    are exactly the arrangements of [len(word)] positions of the hand that
    the search of the Computer enumerates. *)
Theorem playable_iff_arrangement (word h : list char) :
  (Game.playable word h = true ↔ word ⊆+ h) ∧
  (Game.playable word h = true ↔ word ∈ permutations h (length word)).
Proof.
  split; [apply playable_submseteq|].
  rewrite playable_submseteq, elem_of_permutations.
  split; [by intros ?|by intros [_ ?]].
Qed.

(** The branches, for the player and the word of a given iteration. *)
Lemma turn_body_at (ws : gset str) (st st' : Game.Run) (typed : str) (rnd : list nat)
    (continue : bool) (player : Player) (word : str) :
  well_formed ws (Game.game st) →
  players (Game.game st) !! (Game.turn st mod 2) = Some player →
  play player typed (wordset (Game.game st)) = Ok word →
  Game.turn_body typed rnd st = Ok (st', continue) →
  turn_outcome rnd st st' continue player word.
Proof.
  intros Hwf Hlook Hplay Hstep.
  destruct (turn_body_cases ws st typed rnd Hwf)
    as (player1 & word1 & st1 & c1 & Hlook1 & Hplay1 & Hstep1 & Hcases).
  rewrite Hlook in Hlook1. injection Hlook1 as <-.
  rewrite Hplay in Hplay1. injection Hplay1 as <-.
  rewrite Hstep in Hstep1. injection Hstep1 as <- <-.
  exact Hcases.
Qed.

(** The acting player of a well-formed game and what it submits. *)
Lemma acting_player (ws : gset str) (st : Game.Run) (typed : str) :
  well_formed ws (Game.game st) →
  ∃ player word,
    players (Game.game st) !! (Game.turn st mod 2) = Some player ∧
    play player typed (wordset (Game.game st)) = Ok word ∧
    Forall in_table (hand player) ∧
    (class player = is_Human → word = typed) ∧
    (class player ≠ is_Human →
       word = PASS ∨ word ∈ candidates (hand player) (wordset (Game.game st))).
Proof.
  intros (Hws & Hbag & h & c & Hps & Hh & Hc & Hhh & Hhc).
  pose proof (Nat.mod_upper_bound (Game.turn st) 2) as Hi.
  destruct (Game.turn st mod 2) as [|[|i]] eqn:Ei; [| |lia]; rewrite Hps; simpl.
  - exists h, typed. unfold play. rewrite Hh. by split_and!.
  - destruct (play_Ok (strategy (Game.game st)) ∅ (hand c)
                (wordset (Game.game st)) Hhc) as (r & Hr & Hcand).
    exists c, r. unfold play. rewrite Hc. split_and!; try done.
    intros _. by rewrite (right_id_L ∅ (∪)) in Hcand.
Qed.

Lemma in_table_not_token (w : str) :
  Forall in_table w → w ≠ lit "Q" ∧ w ≠ lit "P" ∧ w ≠ PASS.
Proof.
  intros Hw. split_and!; intros ->; apply Forall_cons in Hw as [Hc _];
    destruct (in_table_getitem _ Hc) as (n & Hn & _); vm_compute in Hn; discriminate.
Qed.

Lemma played_letters_turn (printed : list Output) (p : Player) (continue : bool) :
  played_letters (ShowPlayer p :: printed ++ (if continue then [] else [NoMoreLetters]))
  = played_letters printed.
Proof.
  change (ShowPlayer p :: ?l) with ([ShowPlayer p] ++ l).
  rewrite !played_letters_app. destruct continue; unfold played_letters; simpl; lia.
Qed.



(** X14.  In any match of a session, a move that is not an exchange and is not
    a word of the dictionary playable from the hand (a quit, a pass, an
    unknown or unplayable word) leaves the game object as it was: bag, hands
    and scores; an invalid word costs nothing. *)
Theorem unplayed_move_changes_nothing (ws : gset str) (st st' : Game.Run) (typed : str)
    (rnd : list nat) (continue : bool) (player : Player) (word : str) :
  session ws (InMatch st true) →
  players (Game.game st) !! (Game.turn st mod 2) = Some player →
  play player typed (wordset (Game.game st)) = Ok word →
  word ≠ lit "P" →
  ¬ (word ∈ wordset (Game.game st) ∧ Game.playable word (hand player) = true) →
  Game.turn_body typed rnd st = Ok (st', continue) →
  Game.game st' = Game.game st.
Proof.
  intros Hreach Hlook Hplay HP Hno Hstep.
  pose proof (session_well_formed ws st true Hreach) as Hwf.
  destruct (turn_body_at ws st st' typed rnd continue player word Hwf Hlook Hplay Hstep)
    as [(_ & _ & Hg & _)|[(? & _)|[(_ & _ & Hin & Hpl & _)
       |(_ & _ & _ & printed & (Hg & _) & _)]]]; try done.
  by destruct Hno.
Qed.

Lemma unplayed_move_changes_nothing_witness :
  let st := Game.start demo_rematch in
  let st' := {| Game.game := demo_rematch; Game.turn := 1;
                Game.out := [ShowPlayer demo_rematch_human] |} in
  session demo_words (InMatch st true) ∧
  players (Game.game st) !! (Game.turn st mod 2) = Some demo_rematch_human ∧
  play demo_rematch_human (lit "XYZ") (wordset (Game.game st)) = Ok (lit "XYZ") ∧
  lit "XYZ" ≠ lit "P" ∧
  ¬ (lit "XYZ" ∈ wordset (Game.game st) ∧
     Game.playable (lit "XYZ") (hand demo_rematch_human) = true) ∧
  Game.turn_body (lit "XYZ") [] st = Ok (st', true) ∧
  Game.game st' = Game.game st.
Proof.
  intros st st'.
  assert (Hstart : session demo_words (InMatch (Game.start demo_game) true)).
  { apply (session_setup demo_words
             (Game.settings (lit "f") (Game.init (rev (seq 1 101)) demo_words)) demo_game).
    - apply session_settings, session_new.
    - vm_compute. reflexivity. }
  assert (Hquit : session demo_words (InMatch demo_quit false)).
  { apply (session_turn demo_words _ (lit "Q") [] demo_quit false Hstart).
    vm_compute. reflexivity. }
  assert (Hreach : session demo_words (InMatch st true)).
  { apply (session_setup demo_words _ demo_rematch (session_end demo_words _ Hquit)).
    vm_compute. reflexivity. }
  assert (Hlook : players (Game.game st) !! (Game.turn st mod 2) = Some demo_rematch_human)
    by (vm_compute; reflexivity).
  assert (Hplay : play demo_rematch_human (lit "XYZ") (wordset (Game.game st))
                  = Ok (lit "XYZ"))
    by reflexivity.
  assert (HP : lit "XYZ" ≠ lit "P") by (vm_compute; discriminate).
  assert (Hno : ¬ (lit "XYZ" ∈ wordset (Game.game st) ∧
                   Game.playable (lit "XYZ") (hand demo_rematch_human) = true))
    by (intros [_ Hpl]; vm_compute in Hpl; discriminate Hpl).
  assert (Hstep : Game.turn_body (lit "XYZ") [] st = Ok (st', true))
    by (vm_compute; reflexivity).
  split_and!; try assumption.
  exact (unplayed_move_changes_nothing demo_words st st' (lit "XYZ") [] true
           demo_rematch_human (lit "XYZ") Hreach Hlook Hplay HP Hno Hstep).
Defined.

(** X15.  In any match of a session the loop of [run] goes on after an
    iteration exactly when the acting player did not quit and the bag is not
    empty afterwards; the turn counter then grows by one, and stays as it was
    when the loop breaks. *)
Theorem loop_goes_on_iff (ws : gset str) (st st' : Game.Run) (typed : str)
    (rnd : list nat) (continue : bool) (player : Player) (word : str) :
  session ws (InMatch st true) →
  players (Game.game st) !! (Game.turn st mod 2) = Some player →
  play player typed (wordset (Game.game st)) = Ok word →
  Game.turn_body typed rnd st = Ok (st', continue) →
  (continue = true ↔ word ≠ lit "Q" ∧ sak (Game.game st') ≠ []) ∧
  Game.turn st' = (if continue then S (Game.turn st) else Game.turn st).
Proof.
  intros Hreach Hlook Hplay Hstep.
  pose proof (session_well_formed ws st true Hreach) as Hwf.
  assert (Hends : ∀ g' printed, word ≠ lit "Q" →
            ends_turn st st' continue g' player printed →
            (continue = true ↔ word ≠ lit "Q" ∧ sak (Game.game st') ≠ []) ∧
            Game.turn st' = (if continue then S (Game.turn st) else Game.turn st)).
  { intros g' printed HQ (Hg & -> & Hturn & _). rewrite Hg. split; [|done].
    rewrite bool_decide_eq_true. tauto. }
  destruct (turn_body_at ws st st' typed rnd continue player word Hwf Hlook Hplay Hstep)
    as [(-> & -> & _ & Ht & _)|[(-> & hd & bag' & _ & _ & He)
       |[(HQ & _ & _ & _ & rest & drawn & bag' & _ & _ & _ & He)
       |(HQ & _ & _ & printed & He & _)]]].
  - split; [|done]. split; [done|]. by intros [? _].
  - eapply Hends; [|exact He]. vm_compute. discriminate.
  - by eapply Hends.
  - by eapply Hends.
Qed.

Lemma loop_goes_on_iff_witness :
  let st := Game.start demo_game in
  let st' := demo_after_play in
  session demo_words (InMatch st true) ∧
  players (Game.game st) !! (Game.turn st mod 2) = Some demo_human ∧
  play demo_human demo_word (wordset (Game.game st)) = Ok demo_word ∧
  Game.turn_body demo_word [] st = Ok (st', true) ∧
  (true = true ↔ demo_word ≠ lit "Q" ∧ sak (Game.game st') ≠ []) ∧
  Game.turn st' = (if true then S (Game.turn st) else Game.turn st).
Proof.
  intros st st'.
  assert (Hreach : session demo_words (InMatch st true)).
  { apply (session_setup demo_words
             (Game.settings (lit "f") (Game.init (rev (seq 1 101)) demo_words)) demo_game).
    - apply session_settings, session_new.
    - vm_compute. reflexivity. }
  assert (Hlook : players (Game.game st) !! (Game.turn st mod 2) = Some demo_human)
    by (vm_compute; reflexivity).
  assert (Hplay : play demo_human demo_word (wordset (Game.game st)) = Ok demo_word)
    by reflexivity.
  assert (Hstep : Game.turn_body demo_word [] st = Ok (st', true))
    by (vm_compute; reflexivity).
  split_and!; try assumption.
  - exact (proj1 (loop_goes_on_iff demo_words st st' demo_word [] true demo_human
                    demo_word Hreach Hlook Hplay Hstep)).
  - exact (proj2 (loop_goes_on_iff demo_words st st' demo_word [] true demo_human
                    demo_word Hreach Hlook Hplay Hstep)).
Defined.

(** X16.  During a match no hand ever holds more than 7 letters, and as
    long as the loop goes on both hands hold exactly 7 letters and the bag
    is not empty. *)
Theorem hands_full_while_running (ws : gset str) (st : Game.Run) (b : bool) :
  reachable ws st b →
  (∀ p, p ∈ players (Game.game st) → length (hand p) ≤ 7) ∧
  (b = true → (∀ p, p ∈ players (Game.game st) → length (hand p) = 7) ∧
              sak (Game.game st) ≠ []).
Proof.
  intros (h & c & Hps & _ & _ & _ & _ & Hlh & Hlc & Hfull & _)%reachable_inv.
  rewrite Hps. split.
  - intros p [->|[->|?%elem_of_nil]%elem_of_cons]%elem_of_cons; done.
  - intros Hb. destruct (Hfull Hb) as (? & ? & ?). split; [|done].
    intros p [->|[->|?%elem_of_nil]%elem_of_cons]%elem_of_cons; done.
Qed.

Lemma hands_full_while_running_witness :
  let st := demo_after_play in
  reachable demo_words st true ∧
  (∀ p, p ∈ players (Game.game st) → length (hand p) ≤ 7) ∧
  (true = true → (∀ p, p ∈ players (Game.game st) → length (hand p) = 7) ∧
                 sak (Game.game st) ≠ []).
Proof.
  intros st.
  assert (Hstart : reachable demo_words (Game.start demo_game) true).
  { apply (reach_setup demo_words (rev (seq 1 101)) (lit "f") demo_game).
    vm_compute. reflexivity. }
  assert (Hreach : reachable demo_words st true).
  { apply (reach_turn demo_words (Game.start demo_game) demo_word [] st true Hstart).
    vm_compute. reflexivity. }
  split; [exact Hreach|].
  exact (hands_full_while_running demo_words st true Hreach).
Defined.

(** X17.  In any match of a session the score of each player is the sum of the
    points printed for the words that player has played: the two players are
    called HUMAN and COMPUTER, and nothing else changes a score. *)
Theorem scores_match_output (ws : gset str) (st : Game.Run) (b : bool) :
  session ws (InMatch st b) →
  ∃ h c,
    players (Game.game st) = [h; c] ∧
    name h = "HUMAN" ∧ name c = "COMPUTER" ∧
    score h = played_points "HUMAN" (Game.out st) ∧
    score c = played_points "COMPUTER" (Game.out st).
Proof.
  intros (h & c & Hps & Hnh & Hnc & _ & _ & _ & _ & _ & Hsh & Hsc)%session_match_inv.
  by exists h, c.
Qed.

Lemma scores_match_output_witness :
  let st := demo_after_play in
  session demo_words (InMatch st true) ∧
  ∃ h c,
    players (Game.game st) = [h; c] ∧
    name h = "HUMAN" ∧ name c = "COMPUTER" ∧
    score h = played_points "HUMAN" (Game.out st) ∧
    score c = played_points "COMPUTER" (Game.out st).
Proof.
  intros st.
  assert (Hstart : session demo_words (InMatch (Game.start demo_game) true)).
  { apply (session_setup demo_words
             (Game.settings (lit "f") (Game.init (rev (seq 1 101)) demo_words)) demo_game).
    - apply session_settings, session_new.
    - vm_compute. reflexivity. }
  assert (Hreach : session demo_words (InMatch st true)).
  { apply (session_turn demo_words (Game.start demo_game) demo_word [] st true Hstart).
    vm_compute. reflexivity. }
  split; [exact Hreach|].
  exact (scores_match_output demo_words st true Hreach).
Defined.

(** X18.  In any match of a session the bag never grows: an iteration takes
    out of it as many letters as the word it reports as played has, or all of
    them when fewer remain, and nothing otherwise; an exchange leaves it as
    long as it was. *)
Theorem bag_never_grows (ws : gset str) (st st' : Game.Run) (typed : str)
    (rnd : list nat) (continue : bool) :
  session ws (InMatch st true) →
  Game.turn_body typed rnd st = Ok (st', continue) →
  ∃ new, Game.out st' = Game.out st ++ new ∧
         length (sak (Game.game st'))
         = length (sak (Game.game st)) - played_letters new.
Proof.
  intros Hreach Hstep.
  pose proof (session_well_formed ws st true Hreach) as Hwf.
  destruct (acting_player ws st typed Hwf) as (player & word & Hlook & Hplay & _).
  destruct (acting_hand st player (session_match_inv ws st true Hreach) Hlook)
    as [Hlp Hfull].
  destruct (turn_body_at ws st st' typed rnd continue player word Hwf Hlook Hplay Hstep)
    as [(_ & _ & Hg & _ & Hout)
       |[(_ & hd & bag' & Hput & Hlhd & (Hg & _ & _ & Hout))
       |[(_ & _ & _ & _ & rest & drawn & bag' & Hperm & Hsak & Hld & (Hg & _ & _ & Hout))
       |(_ & _ & _ & printed & (Hg & _ & _ & Hout) & Hprinted)]]];
    eexists; (split; [exact Hout|]); rewrite Hg.
  - unfold played_letters. simpl. lia.
  - rewrite played_letters_turn.
    unfold with_player, played_letters. simpl.
    apply (f_equal length) in Hput.
    unfold SakClass.putbackletters in Hput.
    rewrite shuffle_length, !length_app, length_rev in Hput.
    destruct (decide (sak (Game.game st) = [])) as [Hnil|Hne].
    + assert (length (sak (Game.game st)) = 0) by (by rewrite Hnil). lia.
    + specialize (Hfull Hne). lia.
  - rewrite played_letters_turn.
    unfold with_player, played_letters. simpl.
    assert (length (hand player) = length word + length rest)
      by (rewrite Hperm; apply length_app).
    destruct (decide (sak (Game.game st) = [])) as [Hnil|Hne].
    + rewrite Hnil in Hsak. symmetry in Hsak. apply app_eq_nil in Hsak as [-> _].
      by rewrite Hnil.
    + specialize (Hfull Hne).
      apply (f_equal length) in Hsak. rewrite length_app, length_rev in Hsak. lia.
  - rewrite played_letters_turn.
    assert (played_letters printed = 0) as ->; [|lia].
    destruct Hprinted as [(_ & ->)|[(_ & _ & _ & comp & best & _ & _ & ->)|(_ & _ & ->)]];
      try done. by case_bool_decide.
Qed.

Lemma bag_never_grows_witness :
  let st := Game.start demo_game in
  let st' := demo_after_play in
  session demo_words (InMatch st true) ∧
  Game.turn_body demo_word [] st = Ok (st', true) ∧
  ∃ new, Game.out st' = Game.out st ++ new ∧
         length (sak (Game.game st'))
         = length (sak (Game.game st)) - played_letters new.
Proof.
  intros st st'.
  assert (Hreach : session demo_words (InMatch st true)).
  { apply (session_setup demo_words
             (Game.settings (lit "f") (Game.init (rev (seq 1 101)) demo_words)) demo_game).
    - apply session_settings, session_new.
    - vm_compute. reflexivity. }
  assert (Hstep : Game.turn_body demo_word [] st = Ok (st', true))
    by (vm_compute; reflexivity).
  split_and!; try assumption.
  exact (bag_never_grows demo_words st st' demo_word [] true Hreach Hstep).
Defined.

(** X19.  In any match of a session a move of the Computer is never rejected:
    the iteration prints either that the Computer passed or that it played a
    word of the dictionary laid out from its hand, with the score of that
    word; the Computer never quits, never exchanges and never submits an
    invalid word. *)
Theorem computer_move_never_rejected (ws : gset str) (st st' : Game.Run) (typed : str)
    (rnd : list nat) (continue : bool) (computer : Player) :
  session ws (InMatch st true) →
  players (Game.game st) !! (Game.turn st mod 2) = Some computer →
  class computer ≠ is_Human →
  Game.turn_body typed rnd st = Ok (st', continue) →
  ∃ printed,
    Game.out st' = Game.out st ++ ShowPlayer computer :: printed
                   ++ (if continue then [] else [NoMoreLetters]) ∧
    (printed = [Passed "COMPUTER"] ∨
     ∃ w, printed = [Played "COMPUTER" w (score_of w)] ∧
          w ∈ ws ∧ w ⊆+ hand computer ∧ 2 ≤ length w).
Proof.
  intros Hreach Hlook Hclass Hstep.
  pose proof (session_well_formed ws st true Hreach) as Hwf.
  destruct (session_match_inv ws st true Hreach)
    as (h & c & Hps & _ & Hnc & Hh & _ & _).
  assert (Hname : name computer = "COMPUTER").
  { rewrite Hps in Hlook.
    destruct (Game.turn st mod 2) as [|[|i]]; simplify_eq/=; done. }
  destruct (acting_player ws st typed Hwf)
    as (p1 & word & Hl1 & Hplay & Hhand & _ & Hword).
  rewrite Hlook in Hl1. injection Hl1 as <-.
  specialize (Hword Hclass).
  pose proof Hwf as (Hws & _).
  assert (Hnp : Game.playable PASS (hand computer) ≠ true).
  { intros Hpl. destruct (in_table_not_PASS PASS); [|done].
    by eapply playable_in_table. }
  destruct (turn_body_at ws st st' typed rnd continue computer word Hwf Hlook Hplay Hstep)
    as [(HQ & _)|[(HP & _)|[(_ & _ & Hin & Hpl & rest & drawn & bag' & _ & _ & _ & He)
       |(_ & _ & Hno & printed & He & Hprinted)]]].
  - exfalso. destruct Hword as [->|Hc]; [vm_compute in HQ; discriminate|].
    destruct (in_table_not_token word) as (? & _); [|done].
    by eapply candidates_in_table.
  - exfalso. destruct Hword as [->|Hc]; [vm_compute in HP; discriminate|].
    destruct (in_table_not_token word) as (_ & ? & _); [|done].
    by eapply candidates_in_table.
  - destruct He as (_ & _ & _ & Hout). rewrite Hname in Hout.
    eexists. split; [exact Hout|]. right. exists word. split; [done|].
    destruct Hword as [->|Hc]; [by destruct Hnp|].
    apply candidates_derivable in Hc as (_ & Hsub & Hlen).
    rewrite <- Hws. by split_and!.
  - destruct He as (_ & _ & _ & Hout). rewrite Hname in Hprinted.
    eexists. split; [exact Hout|]. left.
    destruct Hword as [->|Hc].
    + by destruct Hprinted as [(_ & ->)|[(? & _)|(? & _)]].
    + destruct Hno. apply candidates_derivable in Hc as (Hin & Hsub & _).
      split; [done|]. by apply playable_submseteq.
Qed.

(** X20.  At any point of any match of a session [end] prints the final
    line of each player and appends nothing to the dictionary file: no word
    is ever learned during a match, whatever the strategy. *)
Theorem end_saves_nothing (ws : gset str) (st : Game.Run) (b : bool) :
  session ws (InMatch st b) →
  Game.end_ (Game.game st)
  = (GameOver :: map FinalPlayer (players (Game.game st)), []).
Proof.
  intros (h & c & Hps & _ & _ & Hh & Hc & _)%session_match_inv.
  unfold Game.end_. rewrite Hps. simpl. rewrite Hh, Hc.
  destruct (strategy (Game.game st)); try done.
Qed.

Lemma end_saves_nothing_witness :
  let st := demo_after_play in
  session demo_words (InMatch st true) ∧
  Game.end_ (Game.game st)
  = (GameOver :: map FinalPlayer (players (Game.game st)), []).
Proof.
  intros st.
  assert (Hstart : session demo_words (InMatch (Game.start demo_game) true)).
  { apply (session_setup demo_words
             (Game.settings (lit "f") (Game.init (rev (seq 1 101)) demo_words)) demo_game).
    - apply session_settings, session_new.
    - vm_compute. reflexivity. }
  assert (Hreach : session demo_words (InMatch st true)).
  { apply (session_turn demo_words (Game.start demo_game) demo_word [] st true Hstart).
    vm_compute. reflexivity. }
  split; [exact Hreach|].
  exact (end_saves_nothing demo_words st true Hreach).
Defined.

(** X21.  [setup] deals from the bag as it is.  On a game whose bag is
    empty (a new match started from the menu after the bag ran out) it
    deals two empty hands, and the first iteration of [run] then ends the
    match, whatever is typed. *)
Theorem setup_on_empty_bag (g : Game) :
  sak g = [] →
  ∃ g' h c,
    Game.setup g = Ok g' ∧ players g' = [h; c] ∧
    hand h = [] ∧ hand c = [] ∧ sak g' = [] ∧
    ∀ typed rnd, ∃ st', Game.turn_body typed rnd (Game.start g') = Ok (st', false).
Proof.
  intros Hnil.
  destruct (setup_full g) as (g' & h & c & Hset & Hws & Hs & Hps & _ & _ & Hh & Hc
                              & _ & _ & Hsak & Hlh & Hlc).
  rewrite Hnil in Hsak, Hlh, Hlc. simpl in Hlh, Hlc.
  apply nil_length_inv in Hlh. apply nil_length_inv in Hlc.
  symmetry in Hsak. apply app_eq_nil in Hsak as [Hbag _].
  exists g', h, c. split_and!; try done.
  assert (Hwf : well_formed (wordset g) g').
  { split_and!; [done|by rewrite Hbag|]. exists h, c. rewrite Hs, Hlh, Hlc.
    by split_and!. }
  intros typed rnd.
  destruct (turn_body_cases (wordset g) (Game.start g') typed rnd Hwf)
    as (player & word & st' & continue & Hlook & _ & Hstep & Hcases).
  assert (Hhp : hand player = []).
  { simpl in Hlook. rewrite Hps in Hlook. simpl in Hlook. by injection Hlook as <-. }
  assert (continue = false) as ->; [|by exists st'].
  simpl in Hcases.
  destruct Hcases as [(_ & -> & _)
                     |[(_ & hd & bag' & Hput & _ & (_ & -> & _))
                     |[(_ & _ & _ & _ & rest & drawn & bag' & _ & Hsak & _ & (_ & -> & _))
                     |(_ & _ & _ & printed & (_ & -> & _) & _)]]]; [done|..];
    apply bool_decide_eq_false; intros Hne; apply Hne; unfold with_player; simpl.
  - apply (f_equal length) in Hput. unfold SakClass.putbackletters in Hput.
    rewrite shuffle_length, Hbag, Hhp in Hput. simpl in Hput.
    rewrite length_app in Hput. apply nil_length_inv. lia.
  - rewrite Hbag in Hsak. symmetry in Hsak. by apply app_eq_nil in Hsak as [? _].
  - done.
Qed.

Lemma setup_on_empty_bag_witness :
  sak demo_spent = [] ∧
  ∃ g' h c,
    Game.setup demo_spent = Ok g' ∧ players g' = [h; c] ∧
    hand h = [] ∧ hand c = [] ∧ sak g' = [] ∧
    ∀ typed rnd, ∃ st', Game.turn_body typed rnd (Game.start g') = Ok (st', false).
Proof.
  assert (Hnil : sak demo_spent = []) by reflexivity.
  split; [exact Hnil|]. exact (setup_on_empty_bag demo_spent Hnil).
Defined.

(** X22.  A whole match on a new game never raises an exception, whatever
    the draws of the random source, the strategy chosen and the lines typed:
    [setup] and every iteration of [run] complete. *)
Theorem match_never_raises (rnd : list nat) (choice : str) (ws : gset str)
    (script : list (str * list nat)) :
  ∃ g st b,
    Game.setup (Game.settings choice (Game.init rnd ws)) = Ok g ∧
    Game.run script g = Ok (st, b) ∧
    reachable ws st b.
Proof.
  destruct (setup_full (Game.settings choice (Game.init rnd ws)))
    as (g & h & c & Hset & _).
  assert (Hreach : reachable ws (Game.start g) true) by by eapply reach_setup.
  destruct (run_loop_Ok ws script (Game.start g) Hreach) as (st & b & Hrun).
  exists g, st, b. split_and!; [done..|].
  by eapply run_loop_reachable.
Qed.

Lemma player_lines_app (o1 o2 : list Output) :
  player_lines (o1 ++ o2) = player_lines o1 ++ player_lines o2.
Proof. apply omap_app. Qed.

(** X23.  In any match of a session the player lines printed by [run]
    alternate, starting with the Human: the iteration of turn [t] prints the
    line of HUMAN when [t] is even and of COMPUTER when [t] is odd, one line
    per iteration, the last one included. *)
Theorem player_lines_alternate (ws : gset str) (st : Game.Run) (b : bool) :
  session ws (InMatch st b) →
  player_lines (Game.out st)
  = turn_order (if b then Game.turn st else S (Game.turn st)).
Proof.
  intros Hs. remember (InMatch st b) as s eqn:Es. revert st b Es.
  induction Hs as [rnd | choice g _ _ | g g' _ _ Hset
                  | st typed rnd st' continue Hreach IH Hstep | st _ _];
    intros st0 b0 Es; try discriminate Es; injection Es as <- <-; [done|].
  specialize (IH st true eq_refl).
  pose proof (session_well_formed ws st true Hreach) as Hwf.
  destruct (session_match_inv ws st true Hreach) as (h & c & Hps & Hnh & Hnc & _).
  destruct (acting_player ws st typed Hwf) as (player & word & Hlook & Hplay & _).
  assert (Hname : name player
                  = if decide (Game.turn st mod 2 = 0) then "HUMAN" else "COMPUTER"%string).
  { rewrite Hps in Hlook.
    destruct (Game.turn st mod 2) as [|[|i]]; simplify_eq/=; done. }
  assert (Hnext : turn_order (S (Game.turn st))
                  = player_lines (Game.out st) ++ [name player]).
  { unfold turn_order. rewrite seq_S, map_app, IH, Hname. done. }
  assert (Hends : ∀ g' printed,
            player_lines printed = [] →
            ends_turn st st' continue g' player printed →
            player_lines (Game.out st')
            = turn_order (if continue then Game.turn st' else S (Game.turn st'))).
  { intros g' printed Hnone (_ & _ & Hturn & Hout).
    rewrite Hout, Hturn. change (ShowPlayer player :: ?l) with ([ShowPlayer player] ++ l).
    rewrite !player_lines_app, Hnone.
    destruct continue; simpl; by rewrite Hnext. }
  destruct (turn_body_at ws st st' typed rnd continue player word Hwf Hlook Hplay Hstep)
    as [(_ & -> & _ & Ht & Hout)|[(_ & hd & bag' & _ & _ & He)
       |[(_ & _ & _ & _ & rest & drawn & bag' & _ & _ & _ & He)
       |(_ & _ & _ & printed & He & Hprinted)]]].
  - rewrite Hout, Ht, player_lines_app, Hnext. done.
  - by eapply Hends; [|exact He].
  - by eapply Hends; [|exact He].
  - eapply Hends; [|exact He].
    destruct Hprinted as [(_ & ->)|[(_ & _ & _ & comp & best & _ & _ & ->)|(_ & _ & ->)]];
      try done. by case_bool_decide.
Qed.

Lemma player_lines_alternate_witness :
  let st := demo_after_play in
  session demo_words (InMatch st true) ∧
  player_lines (Game.out st)
  = turn_order (if true then Game.turn st else S (Game.turn st)).
Proof.
  intros st.
  assert (Hstart : session demo_words (InMatch (Game.start demo_game) true)).
  { apply (session_setup demo_words
             (Game.settings (lit "f") (Game.init (rev (seq 1 101)) demo_words)) demo_game).
    - apply session_settings, session_new.
    - vm_compute. reflexivity. }
  assert (Hreach : session demo_words (InMatch st true)).
  { apply (session_turn demo_words (Game.start demo_game) demo_word [] st true Hstart).
    vm_compute. reflexivity. }
  split; [exact Hreach|].
  exact (player_lines_alternate demo_words st true Hreach).
Defined.

Lemma smart_score_ignores_hand_order_witness :
  let hand := [Alpha; Lambda; Phi; Alpha] in
  let hand' := [Phi; Alpha; Alpha; Lambda] in
  let ws : gset str := {[ [Alpha; Lambda; Phi; Alpha]; [Phi; Alpha] ]} in
  hand ≡ₚ hand' ∧ Forall in_table hand ∧
  ∃ b b', Computer.play SMART ∅ hand ws = Ok b ∧
          Computer.play SMART ∅ hand' ws = Ok b' ∧
          score_of b = score_of b' ∧ (b = PASS ↔ b' = PASS).
Proof.
  intros hand hand' ws.
  assert (Hperm : hand ≡ₚ hand')
    by (apply (bool_decide_unpack _); vm_compute; exact I).
  assert (Hh : Forall in_table hand)
    by (apply (bool_decide_unpack _); vm_compute; exact I).
  split; [exact Hperm|]. split; [exact Hh|].
  exact (smart_score_ignores_hand_order ∅ hand hand' ws Hperm Hh).
Defined.

Lemma computer_move_never_rejected_witness :
  let st := demo_after_play in
  let st' := demo_after_reply in
  session demo_words (InMatch st true) ∧
  players (Game.game st) !! (Game.turn st mod 2) = Some demo_computer ∧
  class demo_computer ≠ is_Human ∧
  Game.turn_body [] [] st = Ok (st', true) ∧
  ∃ printed,
    Game.out st' = Game.out st ++ ShowPlayer demo_computer :: printed
                   ++ (if true then [] else [NoMoreLetters]) ∧
    (printed = [Passed "COMPUTER"] ∨
     ∃ w, printed = [Played "COMPUTER" w (score_of w)] ∧
          w ∈ demo_words ∧ w ⊆+ hand demo_computer ∧ 2 ≤ length w).
Proof.
  intros st st'.
  assert (Hstart : session demo_words (InMatch (Game.start demo_game) true)).
  { apply (session_setup demo_words
             (Game.settings (lit "f") (Game.init (rev (seq 1 101)) demo_words)) demo_game).
    - apply session_settings, session_new.
    - vm_compute. reflexivity. }
  assert (Hreach : session demo_words (InMatch st true)).
  { apply (session_turn demo_words (Game.start demo_game) demo_word [] st true Hstart).
    vm_compute. reflexivity. }
  assert (Hlook : players (Game.game st) !! (Game.turn st mod 2) = Some demo_computer)
    by (vm_compute; reflexivity).
  assert (Hclass : class demo_computer ≠ is_Human) by discriminate.
  assert (Hstep : Game.turn_body [] [] st = Ok (st', true))
    by (vm_compute; reflexivity).
  split_and!; try assumption.
  exact (computer_move_never_rejected demo_words st st' [] [] true demo_computer
           Hreach Hlook Hclass Hstep).
Defined.

(** X24.  In any match of a session an iteration never lowers a score and
    never renames a player: every player keeps its place and its name, and its
    score after the iteration is at least its score before. *)
Theorem scores_never_decrease (ws : gset str) (st st' : Game.Run) (typed : str)
    (rnd : list nat) (continue : bool) (j : nat) (p : Player) :
  session ws (InMatch st true) →
  Game.turn_body typed rnd st = Ok (st', continue) →
  players (Game.game st) !! j = Some p →
  ∃ p', players (Game.game st') !! j = Some p' ∧
        name p' = name p ∧ class p' = class p ∧ score p ≤ score p'.
Proof.
  intros Hreach Hstep Hj.
  pose proof (session_well_formed ws st true Hreach) as Hwf.
  destruct (acting_player ws st typed Hwf) as (player & word & Hlook & Hplay & _).
  assert (Hupd : ∀ p1 bag, name p1 = name player → class p1 = class player →
            score player ≤ score p1 →
            Game.game st'
            = with_player (Game.game st) (Game.turn st mod 2) p1 bag →
            ∃ p', players (Game.game st') !! j = Some p' ∧
                  name p' = name p ∧ class p' = class p ∧ score p ≤ score p').
  { intros p1 bag Hn Hc Hs ->. unfold with_player. simpl.
    destruct (decide (j = Game.turn st mod 2)) as [->|Hne].
    - rewrite Hlook in Hj. injection Hj as <-. exists p1.
      split; [|done]. apply list_lookup_insert_eq. by eapply lookup_lt_Some.
    - exists p. split; [|done]. by rewrite list_lookup_insert_ne. }
  destruct (turn_body_at ws st st' typed rnd continue player word Hwf Hlook Hplay Hstep)
    as [(_ & _ & Hg & _)|[(_ & hd & bag' & _ & _ & (Hg & _))
       |[(_ & _ & _ & _ & rest & drawn & bag' & _ & _ & _ & (Hg & _))
       |(_ & _ & _ & printed & (Hg & _) & _)]]].
  - exists p. by rewrite Hg.
  - by apply (Hupd (set_hand player hd) bag').
  - apply (Hupd (set_hand (add_score player (score_of word)) (rest ++ drawn)) bag');
      try done. simpl. lia.
  - exists p. by rewrite Hg.
Qed.

Lemma scores_never_decrease_witness :
  let st := Game.start demo_game in
  let st' := demo_after_play in
  session demo_words (InMatch st true) ∧
  Game.turn_body demo_word [] st = Ok (st', true) ∧
  players (Game.game st) !! 0 = Some demo_human ∧
  ∃ p', players (Game.game st') !! 0 = Some p' ∧
        name p' = name demo_human ∧ class p' = class demo_human ∧
        score demo_human ≤ score p'.
Proof.
  intros st st'.
  assert (Hreach : session demo_words (InMatch st true)).
  { apply (session_setup demo_words
             (Game.settings (lit "f") (Game.init (rev (seq 1 101)) demo_words)) demo_game).
    - apply session_settings, session_new.
    - vm_compute. reflexivity. }
  assert (Hstep : Game.turn_body demo_word [] st = Ok (st', true))
    by (vm_compute; reflexivity).
  assert (Hj : players (Game.game st) !! 0 = Some demo_human)
    by (vm_compute; reflexivity).
  split_and!; try assumption.
  exact (scores_never_decrease demo_words st st' demo_word [] true 0 demo_human
           Hreach Hstep Hj).
Defined.
